(** * Nesting calculator: the grid packer of [main.py]

    A shallow embedding of [pack_shapes], [calculate_shape_area],
    [calculate_unused_area] and of the area bound computed by the main
    script, followed by the properties of the packer; then of
    [visualize_sheets] and of the handler of the main script, with the
    properties of the results it shows.

    The Python code computes on [float]s, reads its parameters from a
    [dict] and stores a [params.copy()] in every placed shape.  The
    embedding keeps these three aspects apart:

    - the arithmetic is an interface, [Num], with two instances: the
      binary64 numbers of Rocq ([float], the arithmetic Python runs, used
      for every concrete run below) and the real numbers ([R], exact
      arithmetic, used for the statements that quantify over all
      positive dimensions);
    - the dictionaries live in a heap of objects addressed by location,
      so that aliasing and mutation are visible;
    - the three nested [while] loops take fuel; running out of fuel is an
      outcome of its own, never confused with a Python exception. *)

From Stdlib Require Import ZArith Floats Reals Machin Lra Lia.
From stdpp Require Import base list strings gmap.

Set Warnings "-inexact-float".

(** ** Exceptions and outcomes *)

(** The exceptions [pack_shapes] can raise.  The specification calls a
    missing parameter [InvalidParams], an unknown kind [UnknownShapeKind]
    and an empty first sheet [UnplaceableShape]. *)
Inductive exn : Type :=
| KeyError (key : string)
| ValueError
| RuntimeError
| ZeroDivisionError
| OverflowError.

Inductive outcome (A : Type) : Type :=
| Ok (a : A)
| Raise (e : exn)
| OutOfFuel.
Arguments Ok {A} a.
Arguments Raise {A} e.
Arguments OutOfFuel {A}.

(** ** The arithmetic interface *)

(** What the code asks of its numbers.  [of_int] is the implicit
    conversion of a Python [int] operand, [div] is [/] for a divisor
    already known not to be zero, [floordiv] is [//] under the same
    proviso, [gt] is [>], [to_int] is [int(x)]. *)
Class Num (F : Type) : Type := {
  of_int : Z → F;
  add : F → F → F;
  sub : F → F → F;
  mul : F → F → F;
  div : F → F → F;
  floordiv : F → F → F;
  gt : F → F → bool;
  is_zero : F → bool;
  math_sqrt : F → F;
  math_pi : F;
  to_int : F → outcome Z
}.

Declare Scope num_scope.
Delimit Scope num_scope with num.
Infix "+" := add : num_scope.
Infix "-" := sub : num_scope.
Infix "*" := mul : num_scope.
Infix "/" := div : num_scope.
Notation "# z" := (of_int z%Z) (at level 5, format "# z") : num_scope.

(** ** Objects: dictionaries in a heap *)

Definition loc := nat.

Section Packer.
Context {F : Type} `{NumF : Num F}.
Local Open Scope num_scope.

(** A heap is the list of the dictionaries allocated so far; a location
    is an index in it.  Nothing in the program updates a dictionary in
    place, so the only heap operations are reading and allocating. *)
Definition heap : Type := list (gmap string F).

(** Computations read and extend the heap and end in an outcome; the
    heap survives an exception, as Python objects do. *)
Definition M (A : Type) : Type := heap → heap * outcome A.

Definition ret {A} (a : A) : M A := λ h, (h, Ok a).
Definition raise {A} (e : exn) : M A := λ h, (h, Raise e).
Definition out_of_fuel {A} : M A := λ h, (h, OutOfFuel).
Definition bind {A B} (m : M A) (k : A → M B) : M B :=
  λ h, match m h with
       | (h', Ok a) => k a h'
       | (h', Raise e) => (h', Raise e)
       | (h', OutOfFuel) => (h', OutOfFuel)
       end.

(** [x ← m; k] is stdpp's notation for [mbind]. *)
#[global] Instance M_ret : MRet M := @ret.
#[global] Instance M_bind : MBind M := λ A B k m, bind m k.

(** [d[key]]: a missing key raises [KeyError].  (A location outside the
    heap cannot be built by the program; reading one raises too.) *)
Definition getitem (d : loc) (key : string) : M F :=
  λ h, match h !! d with
       | Some m => match m !! key with
                   | Some v => (h, Ok v)
                   | None => (h, Raise (KeyError key))
                   end
       | None => (h, Raise (KeyError key))
       end.

(** A dictionary display [{...}]: a new object. *)
Definition new_dict (m : gmap string F) : M loc :=
  λ h, (h ++ [m], Ok (length h)).

(** [d.copy()]: a new object with the same items. *)
Definition dict_copy (d : loc) : M loc :=
  λ h, match h !! d with
       | Some m => (h ++ [m], Ok (length h))
       | None => (h, Raise (KeyError ""))
       end.

(** [x / y] with the check Python makes. *)
Definition truediv (x y : F) : M F :=
  if is_zero y then raise ZeroDivisionError else ret (x / y).

(** [int(x)]. *)
Definition int (x : F) : M Z :=
  λ h, (h, to_int x).

(** ** [pack_shapes] *)

(** One entry of a sheet: [{'type': .., 'params': .., 'x': .., 'y': ..}]. *)
Record PlacedShape : Type := {
  ps_type : string;
  ps_params : loc;
  ps_x : F;
  ps_y : F
}.

(** The local variables the first [if]/[elif] chain binds, by branch:
    the size read from [params] ([r], [L] or [a]; the rectangle keeps
    reading [params]) and the increments [dx], [dy]. *)
Inductive grid : Type :=
| Circle (r dx dy : F)
| Square (L dx dy : F)
| Rectangle (dx dy : F)
| Triangle (a dx dy : F)
| SemiCircle (r dx dy : F).

Definition grid_dx (g : grid) : F :=
  match g with
  | Circle _ dx _ | Square _ dx _ | Rectangle dx _
  | Triangle _ dx _ | SemiCircle _ dx _ => dx
  end.

Definition grid_dy (g : grid) : F :=
  match g with
  | Circle _ _ dy | Square _ _ dy | Rectangle _ dy
  | Triangle _ _ dy | SemiCircle _ _ dy => dy
  end.

(** "Determine grid increments per shape": returns the value of
    [params] after the chain (rebound by the rectangle branch when the
    second orientation wins) and the grid. *)
Definition grid_increments (shape_type : string) (params : loc)
    (sheet_w sheet_h clearance : F) : M (loc * grid) :=
  if String.eqb shape_type "circle" then
    r ← getitem params "r";
    let D_eff := #2 * r + clearance in
    let dx := D_eff in
    let dy := D_eff * math_sqrt #3 / #2 in
    ret (params, Circle r dx dy)
  else if String.eqb shape_type "square" then
    L ← getitem params "L";
    let D_eff := L + clearance in
    ret (params, Square L D_eff D_eff)
  else if String.eqb shape_type "rectangle" then
    l ← getitem params "l";
    w ← getitem params "w";
    let dx1 := l + clearance in
    let dy1 := w + clearance in
    let dx2 := w + clearance in
    let dy2 := l + clearance in
    q1 ← truediv sheet_h dy1; rows1 ← int q1;
    q2 ← truediv sheet_w dx1; cols1 ← int q2;
    q3 ← truediv sheet_h dy2; rows2 ← int q3;
    q4 ← truediv sheet_w dx2; cols2 ← int q4;
    if (rows1 * cols1 >=? rows2 * cols2)%Z then
      ret (params, Rectangle dx1 dy1)
    else
      params' ← new_dict {[ "l" := w; "w" := l ]};
      ret (params', Rectangle dx2 dy1)
  else if String.eqb shape_type "triangle" then
    a ← getitem params "a";
    let h := a * math_sqrt #3 / #2 in
    ret (params, Triangle a (a + clearance) (h + clearance))
  else if String.eqb shape_type "semi-circle" then
    r ← getitem params "r";
    ret (params, SemiCircle r (#2 * r + clearance) (r + clearance))
  else raise ValueError.

(** "Compute y coordinate for this row". *)
Definition row_y (g : grid) (params : loc) (row : Z) : M F :=
  match g with
  | Circle r _ dy => ret (r + #row * dy)
  | Square L _ dy => ret (L / #2 + #row * dy)
  | Rectangle _ dy => w ← getitem params "w"; ret (w / #2 + #row * dy)
  | Triangle a _ dy =>
      let h := a * math_sqrt #3 / #2 in ret (h / #3 + #row * dy)
  | SemiCircle r _ dy => ret (r + #row * dy)
  end.

(** The right-hand side of the row test [if y > ...: break]. *)
Definition row_bound (g : grid) (params : loc) (sheet_h : F) : M F :=
  match g with
  | Circle r _ _ => ret (sheet_h - r)
  | Square L _ _ => ret (sheet_h - L / #2)
  | Rectangle _ _ => w ← getitem params "w"; ret (sheet_h - w / #2)
  | Triangle a _ _ =>
      let h := a * math_sqrt #3 / #2 in ret (sheet_h - #2 * h / #3)
  | SemiCircle r _ _ => ret (sheet_h - r)
  end.

(** [x_offset]: odd circle rows are shifted by half a pitch. *)
Definition row_x_offset (g : grid) (row : Z) : F :=
  match g with
  | Circle _ dx _ => if (row mod 2 =? 0)%Z then #0 else dx / #2
  | _ => #0
  end.

(** "Compute x coordinate". *)
Definition col_x (g : grid) (params : loc) (x_offset : F) (col : Z) : M F :=
  match g with
  | Circle r dx _ => ret (x_offset + r + #col * dx)
  | Square L dx _ => ret (x_offset + L / #2 + #col * dx)
  | Rectangle dx _ => l ← getitem params "l"; ret (x_offset + l / #2 + #col * dx)
  | Triangle a dx _ => ret (x_offset + a / #2 + #col * dx)
  | SemiCircle r dx _ => ret (x_offset + r + #col * dx)
  end.

Definition col_bound (g : grid) (params : loc) (sheet_w : F) : M F :=
  match g with
  | Circle r _ _ => ret (sheet_w - r)
  | Square L _ _ => ret (sheet_w - L / #2)
  | Rectangle _ _ => l ← getitem params "l"; ret (sheet_w - l / #2)
  | Triangle a _ _ => ret (sheet_w - a / #2)
  | SemiCircle r _ _ => ret (sheet_w - r)
  end.

(** The variables the loops update. *)
Record state : Type := {
  placed : Z;
  sheet_positions : list PlacedShape
}.

(** The inner [while True] over [col]. *)
Fixpoint col_loop (fuel : nat) (shape_type : string) (g : grid) (params : loc)
    (num_shapes : Z) (sheet_w x_offset y : F) (col : Z) (st : state) : M state :=
  match fuel with
  | O => out_of_fuel
  | S fuel' =>
      x ← col_x g params x_offset col;
      bound ← col_bound g params sheet_w;
      if gt x bound then ret st
      else if (placed st <? num_shapes)%Z then
        copy ← dict_copy params;
        let shape := {| ps_type := shape_type; ps_params := copy;
                        ps_x := x; ps_y := y |} in
        col_loop fuel' shape_type g params num_shapes sheet_w x_offset y (col + 1)
          {| placed := placed st + 1;
             sheet_positions := sheet_positions st ++ [shape] |}
      else ret st
  end.

(** The [while True] over [row]; [fuel0] is the fuel of each inner loop. *)
Fixpoint row_loop (fuel fuel0 : nat) (shape_type : string) (g : grid) (params : loc)
    (num_shapes : Z) (sheet_w sheet_h : F) (row : Z) (st : state) : M state :=
  match fuel with
  | O => out_of_fuel
  | S fuel' =>
      y ← row_y g params row;
      ybound ← row_bound g params sheet_h;
      if gt y ybound then ret st
      else
        let x_offset := row_x_offset g row in
        st' ← col_loop fuel0 shape_type g params num_shapes sheet_w x_offset y 0 st;
        if (placed st' >=? num_shapes)%Z then ret st'
        else row_loop fuel' fuel0 shape_type g params num_shapes sheet_w sheet_h
               (row + 1) st'
  end.

(** "Pack shapes sheet by sheet": [while placed < num_shapes]. *)
Fixpoint sheet_loop (fuel fuel0 : nat) (shape_type : string) (g : grid) (params : loc)
    (num_shapes : Z) (sheet_w sheet_h : F) (placed0 : Z)
    (sheets : list (list PlacedShape)) : M (list (list PlacedShape)) :=
  if (placed0 <? num_shapes)%Z then
    match fuel with
    | O => out_of_fuel
    | S fuel' =>
        st ← row_loop fuel0 fuel0 shape_type g params num_shapes sheet_w sheet_h 0
               {| placed := placed0; sheet_positions := [] |};
        match sheet_positions st with
        | [] => raise RuntimeError
        | _ :: _ =>
            let sheets' := sheets ++ [sheet_positions st] in
            if (placed st >=? num_shapes)%Z then ret sheets'
            else sheet_loop fuel' fuel0 shape_type g params num_shapes
                   sheet_w sheet_h (placed st) sheets'
        end
    end
  else ret sheets.

Definition pack_shapes (fuel : nat) (shape_type : string) (params : loc)
    (num_shapes : Z) (sheet_w sheet_h clearance : F)
    : M (list (list PlacedShape)) :=
  pg ← grid_increments shape_type params sheet_w sheet_h clearance;
  sheet_loop fuel fuel shape_type pg.2 pg.1 num_shapes sheet_w sheet_h 0 [].

(** ** Areas *)

Definition calculate_shape_area (shape_type : string) (params : loc) : M F :=
  if String.eqb shape_type "circle" then
    r ← getitem params "r"; ret (math_pi * r * r)
  else if String.eqb shape_type "square" then
    L ← getitem params "L"; ret (L * L)
  else if String.eqb shape_type "rectangle" then
    l ← getitem params "l"; w ← getitem params "w"; ret (l * w)
  else if String.eqb shape_type "triangle" then
    a ← getitem params "a";
    let h := a * math_sqrt #3 / #2 in
    ret (a * h / #2)
  else if String.eqb shape_type "semi-circle" then
    r ← getitem params "r"; ret (math_pi * r * r / #2)
  else raise ValueError.

Definition calculate_unused_area (shape_type : string) (shape_params : loc)
    (sheet_w sheet_h : F) (count : Z) : M F :=
  let sheet_area := sheet_w * sheet_h in
  shape_area ← calculate_shape_area shape_type shape_params;
  let total_shape_area := shape_area * #count in
  ret (sheet_area - total_shape_area).

(** The "theoretical upper bound based on area" of the main script:
    [area_bound = int(sheet_area // shape_area)]. *)
Definition area_bound (shape_type : string) (shape_params : loc)
    (sheet_w sheet_h : F) : M Z :=
  let sheet_area := sheet_w * sheet_h in
  shape_area ← calculate_shape_area shape_type shape_params;
  if is_zero shape_area then raise ZeroDivisionError
  else int (floordiv sheet_area shape_area).

End Packer.

Arguments heap F : clear implicits.
Arguments M F A : clear implicits.
Arguments PlacedShape F : clear implicits.
Arguments grid F : clear implicits.
Arguments state F : clear implicits.

(** ** Python's [float]: binary64 *)

(** The conversion of an [int] to [float], rounded to nearest even.
    (Python raises [OverflowError] beyond the largest float, where this
    conversion gives infinity; the counters of the loops never get
    there.) *)
Definition float_of_int (z : Z) : float :=
  SF2Prim (binary_normalize prec emax z 0 false).

(** [int(x)] truncates toward zero; infinities and NaN raise. *)
Definition float_to_int (x : float) : outcome Z :=
  match Prim2SF x with
  | S754_zero _ => Ok 0%Z
  | S754_finite s m e =>
      let v := if (0 <=? e)%Z then (Z.pos m * 2 ^ e)%Z
               else (Z.pos m / 2 ^ (- e))%Z in
      Ok (if s then (- v)%Z else v)
  | S754_infinity _ => Raise OverflowError
  | S754_nan => Raise ValueError
  end.

(** [x // y] for a divisor that is not zero: the floor of the exact
    quotient, as a float.  (CPython goes through [fmod] and snaps the
    quotient to the nearest integer, which is this value as long as the
    quotient is below 2^51.) *)
Definition float_floordiv (x y : float) : float :=
  match Prim2SF x, Prim2SF y with
  | S754_finite sx mx ex, S754_finite sy my ey =>
      let e := Z.min ex ey in
      let X := (Z.pos mx * 2 ^ (ex - e))%Z in
      let Y := (Z.pos my * 2 ^ (ey - e))%Z in
      float_of_int ((if sx then - X else X) / (if sy then - Y else Y))
  | S754_zero _, S754_finite _ _ _ | S754_zero _, S754_infinity _ => 0%float
  | S754_finite sx _ _, S754_infinity sy =>
      if Bool.eqb sx sy then 0%float else (-1)%float
  | _, _ => nan
  end.

#[global] Instance float_Num : Num float := {
  of_int := float_of_int;
  add := PrimFloat.add;
  sub := PrimFloat.sub;
  mul := PrimFloat.mul;
  div := PrimFloat.div;
  floordiv := float_floordiv;
  gt x y := PrimFloat.ltb y x;
  is_zero x := PrimFloat.eqb x 0%float;
  math_sqrt := PrimFloat.sqrt;
  math_pi := 0x1.921fb54442d18p+1%float;
  to_int := float_to_int
}.

(** A heap holding one dictionary, at location 0. *)
Definition heap_of {F} (d : gmap string F) : heap F := [d].

(** * Properties that hold for every arithmetic *)

Section Monad.
Context {F : Type} `{NumF : Num F}.

Lemma bind_unfold {A B} (m : M F A) (k : A → M F B) h :
  (m ≫= k) h = match m h with
               | (h', Ok a) => k a h'
               | (h', Raise e) => (h', Raise e)
               | (h', OutOfFuel) => (h', OutOfFuel)
               end.
Proof. reflexivity. Qed.

Lemma bind_run {A B} (m : M F A) (k : A → M F B) h h1 a :
  m h = (h1, Ok a) → (m ≫= k) h = k a h1.
Proof. intros Hm. rewrite bind_unfold, Hm. reflexivity. Qed.

Lemma bind_raise {A B} (m : M F A) (k : A → M F B) h h1 e :
  m h = (h1, Raise e) → (m ≫= k) h = (h1, Raise e).
Proof. intros Hm. rewrite bind_unfold, Hm. reflexivity. Qed.

Lemma bind_Ok_inv {A B} (m : M F A) (k : A → M F B) h h' b :
  (m ≫= k) h = (h', Ok b) →
  ∃ h1 a, m h = (h1, Ok a) ∧ k a h1 = (h', Ok b).
Proof.
  rewrite bind_unfold. destruct (m h) as [h1 [a|e|]]; intros Hk.
  - exists h1, a. split; [reflexivity | exact Hk].
  - discriminate.
  - discriminate.
Qed.

(** ** Computations only add objects to the heap *)

Definition extends {A} (m : M F A) : Prop :=
  ∀ h, h `prefix_of` (m h).1.

Lemma extends_ret {A} (a : A) : extends (ret a).
Proof. intros h. reflexivity. Qed.

Lemma extends_mret {A} (a : A) : extends (mret a : M F A).
Proof. intros h. reflexivity. Qed.

Lemma extends_raise {A} e : extends (raise e : M F A).
Proof. intros h. reflexivity. Qed.

Lemma extends_out_of_fuel {A} : extends (out_of_fuel : M F A).
Proof. intros h. reflexivity. Qed.

Lemma extends_getitem p key : extends (getitem p key).
Proof.
  intros h. unfold getitem. repeat case_match; reflexivity.
Qed.

Lemma extends_new_dict m : extends (new_dict m).
Proof. intros h. apply prefix_app_r. reflexivity. Qed.

Lemma extends_dict_copy p : extends (dict_copy p).
Proof.
  intros h. unfold dict_copy. case_match; simpl.
  - apply prefix_app_r. reflexivity.
  - reflexivity.
Qed.

Lemma extends_truediv x y : extends (truediv x y).
Proof. unfold truediv. destruct (is_zero y); intros h; reflexivity. Qed.

Lemma extends_int x : extends (int x).
Proof. intros h. reflexivity. Qed.

Lemma extends_bind {A B} (m : M F A) (k : A → M F B) :
  extends m → (∀ a, extends (k a)) → extends (m ≫= k).
Proof.
  intros Hm Hk h. rewrite bind_unfold.
  specialize (Hm h). destruct (m h) as [h1 [a|e|]]; simpl in *; try exact Hm.
  etrans; [exact Hm | apply Hk].
Qed.

(** ** More fuel never changes a result *)

(** [m ⊑ m']: whatever [m] computes without running out of fuel, [m']
    computes too. *)
Definition refines {A} (m m' : M F A) : Prop :=
  ∀ h h' out, m h = (h', out) → out ≠ OutOfFuel → m' h = (h', out).

Lemma refines_refl {A} (m : M F A) : refines m m.
Proof. intros h h' out Hm _. exact Hm. Qed.

Lemma refines_out_of_fuel {A} (m : M F A) : refines out_of_fuel m.
Proof. intros h h' out Hm Hne. inversion Hm; subst. congruence. Qed.

Lemma refines_bind {A B} (m m' : M F A) (k k' : A → M F B) :
  refines m m' → (∀ a, refines (k a) (k' a)) →
  refines (m ≫= k) (m' ≫= k').
Proof.
  intros Hm Hk h h' out Hrun Hne. rewrite bind_unfold in Hrun.
  rewrite bind_unfold.
  destruct (m h) as [h1 [a|e|]] eqn:Em.
  - rewrite (Hm _ _ _ Em) by discriminate. apply Hk; assumption.
  - rewrite (Hm _ _ _ Em) by discriminate. exact Hrun.
  - inversion Hrun; subst. congruence.
Qed.

End Monad.

Create HintDb extends.
#[global] Hint Resolve extends_ret extends_mret extends_raise extends_out_of_fuel
  extends_getitem extends_new_dict extends_dict_copy extends_truediv
  extends_int : extends.

(** ** The grid, as plain functions of the row and column *)

Section Geometry.
Context {F : Type} `{NumF : Num F}.
Local Open Scope num_scope.

(** The distance the code keeps between a centre and the left and right
    edges of the sheet; [l] is the length stored in [params], read by
    the rectangle only. *)
Definition half_extent_x (g : grid F) (l : F) : F :=
  match g with
  | Circle r _ _ => r
  | Square L _ _ => L / #2
  | Rectangle _ _ => l / #2
  | Triangle a _ _ => a / #2
  | SemiCircle r _ _ => r
  end.

(** The centre of row 0; [w] is the width stored in [params]. *)
Definition first_row_offset (g : grid F) (w : F) : F :=
  match g with
  | Circle r _ _ => r
  | Square L _ _ => L / #2
  | Rectangle _ _ => w / #2
  | Triangle a _ _ => a * math_sqrt #3 / #2 / #3
  | SemiCircle r _ _ => r
  end.

(** The distance kept between a centre and the far edge in y. *)
Definition trailing_extent (g : grid F) (w : F) : F :=
  match g with
  | Circle r _ _ => r
  | Square L _ _ => L / #2
  | Rectangle _ _ => w / #2
  | Triangle a _ _ => #2 * (a * math_sqrt #3 / #2) / #3
  | SemiCircle r _ _ => r
  end.

Definition y_at (g : grid F) (w : F) (row : Z) : F :=
  first_row_offset g w + #row * grid_dy g.

Definition x_at (g : grid F) (l x_offset : F) (col : Z) : F :=
  x_offset + half_extent_x g l + #col * grid_dx g.

(** The two bounds checks of the loops. *)
Definition row_fits (g : grid F) (w sheet_h : F) (row : Z) : bool :=
  negb (gt (y_at g w row) (sheet_h - trailing_extent g w)).

Definition col_fits (g : grid F) (l sheet_w : F) (row col : Z) : bool :=
  negb (gt (x_at g l (row_x_offset g row) col) (sheet_w - half_extent_x g l)).

(** [d] is the dictionary the loops read: for a rectangle it holds the
    length [l] and the width [w]. *)
Definition resolved (g : grid F) (d : gmap string F) (l w : F) : Prop :=
  match g with
  | Rectangle _ _ => d !! "l" = Some l ∧ d !! "w" = Some w
  | _ => True
  end.

Section Reads.
Variables (g : grid F) (params : loc) (d : gmap string F) (l w : F).
Hypothesis Hres : resolved g d l w.

Lemma getitem_run (h : heap F) key v :
  h !! params = Some d → d !! key = Some v →
  getitem params key h = (h, Ok v).
Proof. intros Hd Hk. unfold getitem. rewrite Hd, Hk. reflexivity. Qed.

Lemma row_y_run (h : heap F) row :
  h !! params = Some d → row_y g params row h = (h, Ok (y_at g w row)).
Proof.
  intros Hd. destruct g; try reflexivity.
  destruct Hres as [_ Hw]. unfold row_y.
  rewrite (bind_run _ _ _ _ _ (getitem_run h "w" w Hd Hw)). reflexivity.
Qed.

Lemma row_bound_run (h : heap F) sheet_h :
  h !! params = Some d →
  row_bound g params sheet_h h = (h, Ok (sheet_h - trailing_extent g w)).
Proof.
  intros Hd. destruct g; try reflexivity.
  destruct Hres as [_ Hw]. unfold row_bound.
  rewrite (bind_run _ _ _ _ _ (getitem_run h "w" w Hd Hw)). reflexivity.
Qed.

Lemma col_x_run (h : heap F) x_offset col :
  h !! params = Some d →
  col_x g params x_offset col h = (h, Ok (x_at g l x_offset col)).
Proof.
  intros Hd. destruct g; try reflexivity.
  destruct Hres as [Hl _]. unfold col_x.
  rewrite (bind_run _ _ _ _ _ (getitem_run h "l" l Hd Hl)). reflexivity.
Qed.

Lemma col_bound_run (h : heap F) sheet_w :
  h !! params = Some d →
  col_bound g params sheet_w h = (h, Ok (sheet_w - half_extent_x g l)).
Proof.
  intros Hd. destruct g; try reflexivity.
  destruct Hres as [Hl _]. unfold col_bound.
  rewrite (bind_run _ _ _ _ _ (getitem_run h "l" l Hd Hl)). reflexivity.
Qed.

Lemma dict_copy_run (h : heap F) :
  h !! params = Some d → dict_copy params h = (h ++ [d], Ok (length h)).
Proof. intros Hd. unfold dict_copy. rewrite Hd. reflexivity. Qed.

End Reads.
End Geometry.

(** ** The three loops *)

Section Loops.
Context {F : Type} `{NumF : Num F}.
Local Open Scope num_scope.

Variables (shape_type : string) (g : grid F) (params : loc) (num_shapes : Z).
Variables (sheet_w sheet_h : F).
Variables (d : gmap string F) (l w : F).
Hypothesis Hres : resolved g d l w.

(** One turn of each loop, with the reads from [params] resolved. *)
Lemma col_loop_step fuel x_offset y col st (h : heap F) :
  h !! params = Some d →
  col_loop (S fuel) shape_type g params num_shapes sheet_w x_offset y col st h =
  if gt (x_at g l x_offset col) (sheet_w - half_extent_x g l) then (h, Ok st)
  else if (placed st <? num_shapes)%Z then
    col_loop fuel shape_type g params num_shapes sheet_w x_offset y (col + 1)
      {| placed := placed st + 1;
         sheet_positions := sheet_positions st ++
           [{| ps_type := shape_type; ps_params := length h;
               ps_x := x_at g l x_offset col; ps_y := y |}] |} (h ++ [d])
  else (h, Ok st).
Proof.
  intros Hd. cbn [col_loop].
  rewrite (bind_run _ _ _ _ _ (col_x_run g params d l w Hres h x_offset col Hd)).
  rewrite (bind_run _ _ _ _ _ (col_bound_run g params d l w Hres h sheet_w Hd)).
  destruct (gt _ _); [reflexivity|].
  destruct (placed st <? num_shapes)%Z; [|reflexivity].
  rewrite (bind_run _ _ _ _ _ (dict_copy_run params d h Hd)). reflexivity.
Qed.

Lemma row_loop_step fuel fuel0 row st (h : heap F) :
  h !! params = Some d →
  row_loop (S fuel) fuel0 shape_type g params num_shapes sheet_w sheet_h row st h =
  if gt (y_at g w row) (sheet_h - trailing_extent g w) then (h, Ok st)
  else
    match col_loop fuel0 shape_type g params num_shapes sheet_w
            (row_x_offset g row) (y_at g w row) 0 st h with
    | (h', Ok st') =>
        if (placed st' >=? num_shapes)%Z then (h', Ok st')
        else row_loop fuel fuel0 shape_type g params num_shapes sheet_w sheet_h
               (row + 1) st' h'
    | (h', Raise e) => (h', Raise e)
    | (h', OutOfFuel) => (h', OutOfFuel)
    end.
Proof.
  intros Hd. cbn [row_loop].
  rewrite (bind_run _ _ _ _ _ (row_y_run g params d l w Hres h row Hd)).
  rewrite (bind_run _ _ _ _ _ (row_bound_run g params d l w Hres h sheet_h Hd)).
  destruct (gt _ _); [reflexivity|].
  rewrite bind_unfold.
  destruct (col_loop _ _ _ _ _ _ _ _ _ _ _) as [h' [st'|e|]]; try reflexivity.
  destruct (placed st' >=? num_shapes)%Z; reflexivity.
Qed.

(** What a loop adds: [k] copies of [d] at the end of the heap, one per
    new shape, in order; every new shape satisfies [P]. *)
Definition added (P : PlacedShape F → Prop) (h h' : heap F)
    (new : list (PlacedShape F)) : Prop :=
  h' = h ++ replicate (length new) d ∧
  ps_params <$> new = seq (length h) (length new) ∧
  Forall P new.

Lemma added_nil P h : added P h h [].
Proof.
  split; [|split]; [| reflexivity | constructor].
  simpl. rewrite app_nil_r. reflexivity.
Qed.

Ltac nothing_added :=
  exists []; split; [by rewrite app_nil_r|]; split; [simpl; lia|];
  split; [lia | apply added_nil].

Lemma added_app P h h1 h2 new1 new2 :
  added P h h1 new1 → added P h1 h2 new2 → added P h h2 (new1 ++ new2).
Proof.
  intros (-> & Hp1 & HP1) (-> & Hp2 & HP2). split; [|split].
  - rewrite length_app, replicate_add, app_assoc. reflexivity.
  - rewrite fmap_app, Hp1, Hp2, length_app, length_replicate, length_app.
    symmetry. apply seq_app.
  - apply Forall_app; split; assumption.
Qed.

Lemma added_impl (P Q : PlacedShape F → Prop) h h' new :
  (∀ ps, P ps → Q ps) → added P h h' new → added Q h h' new.
Proof.
  intros HPQ (Hh & Hp & HP). split; [|split]; try assumption.
  eapply Forall_impl; eassumption.
Qed.

Lemma added_lookup P h h' new p :
  added P h h' new → h !! p = Some d → h' !! p = Some d.
Proof. intros (-> & _) Hp. apply lookup_app_l_Some, Hp. Qed.

(** A shape placed in the row at height [y], shifted by [x_offset]. *)
Definition in_row (x_offset y : F) (col0 : Z) (ps : PlacedShape F) : Prop :=
  ps_type ps = shape_type ∧ ps_y ps = y ∧
  ∃ col, (col0 ≤ col)%Z ∧ ps_x ps = x_at g l x_offset col ∧
         gt (ps_x ps) (sheet_w - half_extent_x g l) = false.

(** A shape placed at a position of the grid that passes both checks. *)
Definition on_grid (row0 : Z) (ps : PlacedShape F) : Prop :=
  ps_type ps = shape_type ∧
  ∃ row col, (row0 ≤ row)%Z ∧ (0 ≤ col)%Z ∧
    ps_y ps = y_at g w row ∧
    ps_x ps = x_at g l (row_x_offset g row) col ∧
    row_fits g w sheet_h row = true ∧
    col_fits g l sheet_w row col = true.

Lemma col_loop_ok fuel x_offset y : ∀ col st (h h' : heap F) st',
  h !! params = Some d →
  col_loop fuel shape_type g params num_shapes sheet_w x_offset y col st h
    = (h', Ok st') →
  ∃ new,
    sheet_positions st' = sheet_positions st ++ new ∧
    placed st' = (placed st + Z.of_nat (length new))%Z ∧
    (placed st' ≤ Z.max (placed st) num_shapes)%Z ∧
    added (in_row x_offset y col) h h' new.
Proof.
  induction fuel as [|fuel IH]; intros col st h h' st' Hd Hrun.
  - discriminate.
  - rewrite col_loop_step in Hrun by exact Hd.
    destruct (gt _ _) eqn:Hgt.
    { inversion Hrun; subst. nothing_added. }
    destruct (placed st <? num_shapes)%Z eqn:Hlt.
    2:{ inversion Hrun; subst. nothing_added. }
    apply Z.ltb_lt in Hlt.
    apply IH in Hrun as (new & Hpos & Hpl & Hle & Hadd);
      [| apply lookup_app_l_Some, Hd].
    cbn [placed sheet_positions] in *.
    eexists (_ :: new). split; [|split; [|split]].
    + rewrite Hpos, <- app_assoc. reflexivity.
    + rewrite Hpl. cbn [length]. lia.
    + lia.
    + change (?x :: new) with ([x] ++ new).
      eapply added_app; [| eapply added_impl; [|exact Hadd]].
      * split; [|split]; [reflexivity | reflexivity |].
        constructor; [|constructor]. split; [reflexivity|].
        split; [reflexivity|]. exists col. cbn. split; [lia|]. split; [reflexivity|].
        exact Hgt.
      * intros ps (Ht & Hy & c & Hc & Hx & Hb). split; [exact Ht|].
        split; [exact Hy|]. exists c. split; [lia|]. split; assumption.
Qed.

Lemma in_row_on_grid row ps :
  (0 ≤ row)%Z → row_fits g w sheet_h row = true →
  in_row (row_x_offset g row) (y_at g w row) 0 ps → on_grid row ps.
Proof.
  intros Hrow Hfit (Ht & Hy & col & Hcol & Hx & Hb). split; [exact Ht|].
  exists row, col. repeat split; try assumption; try lia.
  unfold col_fits. rewrite <- Hx, Hb. reflexivity.
Qed.

Lemma on_grid_weaken row row' ps :
  (row' ≤ row)%Z → on_grid row ps → on_grid row' ps.
Proof.
  intros Hle (Ht & r & c & Hr & Hrest). split; [exact Ht|].
  exists r, c. split; [lia | exact Hrest].
Qed.

Lemma row_loop_ok fuel fuel0 : ∀ row st (h h' : heap F) st',
  h !! params = Some d → (0 ≤ row)%Z →
  row_loop fuel fuel0 shape_type g params num_shapes sheet_w sheet_h row st h
    = (h', Ok st') →
  ∃ new,
    sheet_positions st' = sheet_positions st ++ new ∧
    placed st' = (placed st + Z.of_nat (length new))%Z ∧
    (placed st' ≤ Z.max (placed st) num_shapes)%Z ∧
    added (on_grid row) h h' new.
Proof.
  induction fuel as [|fuel IH]; intros row st h h' st' Hd Hrow Hrun.
  - discriminate.
  - rewrite row_loop_step in Hrun by exact Hd.
    destruct (gt _ _) eqn:Hgt.
    { inversion Hrun; subst. nothing_added. }
    destruct (col_loop _ _ _ _ _ _ _ _ _ _ _) as [h1 [st1|e|]] eqn:Hcol;
      try discriminate.
    apply col_loop_ok in Hcol as (new1 & Hpos1 & Hpl1 & Hle1 & Hadd1);
      [|exact Hd].
    assert (Hadd1' : added (on_grid row) h h1 new1).
    { eapply added_impl; [|exact Hadd1]. intros ps. apply in_row_on_grid.
      - exact Hrow.
      - unfold row_fits. rewrite Hgt. reflexivity. }
    destruct (placed st1 >=? num_shapes)%Z.
    { inversion Hrun; subst. exists new1. repeat split; try assumption;
        apply Hadd1'. }
    apply IH in Hrun as (new2 & Hpos2 & Hpl2 & Hle2 & Hadd2);
      [| eapply added_lookup; eassumption | lia].
    exists (new1 ++ new2). split; [|split; [|split]].
    + rewrite Hpos2, Hpos1, app_assoc. reflexivity.
    + rewrite Hpl2, Hpl1, length_app. lia.
    + lia.
    + eapply added_app; [exact Hadd1'|].
      eapply added_impl; [|exact Hadd2]. intros ps. apply on_grid_weaken. lia.
Qed.

Lemma sheet_loop_step fuel fuel0 placed0 sheets (h : heap F) :
  sheet_loop (S fuel) fuel0 shape_type g params num_shapes sheet_w sheet_h
    placed0 sheets h =
  if (placed0 <? num_shapes)%Z then
    match row_loop fuel0 fuel0 shape_type g params num_shapes sheet_w sheet_h 0
            {| placed := placed0; sheet_positions := [] |} h with
    | (h', Ok st) =>
        match sheet_positions st with
        | [] => (h', Raise RuntimeError)
        | _ :: _ =>
            if (placed st >=? num_shapes)%Z
            then (h', Ok (sheets ++ [sheet_positions st]))
            else sheet_loop fuel fuel0 shape_type g params num_shapes
                   sheet_w sheet_h (placed st) (sheets ++ [sheet_positions st]) h'
        end
    | (h', Raise e) => (h', Raise e)
    | (h', OutOfFuel) => (h', OutOfFuel)
    end
  else (h, Ok sheets).
Proof.
  cbn [sheet_loop]. destruct (placed0 <? num_shapes)%Z; [|reflexivity].
  rewrite bind_unfold.
  destruct (row_loop _ _ _ _ _ _ _ _ _ _ _) as [h' [st|e|]]; try reflexivity.
  destruct (sheet_positions st); [reflexivity|].
  destruct (placed st >=? num_shapes)%Z; reflexivity.
Qed.

Lemma sheet_loop_done fuel fuel0 placed0 sheets (h : heap F) :
  (num_shapes ≤ placed0)%Z →
  sheet_loop fuel fuel0 shape_type g params num_shapes sheet_w sheet_h
    placed0 sheets h = (h, Ok sheets).
Proof.
  intros Hle. destruct fuel; cbn [sheet_loop];
    (destruct (placed0 <? num_shapes)%Z eqn:Hlt;
      [apply Z.ltb_lt in Hlt; lia | reflexivity]).
Qed.

Lemma sheet_loop_ok fuel fuel0 : ∀ placed0 sheets (h h' : heap F) sheets',
  h !! params = Some d →
  sheet_loop fuel fuel0 shape_type g params num_shapes sheet_w sheet_h
    placed0 sheets h = (h', Ok sheets') →
  ∃ news,
    sheets' = sheets ++ news ∧
    Forall (λ sheet, sheet ≠ []) news ∧
    Z.max placed0 num_shapes = (placed0 + Z.of_nat (length (concat news)))%Z ∧
    added (on_grid 0) h h' (concat news).
Proof.
  induction fuel as [|fuel IH]; intros placed0 sheets h h' sheets' Hd Hrun.
  - cbn [sheet_loop] in Hrun.
    destruct (placed0 <? num_shapes)%Z eqn:Hlt; [discriminate|].
    apply Z.ltb_ge in Hlt. inversion Hrun; subst. exists [].
    split; [by rewrite app_nil_r|]. split; [constructor|].
    split; [simpl; lia | apply added_nil].
  - rewrite sheet_loop_step in Hrun.
    destruct (placed0 <? num_shapes)%Z eqn:Hlt.
    2:{ apply Z.ltb_ge in Hlt. inversion Hrun; subst. exists [].
        split; [by rewrite app_nil_r|]. split; [constructor|].
        split; [simpl; lia | apply added_nil]. }
    apply Z.ltb_lt in Hlt.
    destruct (row_loop _ _ _ _ _ _ _ _ _ _ _) as [h1 [st|e|]] eqn:Hrow;
      try discriminate.
    apply row_loop_ok in Hrow as (new & Hpos & Hpl & Hle & Hadd);
      [| exact Hd | lia].
    cbn [placed sheet_positions app] in *.
    destruct (sheet_positions st) as [|ps rest] eqn:Hsp; [discriminate|].
    subst new.
    destruct (placed st >=? num_shapes)%Z eqn:Hge.
    + apply Z.geb_le in Hge. inversion Hrun; subst. exists [ps :: rest].
      cbn [concat]. rewrite app_nil_r.
      split; [reflexivity|]. split; [constructor; [discriminate | constructor]|].
      split; [lia | exact Hadd].
    + rewrite Z.geb_leb in Hge. apply Z.leb_gt in Hge.
      apply IH in Hrun as (news & Hs & Hne & Hcount & Hadd2);
        [| eapply added_lookup; eassumption].
      exists ((ps :: rest) :: news). split; [|split; [|split]].
      * rewrite Hs, <- app_assoc. reflexivity.
      * constructor; [discriminate | exact Hne].
      * cbn [concat]. rewrite length_app. lia.
      * cbn [concat]. eapply added_app; eassumption.
Qed.

(** *** Termination, given the fuel the loops need *)

Lemma col_loop_total fuel x_offset y : ∀ col st (h : heap F),
  h !! params = Some d →
  (Z.to_nat (num_shapes - placed st) < fuel)%nat →
  ∃ h' st',
    col_loop fuel shape_type g params num_shapes sheet_w x_offset y col st h
      = (h', Ok st').
Proof.
  induction fuel as [|fuel IH]; intros col st h Hd Hfuel; [lia|].
  rewrite col_loop_step by exact Hd.
  destruct (gt _ _); [eauto|].
  destruct (placed st <? num_shapes)%Z eqn:Hlt; [|eauto].
  apply Z.ltb_lt in Hlt. apply IH.
  - apply lookup_app_l_Some, Hd.
  - cbn [placed]. lia.
Qed.

(** The row loop stops at the latest at a row [K] that fails the row
    check. *)
Lemma row_loop_total K fuel fuel0 : ∀ row st (h : heap F),
  h !! params = Some d →
  (0 ≤ row ≤ K)%Z → row_fits g w sheet_h K = false →
  (Z.to_nat (K - row) < fuel)%nat →
  (Z.to_nat (num_shapes - placed st) < fuel0)%nat →
  ∃ h' st',
    row_loop fuel fuel0 shape_type g params num_shapes sheet_w sheet_h row st h
      = (h', Ok st').
Proof.
  induction fuel as [|fuel IH]; intros row st h Hd Hrow HK Hfuel Hfuel0; [lia|].
  rewrite row_loop_step by exact Hd.
  destruct (gt _ _) eqn:Hgt; [eauto|].
  assert (row ≠ K) as Hne.
  { intros ->. unfold row_fits in HK. rewrite Hgt in HK. discriminate. }
  destruct (col_loop_total fuel0 (row_x_offset g row) (y_at g w row) 0 st h Hd Hfuel0)
    as (h1 & st1 & Hcol).
  rewrite Hcol.
  apply col_loop_ok in Hcol as (new & _ & Hpl & _ & Hadd); [|exact Hd].
  destruct (placed st1 >=? num_shapes)%Z; [eauto|].
  apply IH; [eapply added_lookup; eassumption | lia | exact HK | lia | lia].
Qed.

(** When the first position of the grid passes both checks and shapes
    remain to be placed, a sheet receives at least one. *)
Lemma row_loop_first fuel fuel0 st (h h' : heap F) st' :
  h !! params = Some d →
  row_fits g w sheet_h 0 = true → col_fits g l sheet_w 0 0 = true →
  (placed st < num_shapes)%Z →
  row_loop fuel fuel0 shape_type g params num_shapes sheet_w sheet_h 0 st h
    = (h', Ok st') →
  ∃ ps rest, sheet_positions st' = sheet_positions st ++ ps :: rest.
Proof.
  intros Hd Hrow Hcol Hlt Hrun.
  destruct fuel as [|fuel]; [discriminate|].
  rewrite row_loop_step in Hrun by exact Hd.
  unfold row_fits in Hrow. apply negb_true_iff in Hrow. rewrite Hrow in Hrun.
  destruct (col_loop _ _ _ _ _ _ _ _ _ _ _) as [h1 [st1|e|]] eqn:Hc;
    try discriminate.
  destruct fuel0 as [|fuel0]; [discriminate|].
  rewrite col_loop_step in Hc by exact Hd.
  unfold col_fits in Hcol. apply negb_true_iff in Hcol. rewrite Hcol in Hc.
  apply Z.ltb_lt in Hlt. rewrite Hlt in Hc.
  apply col_loop_ok in Hc as (new1 & Hpos1 & _ & _ & Hadd1);
    [| apply lookup_app_l_Some, Hd].
  cbn [sheet_positions] in Hpos1. rewrite <- app_assoc in Hpos1.
  destruct (placed st1 >=? num_shapes)%Z.
  - inversion Hrun; subst. eauto.
  - apply row_loop_ok in Hrun as (new2 & Hpos2 & _); [| | lia].
    + rewrite Hpos2, Hpos1, <- app_assoc. cbn [app]. eauto.
    + eapply added_lookup; [exact Hadd1|]. apply lookup_app_l_Some, Hd.
Qed.

(** No position of the grid passes both checks. *)
Definition grid_empty : Prop :=
  ∀ row col, (0 ≤ row)%Z → (0 ≤ col)%Z →
    row_fits g w sheet_h row && col_fits g l sheet_w row col = false.

Lemma on_grid_empty row0 ps : grid_empty → (0 ≤ row0)%Z → ¬ on_grid row0 ps.
Proof.
  intros Hemp Hrow0 (_ & row & col & Hrow & Hcol & _ & _ & Hr & Hc).
  specialize (Hemp row col ltac:(lia) Hcol). rewrite Hr, Hc in Hemp.
  discriminate.
Qed.

Lemma sheet_loop_unplaceable K fuel fuel0 placed0 sheets (h : heap F) :
  h !! params = Some d → grid_empty →
  (0 ≤ K)%Z → row_fits g w sheet_h K = false →
  (Z.to_nat K < fuel0)%nat → (Z.to_nat (num_shapes - placed0) < fuel0)%nat →
  (placed0 < num_shapes)%Z → (0 < fuel)%nat →
  sheet_loop fuel fuel0 shape_type g params num_shapes sheet_w sheet_h
    placed0 sheets h = (h, Raise RuntimeError).
Proof.
  intros Hd Hemp HK0 HK Hf0 Hf0' Hlt Hfuel.
  destruct fuel as [|fuel]; [lia|]. rewrite sheet_loop_step.
  apply Z.ltb_lt in Hlt. rewrite Hlt.
  destruct (row_loop_total K fuel0 fuel0 0
              {| placed := placed0; sheet_positions := [] |} h Hd)
    as (h1 & st & Hrow); [lia | exact HK | lia | exact Hf0' |].
  rewrite Hrow.
  apply row_loop_ok in Hrow as (new & Hpos & _ & _ & Hh & _ & Hall);
    [| exact Hd | lia].
  destruct new as [|ps new].
  - rewrite Hpos. cbn. simpl in Hh. rewrite app_nil_r in Hh. subst. reflexivity.
  - apply Forall_cons_1 in Hall as [Hps _].
    exfalso. eapply on_grid_empty; [exact Hemp | | exact Hps]. lia.
Qed.

Lemma sheet_loop_total K fuel fuel0 : ∀ placed0 sheets (h : heap F),
  h !! params = Some d →
  row_fits g w sheet_h 0 = true → col_fits g l sheet_w 0 0 = true →
  (0 ≤ K)%Z → row_fits g w sheet_h K = false →
  (Z.to_nat K < fuel0)%nat → (Z.to_nat (num_shapes - placed0) < fuel0)%nat →
  (Z.to_nat (num_shapes - placed0) ≤ fuel)%nat →
  ∃ h' sheets',
    sheet_loop fuel fuel0 shape_type g params num_shapes sheet_w sheet_h
      placed0 sheets h = (h', Ok sheets').
Proof.
  induction fuel as [|fuel IH];
    intros placed0 sheets h Hd Hr0 Hc0 HK0 HK Hf0 Hf0' Hfuel.
  - rewrite sheet_loop_done by lia. eauto.
  - rewrite sheet_loop_step.
    destruct (placed0 <? num_shapes)%Z eqn:Hlt; [|eauto].
    apply Z.ltb_lt in Hlt.
    destruct (row_loop_total K fuel0 fuel0 0
                {| placed := placed0; sheet_positions := [] |} h Hd)
      as (h1 & st & Hrow); [lia | exact HK | lia | exact Hf0' |].
    rewrite Hrow.
    destruct (row_loop_first fuel0 fuel0
                {| placed := placed0; sheet_positions := [] |} h h1 st
                Hd Hr0 Hc0 Hlt Hrow) as (ps & rest & Hpos).
    apply row_loop_ok in Hrow as (new & Hpos' & Hpl & _ & Hadd);
      [| exact Hd | lia].
    cbn [placed sheet_positions app] in *. rewrite Hpos.
    assert (placed0 < placed st)%Z.
    { rewrite Hpos in Hpos'. subst new. rewrite Hpl. cbn [length]. lia. }
    destruct (placed st >=? num_shapes)%Z; [eauto|].
    apply IH; try assumption; try lia.
    eapply added_lookup; eassumption.
Qed.

(** The last shape a column loop places passes the column check at its
    own column. *)
Lemma col_loop_last fuel x_offset y : ∀ col st (h h' : heap F) st',
  h !! params = Some d →
  col_loop fuel shape_type g params num_shapes sheet_w x_offset y col st h
    = (h', Ok st') →
  placed st' = placed st ∨
  ((placed st < placed st')%Z ∧
   gt (x_at g l x_offset (col + (placed st' - placed st) - 1))
      (sheet_w - half_extent_x g l) = false).
Proof.
  induction fuel as [|fuel IH]; intros col st h h' st' Hd Hrun; [discriminate|].
  rewrite col_loop_step in Hrun by exact Hd.
  destruct (gt _ _) eqn:Hgt; [inversion Hrun; auto|].
  destruct (placed st <? num_shapes)%Z; [|inversion Hrun; auto].
  apply IH in Hrun as [Heq | [Hlt Hlast]]; [| | apply lookup_app_l_Some, Hd];
    cbn [placed] in *; right.
  - split; [lia|]. rewrite Heq.
    replace (col + (placed st + 1 - placed st) - 1)%Z with col by lia.
    exact Hgt.
  - split; [lia|].
    replace (col + (placed st' - placed st) - 1)%Z
      with (col + 1 + (placed st' - (placed st + 1)) - 1)%Z by lia.
    exact Hlast.
Qed.

(** Every sheet of a result is what one run of the row loop, started at
    row 0 on an empty sheet, returned. *)
Definition sheet_of_row_loop (fuel0 : nat) (sheet : list (PlacedShape F)) : Prop :=
  ∃ placed0 (ha hb : heap F) st',
    ha !! params = Some d ∧
    row_loop fuel0 fuel0 shape_type g params num_shapes sheet_w sheet_h 0
      {| placed := placed0; sheet_positions := [] |} ha = (hb, Ok st') ∧
    sheet = sheet_positions st' ∧
    Z.of_nat (length sheet) = (placed st' - placed0)%Z.

Lemma sheet_loop_sheets fuel fuel0 : ∀ placed0 sheets (h h' : heap F) sheets',
  h !! params = Some d →
  sheet_loop fuel fuel0 shape_type g params num_shapes sheet_w sheet_h
    placed0 sheets h = (h', Ok sheets') →
  ∃ news, sheets' = sheets ++ news ∧ Forall (sheet_of_row_loop fuel0) news.
Proof.
  induction fuel as [|fuel IH]; intros placed0 sheets h h' sheets' Hd Hrun.
  - cbn [sheet_loop] in Hrun.
    destruct (placed0 <? num_shapes)%Z; [discriminate|].
    inversion Hrun; subst. exists []. split; [by rewrite app_nil_r | constructor].
  - rewrite sheet_loop_step in Hrun.
    destruct (placed0 <? num_shapes)%Z.
    2:{ inversion Hrun; subst. exists [].
        split; [by rewrite app_nil_r | constructor]. }
    destruct (row_loop _ _ _ _ _ _ _ _ _ _ _) as [h1 [st|e|]] eqn:Hrow;
      try discriminate.
    assert (sheet_of_row_loop fuel0 (sheet_positions st)) as Hsheet.
    { exists placed0, h, h1, st. split; [exact Hd|]. split; [exact Hrow|].
      split; [reflexivity|].
      apply row_loop_ok in Hrow as (new & Hpos & Hpl & _); [| exact Hd | lia].
      cbn [placed sheet_positions app] in *. rewrite Hpos, Hpl. lia. }
    pose proof Hrow as Hrow'.
    apply row_loop_ok in Hrow' as (new & _ & _ & _ & Hadd); [| exact Hd | lia].
    destruct (sheet_positions st) as [|ps rest] eqn:Hsp; [discriminate|].
    destruct (placed st >=? num_shapes)%Z.
    + inversion Hrun; subst. exists [ps :: rest].
      split; [reflexivity | constructor; [exact Hsheet | constructor]].
    + apply IH in Hrun as (news & Hs & Hall);
        [| eapply added_lookup; eassumption].
      exists ((ps :: rest) :: news). split.
      * rewrite Hs, <- app_assoc. reflexivity.
      * constructor; assumption.
Qed.

Lemma length_concat_nonempty {A} (ls : list (list A)) :
  Forall (λ s, s ≠ []) ls → (length ls ≤ length (concat ls))%nat.
Proof.
  induction 1 as [|s ls Hs _ IH]; [reflexivity|].
  cbn [concat length]. rewrite length_app.
  destruct s; [congruence|]. cbn [length]. lia.
Qed.

End Loops.

(** ** The whole function *)

Section Whole.
Context {F : Type} `{NumF : Num F}.
Local Open Scope num_scope.

Ltac extends_tac :=
  repeat first
    [ progress auto with extends
    | apply extends_bind; [|intros ?]
    | match goal with |- extends (if ?b then _ else _) => destruct b end
    | match goal with |- extends (match ?g with Circle _ _ _ => _ | _ => _ end) =>
        destruct g end ].

Lemma extends_grid_increments shape_type params (sheet_w sheet_h clearance : F) :
  extends (grid_increments shape_type params sheet_w sheet_h clearance).
Proof. unfold grid_increments. extends_tac. Qed.

Lemma extends_col_loop shape_type (g : grid F) params num_shapes sheet_w x_offset y fuel :
  ∀ col st,
    extends (col_loop fuel shape_type g params num_shapes sheet_w x_offset y col st).
Proof.
  induction fuel as [|fuel IH]; intros col st; cbn [col_loop].
  - extends_tac.
  - unfold col_x, col_bound. extends_tac.
Qed.

Lemma extends_row_loop shape_type (g : grid F) params num_shapes sheet_w sheet_h fuel0 fuel :
  ∀ row st,
    extends (row_loop fuel fuel0 shape_type g params num_shapes sheet_w sheet_h row st).
Proof.
  induction fuel as [|fuel IH]; intros row st; cbn [row_loop].
  - extends_tac.
  - unfold row_y, row_bound.
    extends_tac; apply extends_col_loop.
Qed.

Lemma extends_sheet_loop shape_type (g : grid F) params num_shapes sheet_w sheet_h fuel0 fuel :
  ∀ placed0 sheets,
    extends (sheet_loop fuel fuel0 shape_type g params num_shapes sheet_w sheet_h
               placed0 sheets).
Proof.
  induction fuel as [|fuel IH]; intros placed0 sheets; cbn [sheet_loop].
  - extends_tac.
  - destruct (placed0 <? num_shapes)%Z; [|extends_tac].
    apply extends_bind; [apply extends_row_loop|]. intros st.
    destruct (sheet_positions st); extends_tac.
Qed.

Lemma extends_pack_shapes fuel shape_type params num_shapes (sheet_w sheet_h clearance : F) :
  extends (pack_shapes fuel shape_type params num_shapes sheet_w sheet_h clearance).
Proof.
  unfold pack_shapes. apply extends_bind.
  - apply extends_grid_increments.
  - intros pg. apply extends_sheet_loop.
Qed.

(** *** Fuel *)

Ltac refines_tac :=
  repeat first
    [ apply refines_refl
    | apply refines_bind; [|intros ?]
    | match goal with |- refines (if ?b then _ else _) _ => destruct b end ].

Lemma col_loop_mono shape_type (g : grid F) params num_shapes sheet_w x_offset y :
  ∀ fuel fuel' col st, (fuel ≤ fuel')%nat →
    refines (col_loop fuel shape_type g params num_shapes sheet_w x_offset y col st)
            (col_loop fuel' shape_type g params num_shapes sheet_w x_offset y col st).
Proof.
  induction fuel as [|fuel IH]; intros fuel' col st Hle.
  - apply refines_out_of_fuel.
  - destruct fuel' as [|fuel']; [lia|]. cbn [col_loop].
    refines_tac. apply IH. lia.
Qed.

Lemma row_loop_mono shape_type (g : grid F) params num_shapes sheet_w sheet_h :
  ∀ fuel fuel' fuel0 fuel0' row st, (fuel ≤ fuel')%nat → (fuel0 ≤ fuel0')%nat →
    refines (row_loop fuel fuel0 shape_type g params num_shapes sheet_w sheet_h row st)
            (row_loop fuel' fuel0' shape_type g params num_shapes sheet_w sheet_h row st).
Proof.
  induction fuel as [|fuel IH]; intros fuel' fuel0 fuel0' row st Hle Hle0.
  - apply refines_out_of_fuel.
  - destruct fuel' as [|fuel']; [lia|]. cbn [row_loop].
    apply refines_bind; [apply refines_refl|]. intros y.
    apply refines_bind; [apply refines_refl|]. intros ybound.
    destruct (gt y ybound); [apply refines_refl|].
    apply refines_bind; [apply col_loop_mono; exact Hle0|]. intros st'.
    destruct (placed st' >=? num_shapes)%Z; [apply refines_refl|].
    apply IH; [lia | exact Hle0].
Qed.

Lemma sheet_loop_mono shape_type (g : grid F) params num_shapes sheet_w sheet_h :
  ∀ fuel fuel' fuel0 fuel0' placed0 sheets, (fuel ≤ fuel')%nat → (fuel0 ≤ fuel0')%nat →
    refines (sheet_loop fuel fuel0 shape_type g params num_shapes sheet_w sheet_h
               placed0 sheets)
            (sheet_loop fuel' fuel0' shape_type g params num_shapes sheet_w sheet_h
               placed0 sheets).
Proof.
  induction fuel as [|fuel IH]; intros fuel' fuel0 fuel0' placed0 sheets Hle Hle0.
  - cbn [sheet_loop]. destruct (placed0 <? num_shapes)%Z eqn:Hlt.
    + apply refines_out_of_fuel.
    + apply Z.ltb_ge in Hlt. intros h h' out Hrun _.
      rewrite sheet_loop_done by exact Hlt. exact Hrun.
  - destruct fuel' as [|fuel']; [lia|]. cbn [sheet_loop].
    destruct (placed0 <? num_shapes)%Z; [|apply refines_refl].
    apply refines_bind; [apply row_loop_mono; exact Hle0|]. intros st.
    destruct (sheet_positions st); [apply refines_refl|].
    destruct (placed st >=? num_shapes)%Z; [apply refines_refl|].
    apply IH; [lia | exact Hle0].
Qed.

Lemma pack_shapes_mono fuel fuel' shape_type params num_shapes
    (sheet_w sheet_h clearance : F) :
  (fuel ≤ fuel')%nat →
  refines (pack_shapes fuel shape_type params num_shapes sheet_w sheet_h clearance)
          (pack_shapes fuel' shape_type params num_shapes sheet_w sheet_h clearance).
Proof.
  intros Hle. unfold pack_shapes.
  apply refines_bind; [apply refines_refl|]. intros pg.
  apply sheet_loop_mono; exact Hle.
Qed.

End Whole.

(** ** What the first [if]/[elif] chain returns *)

Section Increments.
Context {F : Type} `{NumF : Num F}.
Local Open Scope num_scope.

(** The parameters each branch reads. *)
Definition required_keys (shape_type : string) : option (list string) :=
  if String.eqb shape_type "circle" then Some ["r"]
  else if String.eqb shape_type "square" then Some ["L"]
  else if String.eqb shape_type "rectangle" then Some ["l"; "w"]
  else if String.eqb shape_type "triangle" then Some ["a"]
  else if String.eqb shape_type "semi-circle" then Some ["r"]
  else None.

(** The grid belongs to the kind, and its size is the one stored in the
    dictionary [d]. *)
Definition grid_agrees (shape_type : string) (g : grid F)
    (d : gmap string F) (l w : F) : Prop :=
  match g with
  | Circle r _ _ => shape_type = "circle" ∧ d !! "r" = Some r
  | Square L _ _ => shape_type = "square" ∧ d !! "L" = Some L
  | Rectangle _ _ =>
      shape_type = "rectangle" ∧ d !! "l" = Some l ∧ d !! "w" = Some w
  | Triangle a _ _ => shape_type = "triangle" ∧ d !! "a" = Some a
  | SemiCircle r _ _ => shape_type = "semi-circle" ∧ d !! "r" = Some r
  end.

Lemma grid_agrees_resolved shape_type g d l w :
  grid_agrees shape_type g d l w → resolved g d l w.
Proof. destruct g; cbn; tauto. Qed.

Lemma getitem_Ok_inv p key (h h1 : heap F) v :
  getitem p key h = (h1, Ok v) →
  h1 = h ∧ ∃ d, h !! p = Some d ∧ d !! key = Some v.
Proof.
  unfold getitem. destruct (h !! p) as [d|] eqn:Hp; [|discriminate].
  destruct (d !! key) as [v'|] eqn:Hk; [|discriminate].
  intros [= <- <-]. eauto.
Qed.

Lemma truediv_Ok_inv x y (h h1 : heap F) q :
  truediv x y h = (h1, Ok q) → h1 = h ∧ is_zero y = false ∧ q = (x / y).
Proof.
  unfold truediv. destruct (is_zero y); [discriminate|].
  intros [= <- <-]. auto.
Qed.

Lemma int_Ok_inv x (h h1 : heap F) z :
  int x h = (h1, Ok z) → h1 = h ∧ to_int x = Ok z.
Proof. unfold int. intros [= <- ->]. auto. Qed.

(** The rectangle branch: both orientations are estimated; the first is
    kept unless the second is strictly better, in which case [params] is
    rebound to a new dictionary with [l] and [w] exchanged, [dx] becomes
    [w + clearance] and [dy] stays [w + clearance]. *)
Lemma grid_increments_rectangle params sheet_w sheet_h clearance
    (h h1 : heap F) p' g :
  grid_increments "rectangle" params sheet_w sheet_h clearance h
    = (h1, Ok (p', g)) →
  ∃ d l w rows1 cols1 rows2 cols2,
    h !! params = Some d ∧ d !! "l" = Some l ∧ d !! "w" = Some w ∧
    is_zero (w + clearance) = false ∧ is_zero (l + clearance) = false ∧
    to_int (sheet_h / (w + clearance)) = Ok rows1 ∧
    to_int (sheet_w / (l + clearance)) = Ok cols1 ∧
    to_int (sheet_h / (l + clearance)) = Ok rows2 ∧
    to_int (sheet_w / (w + clearance)) = Ok cols2 ∧
    if (rows1 * cols1 >=? rows2 * cols2)%Z then
      h1 = h ∧ p' = params ∧ g = Rectangle (l + clearance) (w + clearance)
    else
      h1 = h ++ [{[ "l" := w; "w" := l ]}] ∧ p' = length h ∧
      g = Rectangle (w + clearance) (w + clearance).
Proof.
  unfold grid_increments. cbn [String.eqb Ascii.eqb Bool.eqb].
  intros Hrun.
  apply bind_Ok_inv in Hrun as (h2 & l & Hl & Hrun).
  apply getitem_Ok_inv in Hl as (-> & d & Hd & Hl).
  apply bind_Ok_inv in Hrun as (h2 & w & Hw & Hrun).
  apply getitem_Ok_inv in Hw as (-> & d' & Hd' & Hw).
  rewrite Hd in Hd'. injection Hd' as <-.
  apply bind_Ok_inv in Hrun as (h2 & q1 & Hq1 & Hrun).
  apply truediv_Ok_inv in Hq1 as (-> & Hz1 & ->).
  apply bind_Ok_inv in Hrun as (h2 & rows1 & Hr1 & Hrun).
  apply int_Ok_inv in Hr1 as (-> & Hr1).
  apply bind_Ok_inv in Hrun as (h2 & q2 & Hq2 & Hrun).
  apply truediv_Ok_inv in Hq2 as (-> & Hz2 & ->).
  apply bind_Ok_inv in Hrun as (h2 & cols1 & Hc1 & Hrun).
  apply int_Ok_inv in Hc1 as (-> & Hc1).
  apply bind_Ok_inv in Hrun as (h2 & q3 & Hq3 & Hrun).
  apply truediv_Ok_inv in Hq3 as (-> & _ & ->).
  apply bind_Ok_inv in Hrun as (h2 & rows2 & Hr2 & Hrun).
  apply int_Ok_inv in Hr2 as (-> & Hr2).
  apply bind_Ok_inv in Hrun as (h2 & q4 & Hq4 & Hrun).
  apply truediv_Ok_inv in Hq4 as (-> & _ & ->).
  apply bind_Ok_inv in Hrun as (h2 & cols2 & Hc2 & Hrun).
  apply int_Ok_inv in Hc2 as (-> & Hc2).
  exists d, l, w, rows1, cols1, rows2, cols2.
  do 9 (split; [assumption|]).
  destruct (rows1 * cols1 >=? rows2 * cols2)%Z.
  - injection Hrun as <- <- <-. auto.
  - apply bind_Ok_inv in Hrun as (h2 & p2 & Hnew & Hrun).
    injection Hnew as <- <-. injection Hrun as <- <- <-. auto.
Qed.

(** [params] after the chain is the caller's dictionary, or the new one
    of the rectangle branch. *)
Definition rebound (h h1 : heap F) (params p' : loc)
    (d0 d : gmap string F) (l w : F) : Prop :=
  (h1 = h ∧ p' = params ∧ d = d0) ∨
  (d0 !! "l" = Some w ∧ d0 !! "w" = Some l ∧ d = {[ "l" := l; "w" := w ]} ∧
   h1 = h ++ [d] ∧ p' = length h).

Ltac same_params :=
  split; [assumption|]; split; [assumption|]; split; [cbn; auto|];
  left; auto.

Lemma grid_increments_ok shape_type params sheet_w sheet_h clearance
    (h h1 : heap F) p' g :
  grid_increments shape_type params sheet_w sheet_h clearance h
    = (h1, Ok (p', g)) →
  ∃ d0 d l w,
    h !! params = Some d0 ∧ h1 !! p' = Some d ∧
    grid_agrees shape_type g d l w ∧ rebound h h1 params p' d0 d l w.
Proof.
  intros Hrun. unfold grid_increments in Hrun.
  destruct (String.eqb shape_type "circle") eqn:E1.
  { apply String.eqb_eq in E1 as ->.
    apply bind_Ok_inv in Hrun as (h2 & r & Hr & Hrun).
    apply getitem_Ok_inv in Hr as (-> & d & Hd & Hr).
    injection Hrun as <- <- <-. exists d, d, r, r. same_params. }
  destruct (String.eqb shape_type "square") eqn:E2.
  { apply String.eqb_eq in E2 as ->.
    apply bind_Ok_inv in Hrun as (h2 & r & Hr & Hrun).
    apply getitem_Ok_inv in Hr as (-> & d & Hd & Hr).
    injection Hrun as <- <- <-. exists d, d, r, r. same_params. }
  destruct (String.eqb shape_type "rectangle") eqn:E3.
  { apply String.eqb_eq in E3 as ->.
    apply (grid_increments_rectangle params sheet_w sheet_h clearance h h1 p' g)
      in Hrun as (d & l & w & r1 & c1 & r2 & c2 & Hd & Hl & Hw & _ & _
                  & _ & _ & _ & _ & Hcase).
    destruct (r1 * c1 >=? r2 * c2)%Z.
    - destruct Hcase as (-> & -> & ->). exists d, d, l, w. same_params.
    - destruct Hcase as (-> & -> & ->).
      exists d, {[ "l" := w; "w" := l ]}, w, l. split; [exact Hd|]. split.
      + apply list_lookup_middle. reflexivity.
      + split; [cbn; split; [reflexivity|]; split; reflexivity|].
        right. auto 6. }
  destruct (String.eqb shape_type "triangle") eqn:E4.
  { apply String.eqb_eq in E4 as ->.
    apply bind_Ok_inv in Hrun as (h2 & r & Hr & Hrun).
    apply getitem_Ok_inv in Hr as (-> & d & Hd & Hr).
    injection Hrun as <- <- <-. exists d, d, r, r. same_params. }
  destruct (String.eqb shape_type "semi-circle") eqn:E5.
  { apply String.eqb_eq in E5 as ->.
    apply bind_Ok_inv in Hrun as (h2 & r & Hr & Hrun).
    apply getitem_Ok_inv in Hr as (-> & d & Hd & Hr).
    injection Hrun as <- <- <-. exists d, d, r, r. same_params. }
  discriminate.
Qed.

(** Everything a successful call returns. *)
Lemma pack_shapes_ok fuel shape_type params num_shapes sheet_w sheet_h clearance
    (h h' : heap F) sheets :
  pack_shapes fuel shape_type params num_shapes sheet_w sheet_h clearance h
    = (h', Ok sheets) →
  ∃ h1 p' g d0 d l w,
    grid_increments shape_type params sheet_w sheet_h clearance h
      = (h1, Ok (p', g)) ∧
    h !! params = Some d0 ∧ h1 !! p' = Some d ∧
    grid_agrees shape_type g d l w ∧ rebound h h1 params p' d0 d l w ∧
    Forall (λ sheet, sheet ≠ []) sheets ∧
    Z.max 0 num_shapes = Z.of_nat (length (concat sheets)) ∧
    added d (on_grid shape_type g sheet_w sheet_h l w 0) h1 h' (concat sheets).
Proof.
  unfold pack_shapes. intros Hrun.
  apply bind_Ok_inv in Hrun as (h1 & [p' g] & Hg & Hrun). cbn [fst snd] in Hrun.
  destruct (grid_increments_ok _ _ _ _ _ _ _ _ _ Hg)
    as (d0 & d & l & w & Hd0 & Hd & Hag & Hreb).
  destruct (sheet_loop_ok shape_type g p' num_shapes sheet_w sheet_h d l w
              (grid_agrees_resolved _ _ _ _ _ Hag) _ _ _ _ _ _ _ Hd Hrun)
    as (news & Hs & Hne & Hcount & Hadd).
  cbn [app] in Hs. subst news.
  exists h1, p', g, d0, d, l, w.
  split; [exact Hg|]. split; [exact Hd0|]. split; [exact Hd|].
  split; [exact Hag|]. split; [exact Hreb|].
  split; [exact Hne|]. split; [lia | exact Hadd].
Qed.

(** Where the copies stored in the new shapes live. *)
Lemma added_params (d : gmap string F) P (h h' : heap F) new ps :
  added d P h h' new → ps ∈ new →
  h' !! ps_params ps = Some d ∧ h !! ps_params ps = None ∧ P ps.
Proof.
  unfold heap in *. intros (-> & Hseq & HP) Hin.
  split; [|split]; [| | eapply Forall_forall; eassumption].
  all: apply list_elem_of_lookup in Hin as [i Hi];
    assert ((ps_params <$> new) !! i = Some (ps_params ps)) as Hp
      by (rewrite list_lookup_fmap, Hi; reflexivity);
    rewrite Hseq in Hp; apply lookup_seq in Hp as [-> Hlt].
  - rewrite lookup_app_r by lia.
    replace (length h + i - length h)%nat with i by lia.
    apply lookup_replicate_2. exact Hlt.
  - apply lookup_ge_None. lia.
Qed.

End Increments.

(** ** Two calls, wherever [params] lives *)

Section Simulation.
Context {F : Type} `{NumF : Num F}.
Local Open Scope num_scope.

(** A shape without the location of its dictionary. *)
Definition strip (ps : PlacedShape F) : string * F * F :=
  (ps_type ps, ps_x ps, ps_y ps).

(** A shape with the items of its dictionary. *)
Definition shape_view (h : heap F) (ps : PlacedShape F)
    : string * F * F * option (gmap string F) :=
  (strip ps, h !! ps_params ps).

(** What a caller can observe of a call: the exception, or the sheets
    with, for each shape, its kind, its centre and the items of its
    parameters. *)
Definition result_view (r : heap F * outcome (list (list (PlacedShape F))))
    : outcome (list (list (string * F * F * option (gmap string F)))) :=
  match r.2 with
  | Ok sheets => Ok (map (map (shape_view r.1)) sheets)
  | Raise e => Raise e
  | OutOfFuel => OutOfFuel
  end.

Definition same_outcome {A B} (R : A → B → Prop)
    (oa : outcome A) (ob : outcome B) : Prop :=
  match oa, ob with
  | Ok a, Ok b => R a b
  | Raise ea, Raise eb => ea = eb
  | OutOfFuel, OutOfFuel => True
  | _, _ => False
  end.

Definition same_state (sa sb : state F) : Prop :=
  placed sa = placed sb ∧
  map strip (sheet_positions sa) = map strip (sheet_positions sb).

Definition same_sheets (sa sb : list (list (PlacedShape F))) : Prop :=
  map (map strip) sa = map (map strip) sb.

Lemma getitem_dict p key (h : heap F) d :
  h !! p = Some d →
  getitem p key h =
    (h, match d !! key with Some v => Ok v | None => Raise (KeyError key) end).
Proof.
  intros Hd. unfold getitem. rewrite Hd. destruct (d !! key); reflexivity.
Qed.

Section SameGrid.
Variables (shape_type : string) (g : grid F) (pa pb : loc) (num_shapes : Z).
Variables (sheet_w sheet_h : F).
Variables (d : gmap string F) (l w : F).
Hypothesis Hres : resolved g d l w.

Lemma col_loop_sim fuel x_offset y : ∀ col sa sb (ha hb : heap F),
  ha !! pa = Some d → hb !! pb = Some d → same_state sa sb →
  let ra := col_loop fuel shape_type g pa num_shapes sheet_w x_offset y col sa ha in
  let rb := col_loop fuel shape_type g pb num_shapes sheet_w x_offset y col sb hb in
  ra.1 !! pa = Some d ∧ rb.1 !! pb = Some d ∧ same_outcome same_state ra.2 rb.2.
Proof.
  induction fuel as [|fuel IH]; intros col sa sb ha hb Ha Hb [Hpl Hsp].
  - cbn. auto.
  - cbn zeta.
    rewrite (col_loop_step _ _ pa _ _ _ _ _ Hres) by exact Ha.
    rewrite (col_loop_step _ _ pb _ _ _ _ _ Hres) by exact Hb.
    rewrite <- Hpl.
    destruct (gt _ _); [cbn; repeat split; assumption|].
    destruct (placed sa <? num_shapes)%Z; [|cbn; repeat split; assumption].
    apply IH; [apply lookup_app_l_Some, Ha | apply lookup_app_l_Some, Hb |].
    split; cbn [placed sheet_positions]; [lia|].
    rewrite !map_app, Hsp. reflexivity.
Qed.

Lemma row_loop_sim fuel fuel0 : ∀ row sa sb (ha hb : heap F),
  ha !! pa = Some d → hb !! pb = Some d → same_state sa sb →
  let ra := row_loop fuel fuel0 shape_type g pa num_shapes sheet_w sheet_h
              row sa ha in
  let rb := row_loop fuel fuel0 shape_type g pb num_shapes sheet_w sheet_h
              row sb hb in
  ra.1 !! pa = Some d ∧ rb.1 !! pb = Some d ∧ same_outcome same_state ra.2 rb.2.
Proof.
  induction fuel as [|fuel IH]; intros row sa sb ha hb Ha Hb Hst.
  - cbn. auto.
  - cbn zeta.
    rewrite (row_loop_step _ _ pa _ _ _ _ _ _ Hres) by exact Ha.
    rewrite (row_loop_step _ _ pb _ _ _ _ _ _ Hres) by exact Hb.
    destruct (gt _ _); [cbn; repeat split; (assumption || apply Hst)|].
    pose proof (col_loop_sim fuel0 (row_x_offset g row) (y_at g w row) 0
                  sa sb ha hb Ha Hb Hst) as Hcol.
    cbn zeta in Hcol.
    destruct (col_loop _ _ _ pa _ _ _ _ _ _ _) as [ha1 [sa1|ea|]];
      destruct (col_loop _ _ _ pb _ _ _ _ _ _ _) as [hb1 [sb1|eb|]];
      cbn [fst snd same_outcome] in Hcol; destruct Hcol as (Ha1 & Hb1 & Hout);
      try contradiction; try (cbn; auto; fail).
    destruct Hout as [Hpl1 Hsp1]. rewrite <- Hpl1.
    destruct (placed sa1 >=? num_shapes)%Z.
    + cbn. repeat split; assumption.
    + apply IH; [exact Ha1 | exact Hb1 | split; assumption].
Qed.

Lemma sheet_loop_sim fuel fuel0 : ∀ placed0 sa sb (ha hb : heap F),
  ha !! pa = Some d → hb !! pb = Some d → same_sheets sa sb →
  same_outcome same_sheets
    (sheet_loop fuel fuel0 shape_type g pa num_shapes sheet_w sheet_h
       placed0 sa ha).2
    (sheet_loop fuel fuel0 shape_type g pb num_shapes sheet_w sheet_h
       placed0 sb hb).2.
Proof.
  induction fuel as [|fuel IH]; intros placed0 sa sb ha hb Ha Hb Hss.
  - cbn [sheet_loop]. destruct (placed0 <? num_shapes)%Z; cbn; auto.
  - rewrite !sheet_loop_step.
    destruct (placed0 <? num_shapes)%Z; [|cbn; exact Hss].
    pose proof (row_loop_sim fuel0 fuel0 0
                  {| placed := placed0; sheet_positions := [] |}
                  {| placed := placed0; sheet_positions := [] |}
                  ha hb Ha Hb (conj eq_refl eq_refl)) as Hrow.
    cbn zeta in Hrow.
    destruct (row_loop _ _ _ _ pa _ _ _ _ _ _) as [ha1 [sa1|ea|]];
      destruct (row_loop _ _ _ _ pb _ _ _ _ _ _) as [hb1 [sb1|eb|]];
      cbn [fst snd same_outcome] in Hrow; destruct Hrow as (Ha1 & Hb1 & Hout);
      try contradiction; try (cbn; auto; fail).
    destruct Hout as [Hpl1 Hsp1]. rewrite <- Hpl1.
    destruct (sheet_positions sa1) as [|psa resta] eqn:Hspa;
      destruct (sheet_positions sb1) as [|psb restb] eqn:Hspb;
      try discriminate; [cbn; reflexivity|].
    assert (same_sheets (sa ++ [psa :: resta]) (sb ++ [psb :: restb])) as Hss'.
    { unfold same_sheets in *. rewrite !map_app, Hss.
      change (map (map strip) [psa :: resta]) with [map strip (psa :: resta)].
      change (map (map strip) [psb :: restb]) with [map strip (psb :: restb)].
      rewrite Hsp1. reflexivity. }
    destruct (placed sa1 >=? num_shapes)%Z; [cbn; exact Hss'|].
    apply IH; assumption.
Qed.

End SameGrid.

Lemma getitem_bind {B} p key (k : F → M F B) (h : heap F) d :
  h !! p = Some d →
  (getitem p key ≫= k) h =
    match d !! key with
    | Some v => k v h
    | None => (h, Raise (KeyError key))
    end.
Proof.
  intros Hd. rewrite bind_unfold, (getitem_dict p key h d Hd).
  destruct (d !! key); reflexivity.
Qed.

Lemma truediv_bind {B} x y (k : F → M F B) (h : heap F) :
  (truediv x y ≫= k) h =
    if is_zero y then (h, Raise ZeroDivisionError) else k (x / y) h.
Proof.
  rewrite bind_unfold. unfold truediv. destruct (is_zero y); reflexivity.
Qed.

Lemma int_bind {B} x (k : Z → M F B) (h : heap F) :
  (int x ≫= k) h =
    match to_int x with
    | Ok z => k z h
    | Raise e => (h, Raise e)
    | OutOfFuel => (h, OutOfFuel)
    end.
Proof. rewrite bind_unfold. unfold int. destruct (to_int x); reflexivity. Qed.

Lemma grid_increments_sim shape_type pa pb sheet_w sheet_h clearance
    (ha hb : heap F) d :
  ha !! pa = Some d → hb !! pb = Some d →
  same_outcome
    (λ x y, x.2 = y.2 ∧
            ((x.1 = pa ∧ y.1 = pb) ∨ (x.1 = length ha ∧ y.1 = length hb)))
    (grid_increments shape_type pa sheet_w sheet_h clearance ha).2
    (grid_increments shape_type pb sheet_w sheet_h clearance hb).2.
Proof.
  intros Ha Hb. unfold grid_increments.
  repeat match goal with
    | |- context [String.eqb shape_type ?s] => destruct (String.eqb shape_type s)
    end; try exact I;
    repeat first
      [ rewrite (getitem_bind pa _ _ ha d Ha), (getitem_bind pb _ _ hb d Hb);
        match goal with |- context [d !! ?k] => destruct (d !! k) end
      | rewrite !truediv_bind;
        match goal with |- context [is_zero ?x] => destruct (is_zero x) end
      | rewrite !int_bind;
        match goal with |- context [to_int ?x] => destruct (to_int x) end
      | match goal with
        | |- context [(?a >=? ?b)%Z] => destruct (a >=? b)%Z
        end ];
    rewrite ?bind_unfold; unfold new_dict, ret; cbn; auto.
Qed.

Lemma views_eq (ha hb : heap F) d (la lb : list (PlacedShape F)) :
  map strip la = map strip lb →
  Forall (λ ps, ha !! ps_params ps = Some d) la →
  Forall (λ ps, hb !! ps_params ps = Some d) lb →
  map (shape_view ha) la = map (shape_view hb) lb.
Proof.
  revert lb. induction la as [|a la IH]; intros [|b lb] Hs Ha Hb;
    try discriminate; [reflexivity|].
  injection Hs as Ht Hx Hy Hs.
  apply Forall_cons_1 in Ha as [Ha Hla]. apply Forall_cons_1 in Hb as [Hb Hlb].
  cbn [map]. f_equal; [|apply IH; assumption].
  unfold shape_view, strip. rewrite Ht, Hx, Hy, Ha, Hb. reflexivity.
Qed.

Lemma sheets_views_eq (ha hb : heap F) d (sa sb : list (list (PlacedShape F))) :
  same_sheets sa sb →
  Forall (λ ps, ha !! ps_params ps = Some d) (concat sa) →
  Forall (λ ps, hb !! ps_params ps = Some d) (concat sb) →
  map (map (shape_view ha)) sa = map (map (shape_view hb)) sb.
Proof.
  unfold same_sheets. revert sb.
  induction sa as [|a sa IH]; intros [|b sb] Hs Ha Hb;
    try discriminate; [reflexivity|].
  injection Hs as Hab Hs. cbn [concat] in Ha, Hb.
  apply Forall_app in Ha as [Ha Hsa]. apply Forall_app in Hb as [Hb Hsb].
  cbn [map]. f_equal; [eapply views_eq | apply IH]; eassumption.
Qed.

(** Two calls with the same arguments and the same fuel, on two heaps in
    which [params] holds the same items, are observed alike. *)
Lemma pack_shapes_sim fuel shape_type pa pb num_shapes sheet_w sheet_h clearance
    (ha hb : heap F) d :
  ha !! pa = Some d → hb !! pb = Some d →
  result_view (pack_shapes fuel shape_type pa num_shapes
                 sheet_w sheet_h clearance ha) =
  result_view (pack_shapes fuel shape_type pb num_shapes
                 sheet_w sheet_h clearance hb).
Proof.
  intros Ha Hb.
  pose proof (grid_increments_sim shape_type pa pb sheet_w sheet_h clearance
                ha hb d Ha Hb) as Hg.
  unfold result_view, pack_shapes. rewrite !bind_unfold.
  destruct (grid_increments shape_type pa _ _ _ ha) as [ha1 [[pa' ga]|ea|]] eqn:Ega;
    destruct (grid_increments shape_type pb _ _ _ hb) as [hb1 [[pb' gb]|eb|]] eqn:Egb;
    cbn [fst snd same_outcome] in Hg; try contradiction;
    [| cbn; congruence | reflexivity].
  destruct Hg as [<- Hloc].
  destruct (grid_increments_ok _ _ _ _ _ _ _ _ _ Ega)
    as (d0a & da & la & wa & Hd0a & Hda & Haga & Hreba).
  destruct (grid_increments_ok _ _ _ _ _ _ _ _ _ Egb)
    as (d0b & db & lb & wb & Hd0b & Hdb & Hagb & Hrebb).
  rewrite Ha in Hd0a. injection Hd0a as <-.
  rewrite Hb in Hd0b. injection Hd0b as <-.
  pose proof (lookup_lt_Some _ _ _ Ha) as Hlta.
  pose proof (lookup_lt_Some _ _ _ Hb) as Hltb.
  assert (da = db) as <-.
  { destruct Hloc as [[-> ->] | [-> ->]].
    - destruct Hreba as [(_ & _ & ->) | (_ & _ & _ & _ & Hp)]; [|lia].
      destruct Hrebb as [(_ & _ & ->) | (_ & _ & _ & _ & Hp)]; [|lia].
      reflexivity.
    - destruct Hreba as [(_ & Hp & _) | (Hla & Hwa & -> & _)]; [lia|].
      destruct Hrebb as [(_ & Hp & _) | (Hlb & Hwb & -> & _)]; [lia|].
      congruence. }
  pose proof (grid_agrees_resolved _ _ _ _ _ Haga) as Hres.
  pose proof (sheet_loop_sim shape_type ga pa' pb' num_shapes sheet_w sheet_h
                da la wa Hres fuel fuel 0%Z [] [] ha1 hb1 Hda Hdb eq_refl)
    as Hsim.
  cbn [fst snd].
  destruct (sheet_loop _ _ _ _ pa' _ _ _ _ _ ha1) as [ha' [sa|ea|]] eqn:Esa;
    destruct (sheet_loop _ _ _ _ pb' _ _ _ _ _ hb1) as [hb' [sb|eb|]] eqn:Esb;
    cbn [fst snd same_outcome] in Hsim |- *; try contradiction;
    [| congruence | reflexivity].
  destruct (sheet_loop_ok _ _ _ _ _ _ _ _ _ Hres _ _ _ _ _ _ _ Hda Esa)
    as (newsa & Hsa & _ & _ & Hadda).
  destruct (sheet_loop_ok _ _ _ _ _ _ _ _ _ Hres _ _ _ _ _ _ _ Hdb Esb)
    as (newsb & Hsb & _ & _ & Haddb).
  cbn [app] in Hsa, Hsb. subst newsa newsb.
  f_equal. apply (sheets_views_eq ha' hb' da); [exact Hsim | |];
    apply Forall_forall; intros ps Hin.
  - apply (added_params _ _ _ _ _ _ Hadda Hin).
  - apply (added_params _ _ _ _ _ _ Haddb Hin).
Qed.

End Simulation.

(** * Exact arithmetic: the real numbers *)

(** [int(x)] on a real number: truncation toward zero. *)
Definition R_to_int (x : R) : Z :=
  if Rle_dec 0 x then Int_part x else (- Int_part (- x))%Z.

#[global] Instance R_Num : Num R := {
  of_int := IZR;
  add := Rplus;
  sub := Rminus;
  mul := Rmult;
  div := Rdiv;
  floordiv x y := IZR (Int_part (x / y));
  gt x y := if Rgt_dec x y then true else false;
  is_zero x := if Req_dec_T x 0 then true else false;
  math_sqrt := sqrt;
  math_pi := PI;
  to_int x := Ok (R_to_int x)
}.

Section Reals.
Local Open Scope R_scope.

Lemma gt_true (x y : R) : gt x y = true ↔ x > y.
Proof. cbn. destruct (Rgt_dec x y); split; intros; (discriminate || lra || reflexivity). Qed.

Lemma gt_false (x y : R) : gt x y = false ↔ x <= y.
Proof. cbn. destruct (Rgt_dec x y); split; intros; (discriminate || lra || reflexivity). Qed.

Lemma is_zero_false (x : R) : x ≠ 0 → is_zero x = false.
Proof. intros Hx. cbn. destruct (Req_dec_T x 0); [contradiction | reflexivity]. Qed.

Lemma sqrt3_pos : 0 < sqrt 3.
Proof. apply sqrt_lt_R0. lra. Qed.

(** All the parameters the kind reads are present and strictly
    positive. *)
Definition positive_params (shape_type : string) (d : gmap string R) : Prop :=
  ∃ keys, required_keys shape_type = Some keys ∧
    ∀ key, key ∈ keys → ∃ v, d !! key = Some v ∧ 0 < v.

(** Pitches and extents are strictly positive. *)
Definition grid_positive (g : grid R) (l w : R) : Prop :=
  0 < grid_dx g ∧ 0 < grid_dy g ∧ 0 < half_extent_x g l ∧
  0 < first_row_offset g w ∧ 0 < trailing_extent g w.

Lemma grid_increments_positive shape_type params sheet_w sheet_h clearance
    (h : heap R) d :
  h !! params = Some d → positive_params shape_type d → 0 <= clearance →
  ∃ h1 p' g d' l w,
    grid_increments shape_type params sheet_w sheet_h clearance h
      = (h1, Ok (p', g)) ∧
    h1 !! p' = Some d' ∧ grid_agrees shape_type g d' l w ∧
    grid_positive g l w.
Proof.
  intros Hd (keys & Hkeys & Hpos) Hc.
  unfold required_keys in Hkeys. unfold grid_increments.
  pose proof sqrt3_pos as Hs.
  destruct (String.eqb shape_type "circle") eqn:E1.
  { apply String.eqb_eq in E1 as ->. injection Hkeys as <-.
    destruct (Hpos "r") as (r & Hr & Hr0); [set_solver|].
    rewrite (bind_run _ _ _ _ _ (getitem_run params d h "r" r Hd Hr)).
    eexists h, params, _, d, r, r. split; [reflexivity|].
    split; [exact Hd|]. split; [cbn; auto|].
    unfold grid_positive. cbn.
    assert (0 < 2 * r + clearance) by lra.
    repeat split; try lra.
    apply Rdiv_lt_0_compat; [apply Rmult_lt_0_compat|]; lra. }
  destruct (String.eqb shape_type "square") eqn:E2.
  { apply String.eqb_eq in E2 as ->. injection Hkeys as <-.
    destruct (Hpos "L") as (L & HL & HL0); [set_solver|].
    rewrite (bind_run _ _ _ _ _ (getitem_run params d h "L" L Hd HL)).
    eexists h, params, _, d, L, L. split; [reflexivity|].
    split; [exact Hd|]. split; [cbn; auto|].
    unfold grid_positive. cbn. repeat split; lra. }
  destruct (String.eqb shape_type "rectangle") eqn:E3.
  { apply String.eqb_eq in E3 as ->. injection Hkeys as <-.
    destruct (Hpos "l") as (l & Hl & Hl0); [set_solver|].
    destruct (Hpos "w") as (w & Hw & Hw0); [set_solver|].
    rewrite (bind_run _ _ _ _ _ (getitem_run params d h "l" l Hd Hl)).
    rewrite (bind_run _ _ _ _ _ (getitem_run params d h "w" w Hd Hw)).
    unfold truediv.
    rewrite !is_zero_false by (cbn; lra).
    unfold mbind, M_bind, bind, ret, int. cbn [to_int R_Num]. cbn beta iota.
    match goal with |- context [if ?b then _ else _] => destruct b end.
    - eexists h, params, _, d, l, w. split; [reflexivity|].
      split; [exact Hd|]. split; [cbn; auto|].
      unfold grid_positive. cbn. repeat split; lra.
    - eexists _, _, _, {[ "l" := w; "w" := l ]}, w, l.
      split; [reflexivity|].
      split; [apply list_lookup_middle; reflexivity|].
      split; [cbn; auto|].
      unfold grid_positive. cbn. repeat split; lra. }
  destruct (String.eqb shape_type "triangle") eqn:E4.
  { apply String.eqb_eq in E4 as ->. injection Hkeys as <-.
    destruct (Hpos "a") as (a & Ha & Ha0); [set_solver|].
    rewrite (bind_run _ _ _ _ _ (getitem_run params d h "a" a Hd Ha)).
    eexists h, params, _, d, a, a. split; [reflexivity|].
    split; [exact Hd|]. split; [cbn; auto|].
    unfold grid_positive. cbn.
    assert (0 < a * sqrt 3 / 2)
      by (apply Rdiv_lt_0_compat; [apply Rmult_lt_0_compat|]; lra).
    repeat split; lra. }
  destruct (String.eqb shape_type "semi-circle") eqn:E5.
  { apply String.eqb_eq in E5 as ->. injection Hkeys as <-.
    destruct (Hpos "r") as (r & Hr & Hr0); [set_solver|].
    rewrite (bind_run _ _ _ _ _ (getitem_run params d h "r" r Hd Hr)).
    eexists h, params, _, d, r, r. split; [reflexivity|].
    split; [exact Hd|]. split; [cbn; auto|].
    unfold grid_positive. cbn. repeat split; lra. }
  discriminate.
Qed.

Lemma row_x_offset_first (g : grid R) : row_x_offset g 0 = 0.
Proof. destruct g; reflexivity. Qed.

Lemma row_x_offset_nonneg (g : grid R) l w row :
  grid_positive g l w → 0 <= row_x_offset g row.
Proof.
  intros (Hdx & _). destruct g; cbn in *; try lra.
  destruct (row mod 2 =? 0)%Z; lra.
Qed.

Lemma IZR_nonneg z : (0 ≤ z)%Z → 0 <= IZR z.
Proof. intros Hz. apply (IZR_le 0 z Hz). Qed.

(** Some row fails the row check: the row loop is bounded. *)
Lemma stopping_row (g : grid R) l w sheet_h :
  grid_positive g l w → ∃ K, (0 ≤ K)%Z ∧ row_fits g w sheet_h K = false.
Proof.
  intros (_ & Hdy & _ & Hoff & Htr).
  exists (Z.max 0 (up (sheet_h / grid_dy g))). split; [lia|].
  unfold row_fits. apply negb_false_iff, gt_true.
  unfold y_at. cbn [add mul sub of_int R_Num].
  destruct (archimed (sheet_h / grid_dy g)) as [Hup _].
  assert (IZR (up (sheet_h / grid_dy g)) <= IZR (Z.max 0 (up (sheet_h / grid_dy g))))
    as Hle by (apply IZR_le; lia).
  assert (sheet_h < IZR (Z.max 0 (up (sheet_h / grid_dy g))) * grid_dy g).
  { apply (Rmult_lt_reg_r (/ grid_dy g)); [apply Rinv_0_lt_compat, Hdy|].
    rewrite Rmult_assoc, Rinv_r by lra. unfold Rdiv in Hup. lra. }
  lra.
Qed.

(** The first position has the smallest coordinates. *)
Lemma row_fits_first (g : grid R) l w sheet_h row :
  grid_positive g l w → (0 ≤ row)%Z →
  row_fits g w sheet_h row = true → row_fits g w sheet_h 0 = true.
Proof.
  intros (_ & Hdy & _) Hrow. unfold row_fits.
  rewrite !negb_true_iff, !gt_false. unfold y_at.
  cbn [add mul sub of_int R_Num].
  pose proof (Rmult_le_pos _ _ (IZR_nonneg row Hrow) (Rlt_le _ _ Hdy)). lra.
Qed.

Lemma col_fits_first (g : grid R) l w sheet_w row col :
  grid_positive g l w → (0 ≤ col)%Z →
  col_fits g l sheet_w row col = true → col_fits g l sheet_w 0 0 = true.
Proof.
  intros Hpos Hcol. pose proof (row_x_offset_nonneg g l w row Hpos).
  destruct Hpos as (Hdx & _). unfold col_fits.
  rewrite !negb_true_iff, !gt_false, row_x_offset_first. unfold x_at.
  cbn [add mul sub of_int R_Num].
  pose proof (Rmult_le_pos _ _ (IZR_nonneg col Hcol) (Rlt_le _ _ Hdx)). lra.
Qed.

Lemma grid_not_empty_first (g : grid R) l w sheet_w sheet_h :
  grid_positive g l w → ¬ grid_empty g sheet_w sheet_h l w →
  row_fits g w sheet_h 0 = true ∧ col_fits g l sheet_w 0 0 = true.
Proof.
  intros Hpos Hne.
  destruct (row_fits g w sheet_h 0) eqn:Hr, (col_fits g l sheet_w 0 0) eqn:Hc;
    [auto | exfalso; apply Hne ..]; intros row col Hrow Hcol;
    apply andb_false_iff.
  - right. apply not_true_is_false. intros Hfit.
    apply (col_fits_first g l w sheet_w row col Hpos Hcol) in Hfit. congruence.
  - left. apply not_true_is_false. intros Hfit.
    apply (row_fits_first g l w sheet_h row Hpos Hrow) in Hfit. congruence.
  - left. apply not_true_is_false. intros Hfit.
    apply (row_fits_first g l w sheet_h row Hpos Hrow) in Hfit. congruence.
Qed.

Lemma grid_first_not_empty (g : grid R) l w sheet_w sheet_h :
  row_fits g w sheet_h 0 = true → col_fits g l sheet_w 0 0 = true →
  ¬ grid_empty g sheet_w sheet_h l w.
Proof.
  intros Hr Hc Hemp. specialize (Hemp 0%Z 0%Z ltac:(lia) ltac:(lia)).
  rewrite Hr, Hc in Hemp. discriminate.
Qed.

(** A shape on the grid keeps its extents inside the sheet. *)
Lemma on_grid_bounds shape_type (g : grid R) sheet_w sheet_h l w ps :
  grid_positive g l w → on_grid shape_type g sheet_w sheet_h l w 0 ps →
  half_extent_x g l <= ps_x ps <= sheet_w - half_extent_x g l ∧
  first_row_offset g w <= ps_y ps <= sheet_h - trailing_extent g w.
Proof.
  intros Hpos (_ & row & col & Hrow & Hcol & Hy & Hx & Hrf & Hcf).
  pose proof (row_x_offset_nonneg g l w row Hpos) as Hoff.
  destruct Hpos as (Hdx & Hdy & _).
  unfold row_fits in Hrf. unfold col_fits in Hcf.
  rewrite negb_true_iff, gt_false in Hrf, Hcf.
  rewrite <- Hy in Hrf. rewrite <- Hx in Hcf.
  unfold y_at in Hy. unfold x_at in Hx.
  cbn [add mul sub of_int R_Num] in *.
  pose proof (Rmult_le_pos _ _ (IZR_nonneg row Hrow) (Rlt_le _ _ Hdy)).
  pose proof (Rmult_le_pos _ _ (IZR_nonneg col Hcol) (Rlt_le _ _ Hdx)).
  lra.
Qed.

End Reals.

(** * The claims *)

Lemma elem_of_concat {A} (x : A) (l : list A) (ls : list (list A)) :
  l ∈ ls → x ∈ l → x ∈ concat ls.
Proof.
  intros Hl Hx. apply list_elem_of_In, in_concat.
  exists l. split; apply list_elem_of_In; assumption.
Qed.

(** ** Views of a result *)

(** The centres of the shapes, sheet by sheet. *)
Definition positions {F} (sheets : list (list (PlacedShape F))) : list (list (F * F)) :=
  map (map (λ ps, (ps_x ps, ps_y ps))) sheets.

(** An item of the dictionary stored in a shape. *)
Definition stored {F} (h : heap F) (ps : PlacedShape F) (key : string) : option F :=
  match h !! ps_params ps with
  | Some d => d !! key
  | None => None
  end.

Section Offsets.
Context {F : Type} `{NumF : Num F}.
Local Open Scope num_scope.

(** The centre of the first row, from the kind of a shape and the
    parameters stored in it, as [row_y] computes it at row 0. *)
Definition row_offset_of (shape_type : string) (d : gmap string F) : option F :=
  if String.eqb shape_type "circle" then d !! "r"
  else if String.eqb shape_type "square" then (λ L, L / #2) <$> d !! "L"
  else if String.eqb shape_type "rectangle" then (λ w, w / #2) <$> d !! "w"
  else if String.eqb shape_type "triangle" then
    (λ a, a * math_sqrt #3 / #2 / #3) <$> d !! "a"
  else if String.eqb shape_type "semi-circle" then d !! "r"
  else None.

Lemma grid_agrees_offset shape_type (g : grid F) d l w :
  grid_agrees shape_type g d l w →
  row_offset_of shape_type d = Some (first_row_offset g w).
Proof.
  destruct g; cbn; intros Hag; destruct_and!; subst shape_type;
    unfold row_offset_of; cbn [String.eqb Ascii.eqb Bool.eqb];
    match goal with H : _ !! _ = Some _ |- _ => rewrite H end; reflexivity.
Qed.

(** The extents the loops keep inside the sheet, from the kind of a
    shape and the parameters stored in it: left, right, below and above
    the centre. *)
Definition footprint (shape_type : string) (d : gmap string F)
    : option (F * F * F * F) :=
  if String.eqb shape_type "circle" then
    (λ r, (r, r, r, r)) <$> d !! "r"
  else if String.eqb shape_type "square" then
    (λ L, (L / #2, L / #2, L / #2, L / #2)) <$> d !! "L"
  else if String.eqb shape_type "rectangle" then
    match d !! "l", d !! "w" with
    | Some l, Some w => Some (l / #2, l / #2, w / #2, w / #2)
    | _, _ => None
    end
  else if String.eqb shape_type "triangle" then
    (λ a, let h := a * math_sqrt #3 / #2 in
          (a / #2, a / #2, h / #3, #2 * h / #3)) <$> d !! "a"
  else if String.eqb shape_type "semi-circle" then
    (λ r, (r, r, r, r)) <$> d !! "r"
  else None.

Lemma grid_agrees_footprint shape_type (g : grid F) d l w :
  grid_agrees shape_type g d l w →
  footprint shape_type d =
    Some (half_extent_x g l, half_extent_x g l,
          first_row_offset g w, trailing_extent g w).
Proof.
  destruct g; cbn; intros Hag; destruct_and!; subst shape_type;
    unfold footprint; cbn [String.eqb Ascii.eqb Bool.eqb];
    repeat match goal with H : _ !! _ = Some _ |- _ => rewrite H; clear H end;
    reflexivity.
Qed.

End Offsets.

(** ** Statements for every arithmetic *)

Section GenericClaims.
Context {F : Type} `{NumF : Num F}.
Local Open Scope num_scope.


(** C5, as amended.  When a parameter the kind reads is missing from
    [params], the call raises [KeyError] (the specification's
    [InvalidParams]) for that parameter, whatever the fuel: no loop is
    entered, nothing is allocated, no sheet is returned. *)
Theorem missing_param_raises fuel shape_type params num_shapes
    (sheet_w sheet_h clearance : F) (h : heap F) d keys :
  h !! params = Some d →
  required_keys shape_type = Some keys →
  (∃ key, key ∈ keys ∧ d !! key = None) →
  ∃ key, key ∈ keys ∧ d !! key = None ∧
    pack_shapes fuel shape_type params num_shapes sheet_w sheet_h clearance h
      = (h, Raise (KeyError key)).
Proof.
  intros Hd Hkeys (key & Hin & Hnone).
  assert (∀ k, d !! k = None → getitem params k h = (h, Raise (KeyError k)))
    as Hget by (intros k Hk; unfold getitem; rewrite Hd, Hk; reflexivity).
  unfold required_keys in Hkeys. unfold pack_shapes, grid_increments.
  destruct (String.eqb shape_type "circle");
    [|destruct (String.eqb shape_type "square");
      [|destruct (String.eqb shape_type "rectangle");
        [|destruct (String.eqb shape_type "triangle");
          [|destruct (String.eqb shape_type "semi-circle"); [|discriminate]]]]];
    injection Hkeys as <-.
  3:{ destruct (d !! "l") as [l|] eqn:Hl.
      - exists "w".
        assert (key = "w") as ->.
        { apply elem_of_cons in Hin as [->|Hin]; [congruence|].
          apply list_elem_of_singleton in Hin. exact Hin. }
        split; [exact Hin|]. split; [exact Hnone|].
        apply bind_raise.
        rewrite (bind_run _ _ _ _ _ (getitem_run params d h "l" l Hd Hl)).
        apply bind_raise, Hget, Hnone.
      - exists "l". split; [apply list_elem_of_here|]. split; [exact Hl|].
        do 2 apply bind_raise. apply Hget, Hl. }
  all: apply list_elem_of_singleton in Hin as ->;
    eexists; split; [apply list_elem_of_singleton; reflexivity|];
    split; [exact Hnone|]; do 2 apply bind_raise; apply Hget, Hnone.
Qed.

(** C9.  Two calls with identical arguments are observed alike,
    whatever fuel each run has and wherever the [params] dictionary
    lives, as long as it holds the same items -- in particular when the
    second call is made after the first on the heap the first one left:
    both raise the same exception, or both return the same number of
    sheets holding, in the same order, shapes of the same kind with the
    same centres and the same parameter items.  Started on the same heap
    at the same location, the two runs agree on everything. *)
Theorem pack_shapes_deterministic fuel1 fuel2 shape_type pa pb num_shapes
    (sheet_w sheet_h clearance : F) (ha hb : heap F) d :
  ha !! pa = Some d → hb !! pb = Some d →
  let ra := pack_shapes fuel1 shape_type pa num_shapes
              sheet_w sheet_h clearance ha in
  let rb := pack_shapes fuel2 shape_type pb num_shapes
              sheet_w sheet_h clearance hb in
  ra.2 ≠ OutOfFuel → rb.2 ≠ OutOfFuel →
  result_view ra = result_view rb ∧ (ha = hb → pa = pb → ra = rb).
Proof.
  intros Ha Hb ra rb Hnea Hneb.
  pose proof (pack_shapes_mono fuel1 (Nat.max fuel1 fuel2) shape_type pa
                num_shapes sheet_w sheet_h clearance (Nat.le_max_l _ _)
                ha ra.1 ra.2 (surjective_pairing _) Hnea) as Hra.
  pose proof (pack_shapes_mono fuel2 (Nat.max fuel1 fuel2) shape_type pb
                num_shapes sheet_w sheet_h clearance (Nat.le_max_r _ _)
                hb rb.1 rb.2 (surjective_pairing _) Hneb) as Hrb.
  rewrite <- surjective_pairing in Hra, Hrb.
  split.
  - rewrite <- Hra, <- Hrb. eapply pack_shapes_sim; eassumption.
  - intros -> ->. rewrite <- Hra, <- Hrb. reflexivity.
Qed.

(** C10.  Whatever the outcome, every object that existed before the
    call is unchanged after it, the caller's [params] among them.  When
    sheets are returned, the dictionaries stored in the placed shapes
    are pairwise distinct objects, none of which existed before the
    call, and each holds the items of the caller's [params], with [l]
    and [w] exchanged when the rectangle branch chose the second
    orientation. *)
Theorem pack_shapes_frame fuel shape_type params num_shapes
    (sheet_w sheet_h clearance : F) (h : heap F) :
  let r := pack_shapes fuel shape_type params num_shapes
             sheet_w sheet_h clearance h in
  (∀ p d, h !! p = Some d → r.1 !! p = Some d) ∧
  match r.2 with
  | Ok sheets =>
      NoDup (ps_params <$> concat sheets) ∧
      ∃ d0 d,
        h !! params = Some d0 ∧
        (d = d0 ∨
         ∃ l w, d0 !! "l" = Some l ∧ d0 !! "w" = Some w ∧
                d = {[ "l" := w; "w" := l ]}) ∧
        ∀ ps, ps ∈ concat sheets →
          h !! ps_params ps = None ∧ r.1 !! ps_params ps = Some d
  | Raise _ | OutOfFuel => True
  end.
Proof.
  intros r. split.
  - intros p d Hp. eapply prefix_lookup_Some; [exact Hp|].
    apply extends_pack_shapes.
  - subst r.
    destruct (pack_shapes _ _ _ _ _ _ _ _) as [h' [sheets|e|]] eqn:Hrun;
      cbn [fst snd]; [|exact I..].
    apply pack_shapes_ok in Hrun
      as (h1 & p' & g & d0 & d & l & w & _ & Hd0 & _ & _ & Hreb & _ & _ & Hadd).
    split.
    { destruct Hadd as (_ & -> & _). apply NoDup_seq. }
    exists d0, d. split; [exact Hd0|]. split.
    { destruct Hreb as [(_ & _ & ->) | (Hl & Hw & -> & _)]; [auto|].
      right. exists w, l. auto. }
    intros ps Hin.
    destruct (added_params _ _ _ _ _ _ Hadd Hin) as (Hd & Hnone & _).
    split; [|exact Hd].
    apply lookup_ge_None. apply lookup_ge_None in Hnone.
    destruct Hreb as [(-> & _) | (_ & _ & _ & -> & _)]; [exact Hnone|].
    rewrite length_app in Hnone. lia.
Qed.

End GenericClaims.

(** ** Statements in exact arithmetic *)

Section RealClaims.
Local Open Scope R_scope.

Lemma grid_positive_agrees shape_type (g : grid R) d l w l' w' :
  grid_agrees shape_type g d l w → grid_agrees shape_type g d l' w' →
  grid_positive g l w → grid_positive g l' w'.
Proof.
  destruct g; cbn; try (intros _ _ Hpos; exact Hpos).
  intros (_ & Hl & Hw) (_ & Hl' & Hw') Hpos.
  rewrite Hl in Hl'. rewrite Hw in Hw'.
  injection Hl' as <-. injection Hw' as <-. exact Hpos.
Qed.

Lemma grid_empty_dec (g : grid R) l w sheet_w sheet_h :
  grid_positive g l w →
  grid_empty g sheet_w sheet_h l w ∨ ¬ grid_empty g sheet_w sheet_h l w.
Proof.
  intros Hpos.
  destruct (row_fits g w sheet_h 0) eqn:Hr, (col_fits g l sheet_w 0 0) eqn:Hc;
    [right; apply grid_first_not_empty; assumption | left ..];
    intros row col Hrow Hcol; apply andb_false_iff.
  - right. apply not_true_is_false. intros Hfit.
    apply (col_fits_first g l w sheet_w row col Hpos Hcol) in Hfit. congruence.
  - left. apply not_true_is_false. intros Hfit.
    apply (row_fits_first g l w sheet_h row Hpos Hrow) in Hfit. congruence.
  - left. apply not_true_is_false. intros Hfit.
    apply (row_fits_first g l w sheet_h row Hpos Hrow) in Hfit. congruence.
Qed.

(** The three ways a call on positive parameters ends, once the fuel
    exceeds the index [K] of a row that fails the row check plus the
    requested count. *)
Lemma pack_shapes_runs shape_type params num_shapes sheet_w sheet_h clearance
    (h : heap R) d :
  h !! params = Some d → positive_params shape_type d → 0 <= clearance →
  ∃ h1 p' g d' l w K,
    grid_increments shape_type params sheet_w sheet_h clearance h
      = (h1, Ok (p', g)) ∧
    h1 !! p' = Some d' ∧ grid_agrees shape_type g d' l w ∧
    grid_positive g l w ∧ (0 ≤ K)%Z ∧
    ∀ fuel, (Z.to_nat K + Z.to_nat num_shapes < fuel)%nat →
      ((num_shapes ≤ 0)%Z →
         pack_shapes fuel shape_type params num_shapes sheet_w sheet_h clearance h
           = (h1, Ok [])) ∧
      ((0 < num_shapes)%Z → grid_empty g sheet_w sheet_h l w →
         pack_shapes fuel shape_type params num_shapes sheet_w sheet_h clearance h
           = (h1, Raise RuntimeError)) ∧
      ((0 < num_shapes)%Z → ¬ grid_empty g sheet_w sheet_h l w →
         ∃ h' sheets,
           pack_shapes fuel shape_type params num_shapes sheet_w sheet_h clearance h
             = (h', Ok sheets) ∧
           Z.of_nat (length (concat sheets)) = num_shapes ∧
           Forall (λ sheet, sheet ≠ []) sheets).
Proof.
  intros Hd Hpos Hc.
  destruct (grid_increments_positive shape_type params sheet_w sheet_h clearance
              h d Hd Hpos Hc) as (h1 & p' & g & d' & l & w & Hg & Hd' & Hag & Hgp).
  destruct (stopping_row g l w sheet_h Hgp) as (K & HK0 & HK).
  exists h1, p', g, d', l, w, K.
  split; [exact Hg|]. split; [exact Hd'|]. split; [exact Hag|].
  split; [exact Hgp|]. split; [exact HK0|].
  intros fuel Hfuel. unfold pack_shapes.
  rewrite (bind_run _ _ _ _ _ Hg). cbn [fst snd].
  pose proof (grid_agrees_resolved _ _ _ _ _ Hag) as Hres.
  split; [|split].
  - intros Hn. apply sheet_loop_done. exact Hn.
  - intros Hn Hemp.
    apply (sheet_loop_unplaceable shape_type g p' num_shapes sheet_w sheet_h
             d' l w Hres K); try assumption; lia.
  - intros Hn Hne.
    destruct (grid_not_empty_first g l w sheet_w sheet_h Hgp Hne) as [Hr0 Hc0].
    destruct (sheet_loop_total shape_type g p' num_shapes sheet_w sheet_h
                d' l w Hres K fuel fuel 0%Z [] h1 Hd' Hr0 Hc0 HK0 HK)
      as (h' & sheets & Hrun); [lia..|].
    exists h', sheets. split; [exact Hrun|].
    destruct (sheet_loop_ok shape_type g p' num_shapes sheet_w sheet_h d' l w
                Hres _ _ _ _ _ _ _ Hd' Hrun) as (news & Hs & Hnon & Hcount & _).
    cbn [app] in Hs. subst news. split; [lia | exact Hnon].
Qed.


(** A shape keeps its extents inside the sheet. *)
Definition within_sheet (h : heap R) (sheet_w sheet_h : R)
    (ps : PlacedShape R) : Prop :=
  ∃ d left right below above,
    h !! ps_params ps = Some d ∧
    footprint (ps_type ps) d = Some (left, right, below, above) ∧
    left <= ps_x ps <= sheet_w - right ∧
    below <= ps_y ps <= sheet_h - above.



End RealClaims.

(** ** The area bound, where [params] is not rebound *)

Section Area.
Local Open Scope R_scope.

Lemma PI_upper : PI <= 68 / 21.
Proof.
  destruct (PI_2_3_7_ineq 0) as [_ H].
  unfold sum_f_R0, tg_alt, PI_2_3_7_tg, Ratan_seq in H. simpl in H. lra.
Qed.

Lemma sqrt3_lower : 17 / 10 <= sqrt 3.
Proof.
  rewrite <- (sqrt_square (17 / 10)) by lra. apply sqrt_le_1; lra.
Qed.

(** The height a row of shapes occupies. *)
Definition row_height (g : grid R) (w : R) : R :=
  match g with
  | Circle r _ _ => r * sqrt 3
  | Square L _ _ => L
  | Rectangle _ _ => w
  | Triangle a _ _ => a * sqrt 3 / 2
  | SemiCircle r _ _ => r
  end.

(** The increments leave room for the shape. *)
Definition grid_pitch (g : grid R) (l w : R) : Prop :=
  2 * half_extent_x g l <= grid_dx g ∧ row_height g w <= grid_dy g.

(** [calculate_shape_area], from the grid. *)
Definition shape_area_of (g : grid R) (l w : R) : R :=
  match g with
  | Circle r _ _ => PI * r * r
  | Square L _ _ => L * L
  | Rectangle _ _ => l * w
  | Triangle a _ _ => a * (a * sqrt 3 / 2) / 2
  | SemiCircle r _ _ => PI * r * r / 2
  end.

Lemma calculate_shape_area_run shape_type params (g : grid R) d l w (h : heap R) :
  h !! params = Some d → grid_agrees shape_type g d l w →
  calculate_shape_area shape_type params h = (h, Ok (shape_area_of g l w)).
Proof.
  intros Hd Hag. unfold calculate_shape_area.
  destruct g; cbn in Hag; destruct_and!; subst shape_type;
    cbn [String.eqb Ascii.eqb Bool.eqb];
    repeat match goal with
      | H : d !! ?k = Some ?v |- context [getitem params ?k] =>
          rewrite (bind_run _ _ _ _ _ (getitem_run params d h k v Hd H))
      end; reflexivity.
Qed.

(** A shape is no larger than the cell its row and column leave it. *)
Lemma cell_area (g : grid R) l w :
  grid_positive g l w →
  0 < shape_area_of g l w ∧
  shape_area_of g l w
    <= 2 * half_extent_x g l * (first_row_offset g w + trailing_extent g w) ∧
  shape_area_of g l w <= 2 * half_extent_x g l * row_height g w.
Proof.
  intros (_ & _ & Hx & Hoff & Htr).
  pose proof PI_upper as HPI. pose proof sqrt3_lower as Hs3.
  pose proof PI_RGT_0 as HPI0.
  destruct g; cbn [shape_area_of half_extent_x first_row_offset
                     trailing_extent row_height div mul of_int math_sqrt
                     R_Num] in *.
  - assert (0 < r * r) by (apply Rmult_lt_0_compat; assumption).
    assert (0 < r * r * sqrt 3) by (apply Rmult_lt_0_compat; lra).
    repeat split; nra.
  - assert (0 < L) by lra.
    assert (0 < L * L) by (apply Rmult_lt_0_compat; assumption).
    repeat split; nra.
  - assert (0 < l) by lra. assert (0 < w) by lra.
    assert (0 < l * w) by (apply Rmult_lt_0_compat; assumption).
    repeat split; nra.
  - assert (0 < a) by lra.
    assert (0 < a * sqrt 3 / 2) by lra.
    assert (0 < a * (a * sqrt 3 / 2)) by (apply Rmult_lt_0_compat; assumption).
    repeat split; nra.
  - assert (0 < r * r) by (apply Rmult_lt_0_compat; assumption).
    repeat split; nra.
Qed.

(** When [params] is not rebound, the increments leave room for the
    shape in both directions. *)
Lemma grid_increments_pitch shape_type params sheet_w sheet_h clearance
    (h h1 : heap R) d g l w :
  h !! params = Some d → 0 <= clearance →
  grid_increments shape_type params sheet_w sheet_h clearance h
    = (h1, Ok (params, g)) →
  grid_agrees shape_type g d l w → grid_positive g l w →
  grid_pitch g l w.
Proof.
  intros Hd Hc Hrun Hag Hgp. pose proof sqrt3_lower as Hs3.
  unfold grid_increments in Hrun.
  destruct g; cbn in Hag; destruct_and!; subst shape_type;
    cbn [String.eqb Ascii.eqb Bool.eqb] in Hrun.
  3:{ apply (grid_increments_rectangle params sheet_w sheet_h clearance h h1
               params (Rectangle dx dy)) in Hrun
        as (d' & l' & w' & r1 & c1 & r2 & c2 & Hd' & Hl & Hw & _ & _
            & _ & _ & _ & _ & Hcase).
      rewrite Hd in Hd'. injection Hd' as <-.
      destruct (r1 * c1 >=? r2 * c2)%Z.
      - destruct Hcase as (_ & _ & [= -> ->]).
        assert (l' = l) as -> by congruence. assert (w' = w) as -> by congruence.
        unfold grid_pitch.
        cbn [half_extent_x grid_dx grid_dy row_height add div of_int R_Num].
        split; lra.
      - destruct Hcase as (_ & Hp & _). apply lookup_lt_Some in Hd. lia. }
  all: match goal with
       | Hd : ?h0 !! ?p = Some ?d0, H : ?d0 !! ?k = Some ?v,
         Hrun : _ = (_, Ok (_, _)) |- _ =>
           rewrite (bind_run _ _ _ _ _ (getitem_run p d0 h0 k v Hd H)) in Hrun;
           injection Hrun as _ <- <-
       end;
    match goal with Hgp : grid_positive _ _ _ |- _ =>
      destruct Hgp as (_ & _ & Hx & _) end;
    unfold grid_pitch;
    cbn [half_extent_x grid_dx grid_dy row_height add mul div of_int math_sqrt
           R_Num] in *; split; try lra.
  match goal with Hc : 0 <= ?c |- _ =>
    assert (0 <= c * sqrt 3) by (apply Rmult_le_pos; lra) end.
  nra.
Qed.

(** The shapes one run of the row loop adds fit in [m] rows of at most
    [k] columns, the last row and the last column passing their
    checks. *)
Lemma row_loop_count shape_type (g : grid R) params num_shapes sheet_w sheet_h
    d l w fuel0 :
  resolved g d l w → grid_positive g l w →
  ∀ fuel row st (h h' : heap R) st',
    h !! params = Some d → (0 ≤ row)%Z →
    row_loop fuel fuel0 shape_type g params num_shapes sheet_w sheet_h row st h
      = (h', Ok st') →
    placed st' = placed st ∨
    ∃ m k : Z,
      (1 ≤ m)%Z ∧ (1 ≤ k)%Z ∧ (placed st' - placed st ≤ m * k)%Z ∧
      y_at g w (row + m - 1) <= sheet_h - trailing_extent g w ∧
      half_extent_x g l + IZR (k - 1) * grid_dx g
        <= sheet_w - half_extent_x g l.
Proof.
  intros Hres Hgp.
  induction fuel as [|fuel IH]; intros row st h h' st' Hd Hrow Hrun;
    [discriminate|].
  rewrite (row_loop_step _ _ _ _ _ _ _ _ _ Hres) in Hrun by exact Hd.
  destruct (gt (y_at g w row) _) eqn:Hgt; [inversion Hrun; auto|].
  apply gt_false in Hgt.
  destruct (col_loop _ _ _ _ _ _ _ _ _ _ _) as [h1 [st1|e|]] eqn:Hcol;
    try discriminate.
  pose proof (col_loop_last _ _ _ _ _ _ _ _ Hres _ _ _ _ _ _ _ _ Hd Hcol)
    as Hlast.
  pose proof (col_loop_ok _ _ _ _ _ _ _ _ Hres _ _ _ _ _ _ _ _ Hd Hcol)
    as (new1 & _ & Hpl1 & _ & Hadd1).
  assert (Hrow1 : placed st1 = placed st ∨
            ((1 ≤ placed st1 - placed st)%Z ∧
             half_extent_x g l + IZR (placed st1 - placed st - 1) * grid_dx g
               <= sheet_w - half_extent_x g l)).
  { destruct Hlast as [Heq | [Hlt Hx]]; [auto|]. right. split; [lia|].
    apply gt_false in Hx. unfold x_at in Hx.
    replace (0 + (placed st1 - placed st) - 1)%Z
      with (placed st1 - placed st - 1)%Z in Hx by lia.
    pose proof (row_x_offset_nonneg g l w row Hgp).
    cbn [add mul sub of_int R_Num] in Hx. lra. }
  assert (Hy : y_at g w (row + 1 - 1) <= sheet_h - trailing_extent g w)
    by (replace (row + 1 - 1)%Z with row by lia; exact Hgt).
  destruct (placed st1 >=? num_shapes)%Z.
  { inversion Hrun; subst. destruct Hrow1 as [Heq | [Hk Hx]]; [auto|].
    right. exists 1%Z, (placed st' - placed st)%Z.
    split; [lia|]. split; [lia|]. split; [lia|]. split; assumption. }
  apply IH in Hrun as [Heq2 | (m2 & k2 & Hm2 & Hk2 & Hcount2 & Hy2 & Hx2)];
    [| | eapply added_lookup; eassumption | lia].
  - rewrite Heq2. destruct Hrow1 as [Heq | [Hk Hx]]; [auto|].
    right. exists 1%Z, (placed st1 - placed st)%Z.
    split; [lia|]. split; [lia|]. split; [lia|]. split; assumption.
  - right.
    replace (row + 1 + m2 - 1)%Z with (row + (m2 + 1) - 1)%Z in Hy2 by lia.
    destruct Hrow1 as [Heq | [Hk Hx]].
    + exists (m2 + 1)%Z, k2. rewrite <- Heq.
      split; [lia|]. split; [lia|]. split; [nia|]. split; assumption.
    + exists (m2 + 1)%Z, (Z.max (placed st1 - placed st) k2).
      split; [lia|]. split; [lia|]. split; [nia|]. split; [exact Hy2|].
      destruct (Z.max_spec (placed st1 - placed st) k2) as [[_ ->] | [_ ->]];
        assumption.
Qed.

(** [m] rows of [k] columns hold no more area than the sheet has. *)
Lemma rows_columns_area (g : grid R) l w sheet_w sheet_h (n m k : Z) :
  grid_positive g l w → grid_pitch g l w →
  (1 ≤ m)%Z → (1 ≤ k)%Z → (n ≤ m * k)%Z →
  y_at g w (0 + m - 1) <= sheet_h - trailing_extent g w →
  half_extent_x g l + IZR (k - 1) * grid_dx g <= sheet_w - half_extent_x g l →
  IZR n * shape_area_of g l w <= sheet_w * sheet_h.
Proof.
  intros Hgp [Hdx Hdy] Hm Hk Hn Hy Hx.
  destruct (cell_area g l w Hgp) as (Ha0 & Hcell1 & Hcell2).
  destruct Hgp as (_ & _ & Hhx & Hoff & Htr).
  unfold y_at in Hy. cbn [add mul sub of_int R_Num] in Hy.
  replace (0 + m - 1)%Z with (m - 1)%Z in Hy by lia.
  rewrite !minus_IZR in *.
  assert (1 <= IZR m) as Hm' by (apply (IZR_le 1 m); lia).
  assert (1 <= IZR k) as Hk' by (apply (IZR_le 1 k); lia).
  assert (IZR n <= IZR m * IZR k) as Hn'
    by (rewrite <- mult_IZR; apply IZR_le; exact Hn).
  set (A := shape_area_of g l w) in *.
  set (hx := half_extent_x g l) in *.
  set (e := first_row_offset g w + trailing_extent g w) in *.
  assert (2 * hx * IZR k <= sheet_w) as HW.
  { assert (0 <= (IZR k - 1) * (grid_dx g - 2 * hx))
      by (apply Rmult_le_pos; lra). lra. }
  assert (e + (IZR m - 1) * row_height g w <= sheet_h) as HH.
  { assert (0 <= (IZR m - 1) * (grid_dy g - row_height g w))
      by (apply Rmult_le_pos; lra). unfold e. lra. }
  assert (IZR m * A <= 2 * hx * sheet_h) as HmA.
  { assert (0 <= (IZR m - 1) * (2 * hx * row_height g w - A))
      by (apply Rmult_le_pos; lra).
    assert (0 <= 2 * hx * (sheet_h - (e + (IZR m - 1) * row_height g w)))
      by (apply Rmult_le_pos; lra).
    lra. }
  assert (0 < sheet_h) by (unfold e in HH; nra).
  assert (IZR n * A <= IZR m * IZR k * A)
    by (apply Rmult_le_compat_r; lra).
  assert (IZR k * (IZR m * A) <= IZR k * (2 * hx * sheet_h))
    by (apply Rmult_le_compat_l; lra).
  assert (2 * hx * IZR k * sheet_h <= sheet_w * sheet_h)
    by (apply Rmult_le_compat_r; lra).
  lra.
Qed.

Lemma R_to_int_IZR z : R_to_int (IZR z) = z.
Proof.
  unfold R_to_int. destruct (Rle_dec 0 (IZR z)).
  - symmetry. apply Int_part_spec. lra.
  - rewrite <- opp_IZR.
    rewrite <- (Int_part_spec (IZR (- z)) (- z)%Z) by lra. lia.
Qed.


End Area.

(** ** Runs on binary64 numbers *)

Section FloatRuns.
Local Open Scope float_scope.

(** The sheets of an outcome, if any. *)
Definition sheets_of {A} (o : outcome A) : option A :=
  match o with
  | Ok a => Some a
  | Raise _ | OutOfFuel => None
  end.

(** A row of centres at height [y]. *)
Definition row_at (y : float) (xs : list float) : list (float * float) :=
  map (λ x, (x, y)) xs.

(** The length and width stored in the shapes of a result. *)
Definition stored_lw {F} (r : heap F * outcome (list (list (PlacedShape F))))
    : option (list (option F * option F)) :=
  (λ sheets, map (λ ps, (stored r.1 ps "l", stored r.1 ps "w")) (concat sheets))
    <$> sheets_of r.2.

Lemma run_eq {A B} (r : A * B) (b : B) : r.2 = b → r = (r.1, b).
Proof. destruct r as [a b']. cbn. intros ->. reflexivity. Qed.

(** C1.  [pack_shapes('rectangle', {'l': 3.0, 'w': 2.0}, 4, 5.0, 6.0, 0.0)]:
    the second orientation is estimated at 2 * 2 = 4 shapes against
    3 * 1 = 3 for the first, so it wins strictly; [params] is rebound to
    a new dictionary with [l = 2], [w = 3], and [dx] is [w + clearance = 2];
    but [dy] is [w + clearance = 2] too, below [l + clearance = 3]: the
    two rows are centred at 1.5 and 3.5 although the stored width is 3. *)
Theorem rectangle_second_orientation_pitch :
  let h0 := heap_of {[ "l" := 3; "w" := 2 ]} in
  let r := pack_shapes 10 "rectangle" 0%nat 4 5 6 0 h0 in
  (grid_increments "rectangle" 0%nat 5 6 0 h0).2
    = Ok (1%nat, Rectangle (2 + 0) (2 + 0)) ∧
  (2 + 0 <? 3 + 0) = true ∧
  positions <$> sheets_of r.2 = Some [row_at 1.5 [1; 3] ++ row_at 3.5 [1; 3]] ∧
  stored_lw r = Some [(Some 2, Some 3); (Some 2, Some 3);
                      (Some 2, Some 3); (Some 2, Some 3)].
Proof. intros h0 r. repeat split; vm_compute; reflexivity. Qed.

(** C3.  [pack_shapes('rectangle', {'l': 10.0, 'w': 1.0}, 10, 1.0, 19.0, 0.0)]
    puts 10 rectangles, stored with length 1 and width 10, on one sheet
    of area 19, where the area bound is 1; the unused area computed for
    that sheet is -81. *)
Theorem rectangle_exceeds_area_bound :
  let h0 := heap_of {[ "l" := 10; "w" := 1 ]} in
  let r := pack_shapes 20 "rectangle" 0%nat 10 1 19 0 h0 in
  (area_bound "rectangle" 0%nat 1 19 h0).2 = Ok 1%Z ∧
  map length <$> sheets_of r.2 = Some [10%nat] ∧
  positions <$> sheets_of r.2
    = Some [row_at 5 [0.5] ++ row_at 6 [0.5] ++ row_at 7 [0.5] ++
            row_at 8 [0.5] ++ row_at 9 [0.5] ++ row_at 10 [0.5] ++
            row_at 11 [0.5] ++ row_at 12 [0.5] ++ row_at 13 [0.5] ++
            row_at 14 [0.5]] ∧
  stored_lw r = Some (replicate 10 (Some 1, Some 10)) ∧
  (calculate_unused_area "rectangle" 0%nat 1 19 10 h0).2 = Ok (-81) ∧
  (-81 <? 0) = true.
Proof. intros h0 r. repeat split; vm_compute; reflexivity. Qed.

(** C7.  [pack_shapes('circle', {'r': 0.1}, n, 1.0, 1.0, 0.0)]: the
    increments are [dx = 0.2] and [dy = 0.2 * sqrt(3) / 2]; with
    [n = 23] the sheet holds rows 0 to 4, centred at [0.1 + row * dy],
    the even ones with 5 columns from 0.1 to 0.9 and the odd ones with 4
    columns from 0.2 to 0.8; row 5 would be centred beyond 0.9; and with
    [n = 24] the 24th circle goes to a second sheet. *)
Theorem circle_scenario :
  let h0 := heap_of {[ "r" := 0.1 ]} in
  let dy := 0.2 * PrimFloat.sqrt 3 / 2 in
  let even := [0.1; 0.30000000000000004; 0.5; 0.7000000000000001; 0.9] in
  let odd := [0.2; 0.4; 0.6000000000000001; 0.8] in
  (grid_increments "circle" 0%nat 1.0 1.0 0.0 h0).2
    = Ok (0%nat, Circle 0.1 0.2 dy) ∧
  positions <$> sheets_of (pack_shapes 30 "circle" 0%nat 23 1.0 1.0 0.0 h0).2 =
    Some [row_at (0.1 + 0 * dy) even ++ row_at (0.1 + 1 * dy) odd ++
          row_at (0.1 + 2 * dy) even ++ row_at (0.1 + 3 * dy) odd ++
          row_at (0.1 + 4 * dy) even] ∧
  (1.0 - 0.1 <? 0.1 + 5 * dy) = true ∧
  map length <$> sheets_of (pack_shapes 30 "circle" 0%nat 24 1.0 1.0 0.0 h0).2 =
    Some [23%nat; 1%nat].
Proof.
  intros h0 dy even odd. repeat split; vm_compute; reflexivity.
Qed.



(** C5 fails as stated.  A negative radius and a zero radius are both
    accepted: shapes are placed and returned. *)
Lemma nonpositive_radius_accepted :
  positions <$>
    sheets_of (pack_shapes 10 "circle" 0%nat 2 10 10 0 (heap_of {[ "r" := -1 ]})).2
    = Some [[(-1, -1); (-3, -1)]] ∧
  positions <$>
    sheets_of (pack_shapes 10 "circle" 0%nat 2 10 10 0 (heap_of {[ "r" := 0 ]})).2
    = Some [[(0, 0); (0, 0)]].
Proof. split; vm_compute; reflexivity. Qed.


(** The amended C5 on a circle whose [params] holds [L] instead of [r],
    with no fuel at all. *)
Lemma missing_param_raises_witness :
  let d : gmap string float := {[ "L" := 1 ]} in
  ∃ key, key ∈ ["r"] ∧ d !! key = None ∧
    pack_shapes 0 "circle" 0%nat 5 10 10 0 (heap_of d)
      = (heap_of d, Raise (KeyError key)).
Proof.
  intros d.
  apply (missing_param_raises 0 "circle" 0%nat 5 10 10 0 (heap_of d) d ["r"]).
  - reflexivity.
  - reflexivity.
  - exists "r". split; [apply list_elem_of_here | vm_compute; reflexivity].
Defined.

(** C9 on the square scenario: a first call with fuel 10, then a second
    call with fuel 20 on the heap the first one left. *)
Lemma pack_shapes_deterministic_witness :
  let d : gmap string float := {[ "L" := 0.3 ]} in
  result_view (pack_shapes 10 "square" 0%nat 5 1.0 0.5 0.01 (heap_of d)) =
  result_view (pack_shapes 20 "square" 0%nat 5 1.0 0.5 0.01
                 (pack_shapes 10 "square" 0%nat 5 1.0 0.5 0.01 (heap_of d)).1) ∧
  (heap_of d = (pack_shapes 10 "square" 0%nat 5 1.0 0.5 0.01 (heap_of d)).1 →
   0%nat = 0%nat →
   pack_shapes 10 "square" 0%nat 5 1.0 0.5 0.01 (heap_of d) =
   pack_shapes 20 "square" 0%nat 5 1.0 0.5 0.01
     (pack_shapes 10 "square" 0%nat 5 1.0 0.5 0.01 (heap_of d)).1).
Proof.
  intros d.
  refine (pack_shapes_deterministic 10 20 "square" 0%nat 0%nat 5 1.0 0.5 0.01
            (heap_of d)
            (pack_shapes 10 "square" 0%nat 5 1.0 0.5 0.01 (heap_of d)).1
            d _ _ _ _).
  - reflexivity.
  - vm_compute. reflexivity.
  - vm_compute. discriminate.
  - vm_compute. discriminate.
Defined.

End FloatRuns.

(** ** A run on real numbers: the unit square on the unit sheet *)

Section RealRuns.
Local Open Scope R_scope.

Definition unit_square : gmap string R := {[ "L" := 1 ]}.

Lemma unit_square_positive : positive_params "square" unit_square.
Proof.
  exists ["L"]. split; [reflexivity|]. intros key Hkey.
  apply list_elem_of_singleton in Hkey as ->.
  exists 1. split; [apply lookup_singleton_eq | lra].
Qed.

Lemma unit_square_grid :
  grid_increments "square" 0%nat 1 1 0 (heap_of unit_square)
    = (heap_of unit_square, Ok (0%nat, Square 1 (1 + 0)%num (1 + 0)%num)).
Proof.
  unfold grid_increments. cbn [String.eqb Ascii.eqb Bool.eqb].
  rewrite (bind_run _ _ _ _ _
             (getitem_run 0%nat unit_square (heap_of unit_square) "L" 1
                eq_refl (lookup_singleton_eq _ _))).
  reflexivity.
Qed.

Lemma unit_square_run :
  ∃ h' ps,
    pack_shapes 2 "square" 0%nat 1 1 1 0 (heap_of unit_square)
      = (h', Ok [[ps]]).
Proof.
  unfold pack_shapes. rewrite (bind_run _ _ _ _ _ unit_square_grid).
  cbn [fst snd].
  assert (resolved (Square 1 (1 + 0)%num (1 + 0)%num) unit_square 1 1) as Hres
    by exact I.
  assert (heap_of unit_square !! 0%nat = Some unit_square) as Hd by reflexivity.
  rewrite sheet_loop_step. cbn [Z.ltb Z.compare].
  rewrite (row_loop_step _ _ _ _ _ _ _ _ _ Hres) by exact Hd.
  rewrite (proj2 (gt_false _ _))
    by (unfold y_at; cbn [first_row_offset trailing_extent grid_dy add mul sub
                           div of_int R_Num]; lra).
  rewrite (col_loop_step _ _ _ _ _ _ _ _ Hres) by exact Hd.
  rewrite (proj2 (gt_false _ _))
    by (unfold x_at; cbn [half_extent_x row_x_offset grid_dx add mul sub
                           div of_int R_Num]; lra).
  cbn [placed Z.ltb Z.compare].
  rewrite (col_loop_step _ _ _ _ _ _ _ _ Hres) by reflexivity.
  rewrite (proj2 (gt_true _ _))
    by (unfold x_at; cbn [half_extent_x row_x_offset grid_dx add mul sub
                           div of_int R_Num]; change (0 + 1)%Z with 1%Z; lra).
  cbn. eauto.
Qed.




End RealRuns.

(** * Beyond the claims *)

(** ** Errors of [pack_shapes] and of the area functions *)

Section MoreErrors.
Context {F : Type} `{NumF : Num F}.
Local Open Scope num_scope.

(** A kind none of the branches tests for. *)
Definition unknown_kind (shape_type : string) : Prop :=
  shape_type ≠ "circle" ∧ shape_type ≠ "square" ∧ shape_type ≠ "rectangle" ∧
  shape_type ≠ "triangle" ∧ shape_type ≠ "semi-circle".

Lemma unknown_kind_eqb shape_type :
  unknown_kind shape_type →
  String.eqb shape_type "circle" = false ∧
  String.eqb shape_type "square" = false ∧
  String.eqb shape_type "rectangle" = false ∧
  String.eqb shape_type "triangle" = false ∧
  String.eqb shape_type "semi-circle" = false.
Proof.
  intros (H1 & H2 & H3 & H4 & H5).
  repeat split; apply String.eqb_neq; assumption.
Qed.

(** X1.  For a kind outside the five supported ones, [pack_shapes]
    raises [ValueError] before it reads [params] or enters a loop:
    whatever the parameters, the requested count and the fuel, and with
    the heap unchanged. *)
Theorem unknown_kind_raises fuel shape_type params num_shapes
    (sheet_w sheet_h clearance : F) (h : heap F) :
  unknown_kind shape_type →
  pack_shapes fuel shape_type params num_shapes sheet_w sheet_h clearance h
    = (h, Raise ValueError).
Proof.
  intros Hk. apply unknown_kind_eqb in Hk as (E1 & E2 & E3 & E4 & E5).
  unfold pack_shapes, grid_increments. rewrite E1, E2, E3, E4, E5.
  reflexivity.
Qed.

(** X2.  For a kind outside the five supported ones,
    [calculate_shape_area] raises [ValueError], and so do
    [calculate_unused_area] and the area bound of the main script, which
    call it. *)
Theorem area_unknown_kind_raises shape_type params
    (sheet_w sheet_h : F) count (h : heap F) :
  unknown_kind shape_type →
  calculate_shape_area shape_type params h = (h, Raise ValueError) ∧
  calculate_unused_area shape_type params sheet_w sheet_h count h
    = (h, Raise ValueError) ∧
  area_bound shape_type params sheet_w sheet_h h = (h, Raise ValueError).
Proof.
  intros Hk. apply unknown_kind_eqb in Hk as (E1 & E2 & E3 & E4 & E5).
  assert (calculate_shape_area shape_type params h = (h, Raise ValueError)) as Ha.
  { unfold calculate_shape_area. rewrite E1, E2, E3, E4, E5. reflexivity. }
  split; [exact Ha|]. split.
  - unfold calculate_unused_area. apply bind_raise, Ha.
  - unfold area_bound. apply bind_raise, Ha.
Qed.

(** X3.  When a parameter the kind reads is missing from the
    dictionary, [calculate_shape_area] raises [KeyError] for a missing
    parameter, and so does [calculate_unused_area]; the heap is
    unchanged. *)
Theorem area_missing_param_raises shape_type params
    (sheet_w sheet_h : F) count (h : heap F) d keys :
  h !! params = Some d →
  required_keys shape_type = Some keys →
  (∃ key, key ∈ keys ∧ d !! key = None) →
  ∃ key, key ∈ keys ∧ d !! key = None ∧
    calculate_shape_area shape_type params h = (h, Raise (KeyError key)) ∧
    calculate_unused_area shape_type params sheet_w sheet_h count h
      = (h, Raise (KeyError key)).
Proof.
  intros Hd Hkeys (key & Hin & Hnone).
  assert (∀ k, d !! k = None → getitem params k h = (h, Raise (KeyError k)))
    as Hget by (intros k Hk; unfold getitem; rewrite Hd, Hk; reflexivity).
  cut (∃ key, key ∈ keys ∧ d !! key = None ∧
         calculate_shape_area shape_type params h = (h, Raise (KeyError key))).
  { intros (k & Hk & Hkn & Ha). exists k. repeat split; try assumption.
    unfold calculate_unused_area. apply bind_raise, Ha. }
  unfold required_keys in Hkeys. unfold calculate_shape_area.
  destruct (String.eqb shape_type "circle");
    [|destruct (String.eqb shape_type "square");
      [|destruct (String.eqb shape_type "rectangle");
        [|destruct (String.eqb shape_type "triangle");
          [|destruct (String.eqb shape_type "semi-circle"); [|discriminate]]]]];
    injection Hkeys as <-.
  3:{ destruct (d !! "l") as [l|] eqn:Hl.
      - exists "w".
        assert (key = "w") as ->.
        { apply elem_of_cons in Hin as [->|Hin]; [congruence|].
          apply list_elem_of_singleton in Hin. exact Hin. }
        split; [exact Hin|]. split; [exact Hnone|].
        rewrite (bind_run _ _ _ _ _ (getitem_run params d h "l" l Hd Hl)).
        apply bind_raise, Hget, Hnone.
      - exists "l". split; [apply list_elem_of_here|]. split; [exact Hl|].
        apply bind_raise, Hget, Hl. }
  all: apply list_elem_of_singleton in Hin as ->;
    eexists; split; [apply list_elem_of_singleton; reflexivity|];
    split; [exact Hnone|]; apply bind_raise; apply Hget, Hnone.
Qed.

(** X4.  A rectangle whose width plus clearance is zero -- or whose
    length plus clearance is zero, once the first estimate has been
    computed -- makes [pack_shapes] raise [ZeroDivisionError] in the
    orientation estimate, before any loop and with the heap unchanged. *)
Theorem rectangle_zero_pitch_raises fuel params num_shapes
    (sheet_w sheet_h clearance : F) (h : heap F) d l w :
  h !! params = Some d → d !! "l" = Some l → d !! "w" = Some w →
  is_zero (w + clearance) = true ∨
  (is_zero (l + clearance) = true ∧
   ∃ rows1, to_int (sheet_h / (w + clearance)) = Ok rows1) →
  pack_shapes fuel "rectangle" params num_shapes sheet_w sheet_h clearance h
    = (h, Raise ZeroDivisionError).
Proof.
  intros Hd Hl Hw Hzero.
  unfold pack_shapes, grid_increments. cbn [String.eqb Ascii.eqb Bool.eqb].
  apply bind_raise.
  rewrite (getitem_bind params "l" _ h d Hd), Hl.
  rewrite (getitem_bind params "w" _ h d Hd), Hw.
  rewrite truediv_bind.
  destruct Hzero as [Hz | (Hz & rows1 & Hrows)].
  - rewrite Hz. reflexivity.
  - destruct (is_zero (w + clearance)); [reflexivity|].
    rewrite int_bind, Hrows, truediv_bind, Hz. reflexivity.
Qed.

End MoreErrors.

(** ** Every sheet repeats the first *)

Section Repeat.
Context {F : Type} `{NumF : Num F}.
Local Open Scope num_scope.

Variables (shape_type : string) (g : grid F) (params : loc) (num_shapes : Z).
Variables (sheet_w sheet_h : F).
Variables (d : gmap string F) (l w : F).
Hypothesis Hres : resolved g d l w.

(** Two runs of the column loop from the same column, the second with
    no more shapes left to place than the first: the second places an
    initial segment of what the first places. *)
Lemma col_loop_take fa x_offset y : ∀ fb col sa sb (ha hb ha' hb' : heap F) sa' sb',
  ha !! params = Some d → hb !! params = Some d →
  (placed sa ≤ placed sb)%Z →
  col_loop fa shape_type g params num_shapes sheet_w x_offset y col sa ha
    = (ha', Ok sa') →
  col_loop fb shape_type g params num_shapes sheet_w x_offset y col sb hb
    = (hb', Ok sb') →
  ∃ na nb,
    sheet_positions sa' = sheet_positions sa ++ na ∧
    sheet_positions sb' = sheet_positions sb ++ nb ∧
    placed sa' = (placed sa + Z.of_nat (length na))%Z ∧
    placed sb' = (placed sb + Z.of_nat (length nb))%Z ∧
    map strip nb = take (Z.to_nat (num_shapes - placed sb)) (map strip na).
Proof.
  induction fa as [|fa IH]; intros fb col sa sb ha hb ha' hb' sa' sb' Ha Hb Hle Hra Hrb;
    [discriminate|].
  destruct fb as [|fb]; [discriminate|].
  pose proof Hra as Hoka.
  apply (col_loop_ok _ _ _ _ _ _ _ _ Hres) in Hoka as (na0 & Hna0 & Hpa0 & _ & _);
    [|exact Ha].
  rewrite (col_loop_step _ _ _ _ _ _ _ _ Hres) in Hra, Hrb by assumption.
  destruct (gt _ _).
  { injection Hra as <- <-. injection Hrb as <- <-. exists [], [].
    rewrite !app_nil_r. cbn [map length]. rewrite take_nil.
    split; [reflexivity|]. split; [reflexivity|]. split; [lia|]. split; [lia|].
    reflexivity. }
  destruct (placed sb <? num_shapes)%Z eqn:Hlt.
  - apply Z.ltb_lt in Hlt.
    assert ((placed sa <? num_shapes)%Z = true) as Hlta by (apply Z.ltb_lt; lia).
    rewrite Hlta in Hra.
    match type of Hra with col_loop _ _ _ _ _ _ _ _ _ ?sa1 _ = _ =>
      match type of Hrb with col_loop _ _ _ _ _ _ _ _ _ ?sb1 _ = _ =>
        destruct (IH _ _ sa1 sb1 _ _ _ _ _ _ (lookup_app_l_Some _ _ _ _ Ha)
                    (lookup_app_l_Some _ _ _ _ Hb) ltac:(cbn; lia) Hra Hrb)
          as (na & nb & Hna & Hnb & Hpa & Hpb & Htake)
      end
    end.
    cbn [placed sheet_positions] in *.
    eexists (_ :: na), (_ :: nb).
    split; [rewrite Hna, <- app_assoc; reflexivity|].
    split; [rewrite Hnb, <- app_assoc; reflexivity|].
    split; [cbn [length]; lia|]. split; [cbn [length]; lia|].
    replace (Z.to_nat (num_shapes - placed sb))
      with (S (Z.to_nat (num_shapes - (placed sb + 1)))) by lia.
    cbn [map take]. rewrite Htake. reflexivity.
  - apply Z.ltb_ge in Hlt. injection Hrb as <- <-.
    exists na0, []. rewrite app_nil_r.
    split; [exact Hna0|]. split; [reflexivity|]. split; [exact Hpa0|].
    split; [cbn; lia|].
    replace (Z.to_nat (num_shapes - placed sb)) with 0%nat by lia.
    reflexivity.
Qed.

Lemma row_loop_take fa fuel0a : ∀ fb fuel0b row sa sb (ha hb ha' hb' : heap F) sa' sb',
  ha !! params = Some d → hb !! params = Some d → (0 ≤ row)%Z →
  (placed sa ≤ placed sb)%Z →
  row_loop fa fuel0a shape_type g params num_shapes sheet_w sheet_h row sa ha
    = (ha', Ok sa') →
  row_loop fb fuel0b shape_type g params num_shapes sheet_w sheet_h row sb hb
    = (hb', Ok sb') →
  ∃ na nb,
    sheet_positions sa' = sheet_positions sa ++ na ∧
    sheet_positions sb' = sheet_positions sb ++ nb ∧
    placed sa' = (placed sa + Z.of_nat (length na))%Z ∧
    placed sb' = (placed sb + Z.of_nat (length nb))%Z ∧
    map strip nb = take (Z.to_nat (num_shapes - placed sb)) (map strip na).
Proof.
  induction fa as [|fa IH];
    intros fb fuel0b row sa sb ha hb ha' hb' sa' sb' Ha Hb Hrow Hle Hra Hrb;
    [discriminate|].
  destruct fb as [|fb]; [discriminate|].
  rewrite (row_loop_step _ _ _ _ _ _ _ _ _ Hres) in Hra, Hrb by assumption.
  destruct (gt _ _).
  { injection Hra as <- <-. injection Hrb as <- <-. exists [], [].
    rewrite !app_nil_r. cbn [map length]. rewrite take_nil.
    split; [reflexivity|]. split; [reflexivity|]. split; [lia|]. split; [lia|].
    reflexivity. }
  destruct (col_loop fuel0a _ _ _ _ _ _ _ _ _ _) as [ha1 [sa1|?|]] eqn:Hca;
    try discriminate.
  destruct (col_loop fuel0b _ _ _ _ _ _ _ _ _ _) as [hb1 [sb1|?|]] eqn:Hcb;
    try discriminate.
  destruct (col_loop_take _ _ _ _ _ _ _ _ _ _ _ _ _ Ha Hb Hle Hca Hcb)
    as (na1 & nb1 & Hna1 & Hnb1 & Hpa1 & Hpb1 & Htake1).
  apply (col_loop_ok _ _ _ _ _ _ _ _ Hres) in Hca as (? & _ & _ & _ & Hadda);
    [|exact Ha].
  apply (col_loop_ok _ _ _ _ _ _ _ _ Hres) in Hcb as (? & _ & _ & _ & Haddb);
    [|exact Hb].
  pose proof (added_lookup _ _ _ _ _ _ Hadda Ha) as Ha1.
  pose proof (added_lookup _ _ _ _ _ _ Haddb Hb) as Hb1.
  assert (length nb1 = Nat.min (Z.to_nat (num_shapes - placed sb)) (length na1))
    as Hlen.
  { rewrite <- (length_map strip nb1), Htake1, length_take, length_map.
    reflexivity. }
  destruct (placed sb1 >=? num_shapes)%Z eqn:Hgeb.
  - apply Z.geb_le in Hgeb. injection Hrb as <- <-.
    destruct (placed sa1 >=? num_shapes)%Z.
    + injection Hra as <- <-. exists na1, nb1. auto.
    + apply (row_loop_ok _ _ _ _ _ _ _ _ _ Hres) in Hra
        as (na2 & Hna2 & Hpa2 & _ & _); [| exact Ha1 | lia].
      exists (na1 ++ na2), nb1.
      split; [rewrite Hna2, Hna1, app_assoc; reflexivity|].
      split; [exact Hnb1|].
      split; [rewrite length_app; lia|]. split; [exact Hpb1|].
      rewrite map_app, take_app_le; [exact Htake1|].
      rewrite length_map. lia.
  - rewrite Z.geb_leb in Hgeb. apply Z.leb_gt in Hgeb.
    assert ((placed sa1 >=? num_shapes)%Z = false) as Hgea.
    { rewrite Z.geb_leb. apply Z.leb_gt. lia. }
    rewrite Hgea in Hra.
    destruct (IH _ _ (row + 1)%Z sa1 sb1 _ _ _ _ _ _ Ha1 Hb1 ltac:(lia) ltac:(lia)
                Hra Hrb)
      as (na2 & nb2 & Hna2 & Hnb2 & Hpa2 & Hpb2 & Htake2).
    exists (na1 ++ na2), (nb1 ++ nb2).
    split; [rewrite Hna2, Hna1, app_assoc; reflexivity|].
    split; [rewrite Hnb2, Hnb1, app_assoc; reflexivity|].
    split; [rewrite length_app; lia|]. split; [rewrite length_app; lia|].
    rewrite !map_app, Htake2, Htake1.
    rewrite (take_ge (map strip na1)) by (rewrite length_map; lia).
    rewrite take_app_ge by (rewrite length_map; lia).
    rewrite length_map. do 2 f_equal. lia.
Qed.

(** The sheets a run of the sheet loop adds, against a sheet [ref] filled
    earlier, when no fewer shapes were left to place: each is an initial
    segment of [ref], and each but the last is all of [ref]. *)
Lemma sheet_loop_repeat fa fuel0a pref (href href' : heap F) stref fuel fuel0 :
  href !! params = Some d →
  row_loop fa fuel0a shape_type g params num_shapes sheet_w sheet_h 0
    {| placed := pref; sheet_positions := [] |} href = (href', Ok stref) →
  ∀ placed0 sheets (h h' : heap F) sheets',
  h !! params = Some d → (pref ≤ placed0)%Z →
  sheet_loop fuel fuel0 shape_type g params num_shapes sheet_w sheet_h
    placed0 sheets h = (h', Ok sheets') →
  ∃ news,
    sheets' = sheets ++ news ∧
    Forall (λ s, map strip s `prefix_of` map strip (sheet_positions stref)) news ∧
    Forall (λ s, map strip s = map strip (sheet_positions stref)) (removelast news).
Proof.
  intros Href Hrref.
  induction fuel as [|fuel IH]; intros placed0 sheets h h' sheets' Hd Hle Hrun.
  - cbn [sheet_loop] in Hrun.
    destruct (placed0 <? num_shapes)%Z; [discriminate|].
    injection Hrun as <- <-. exists [].
    split; [by rewrite app_nil_r|]. split; constructor.
  - rewrite sheet_loop_step in Hrun.
    destruct (placed0 <? num_shapes)%Z.
    2:{ injection Hrun as <- <-. exists [].
        split; [by rewrite app_nil_r|]. split; constructor. }
    destruct (row_loop fuel0 _ _ _ _ _ _ _ _ _ _) as [h1 [st|?|]] eqn:Hrow;
      try discriminate.
    destruct (row_loop_take _ _ _ _ _
                {| placed := pref; sheet_positions := [] |}
                {| placed := placed0; sheet_positions := [] |}
                _ _ _ _ _ _ Href Hd (Z.le_refl 0) Hle Hrref Hrow)
      as (na & nb & Hna & Hnb & _ & Hpb & Htake).
    cbn [placed sheet_positions app] in *. subst na nb.
    assert (map strip (sheet_positions st) `prefix_of`
              map strip (sheet_positions stref)) as Hpre.
    { rewrite Htake. eexists. symmetry. apply take_drop. }
    apply (row_loop_ok _ _ _ _ _ _ _ _ _ Hres) in Hrow
      as (? & _ & _ & _ & Hadd); [| exact Hd | lia].
    destruct (sheet_positions st) as [|ps rest] eqn:Hsp; [discriminate|].
    destruct (placed st >=? num_shapes)%Z eqn:Hge.
    + injection Hrun as <- <-. exists [ps :: rest].
      split; [reflexivity|]. split; [constructor; [exact Hpre | constructor]|].
      constructor.
    + rewrite Z.geb_leb in Hge. apply Z.leb_gt in Hge.
      apply IH in Hrun as (news & -> & Hall & Hbut);
        [| eapply added_lookup; eassumption | lia].
      exists ((ps :: rest) :: news).
      split; [rewrite <- app_assoc; reflexivity|].
      split; [constructor; assumption|].
      destruct news as [|s news]; [constructor|].
      change (removelast ((ps :: rest) :: s :: news))
        with ((ps :: rest) :: removelast (s :: news)).
      constructor; [|exact Hbut].
      rewrite Htake. apply take_ge.
      apply (f_equal length) in Htake.
      rewrite length_take, !length_map in Htake. rewrite length_map. lia.
Qed.

End Repeat.

Section RepeatClaim.
Context {F : Type} `{NumF : Num F}.
Local Open Scope num_scope.

Lemma pack_shapes_repeat fuel shape_type params num_shapes
    (sheet_w sheet_h clearance : F) (h h' : heap F) first rest :
  pack_shapes fuel shape_type params num_shapes sheet_w sheet_h clearance h
    = (h', Ok (first :: rest)) →
  Forall (λ sheet, map strip sheet `prefix_of` map strip first) rest ∧
  Forall (λ sheet, map strip sheet = map strip first)
    (removelast (first :: rest)).
Proof.
  intros Hrun. unfold pack_shapes in Hrun.
  apply bind_Ok_inv in Hrun as (h1 & [p' g] & Hg & Hrun). cbn [fst snd] in Hrun.
  destruct (grid_increments_ok _ _ _ _ _ _ _ _ _ Hg)
    as (d0 & d & l & w & _ & Hd & Hag & _).
  pose proof (grid_agrees_resolved _ _ _ _ _ Hag) as Hres.
  pose proof Hrun as Hrun'.
  destruct fuel as [|fuel].
  { cbn [sheet_loop] in Hrun. destruct (0 <? num_shapes)%Z; discriminate. }
  rewrite sheet_loop_step in Hrun.
  destruct (0 <? num_shapes)%Z; [|discriminate].
  destruct (row_loop _ _ _ _ _ _ _ _ _ _ _) as [h2 [st|?|]] eqn:Hrow;
    try discriminate.
  destruct (sheet_loop_repeat shape_type g p' num_shapes sheet_w sheet_h d l w
              Hres _ _ _ _ _ _ _ _ Hd Hrow _ _ _ _ _ Hd (Z.le_refl 0) Hrun')
    as (news & Hnews & Hall & Hbut).
  cbn [app] in Hnews. subst news.
  assert (sheet_positions st = first) as Hfirst.
  { destruct (sheet_positions st) as [|ps tl]; [discriminate|].
    destruct (placed st >=? num_shapes)%Z.
    - injection Hrun as _ Hs. cbn [app] in Hs. congruence.
    - apply (sheet_loop_ok _ _ _ _ _ _ _ _ _ Hres) in Hrun
        as (news & Hs & _).
      + cbn [app] in Hs. congruence.
      + apply (row_loop_ok _ _ _ _ _ _ _ _ _ Hres) in Hrow
          as (? & _ & _ & _ & Hadd); [| exact Hd | lia].
        eapply added_lookup; eassumption. }
  rewrite Hfirst in Hall, Hbut. split; [|exact Hbut].
  apply Forall_cons_1 in Hall as [_ Hall]. exact Hall.
Qed.

(** X5.  In a returned result, every sheet is laid out as the first one:
    the kinds and centres of its shapes are, in order, an initial
    segment of those of the first sheet, and every sheet but the last
    has them all.  (The dictionaries differ: each shape has its own
    copy.) *)
Theorem sheets_repeat_first fuel shape_type params num_shapes
    (sheet_w sheet_h clearance : F) (h : heap F) :
  match (pack_shapes fuel shape_type params num_shapes
           sheet_w sheet_h clearance h).2 with
  | Ok (first :: rest) =>
      Forall (λ sheet, map strip sheet `prefix_of` map strip first) rest ∧
      Forall (λ sheet, map strip sheet = map strip first)
        (removelast (first :: rest))
  | _ => True
  end.
Proof.
  destruct (pack_shapes _ _ _ _ _ _ _ _) as [h' [sheets|?|]] eqn:Hrun;
    cbn [snd]; [|exact I..].
  destruct sheets as [|first rest]; [exact I|].
  eapply pack_shapes_repeat, Hrun.
Qed.

Lemma full_sheets_count {A} (ls : list (list A)) (c : nat) :
  ls ≠ [] →
  Forall (λ s, length s = c) (removelast ls) →
  Forall (λ s, (1 ≤ length s ≤ c)%nat) ls →
  ((length ls - 1) * c < length (concat ls) ≤ length ls * c)%nat.
Proof.
  induction ls as [|s ls IH]; [congruence|]. intros _ Hfull Hall.
  apply Forall_cons_1 in Hall as [Hs Hall].
  destruct ls as [|s' ls].
  - cbn [concat length]. rewrite app_nil_r. lia.
  - change (removelast (s :: s' :: ls)) with (s :: removelast (s' :: ls)) in Hfull.
    apply Forall_cons_1 in Hfull as [Hc Hfull].
    specialize (IH ltac:(discriminate) Hfull Hall).
    cbn [concat length] in *. rewrite !length_app in *.
    replace (S (S (length ls)) - 1)%nat with (S (length ls)) by lia.
    replace (S (length ls) - 1)%nat with (length ls) in IH by lia.
    rewrite !Nat.mul_succ_l in *. lia.
Qed.

(** X15.  The number of sheets is the requested count divided by the
    count of the first sheet, rounded up: with [k] sheets returned and
    [c] shapes on the first, [(k - 1) * c < num_shapes <= k * c]. *)
Theorem sheet_count fuel shape_type params num_shapes
    (sheet_w sheet_h clearance : F) (h : heap F) :
  match (pack_shapes fuel shape_type params num_shapes
           sheet_w sheet_h clearance h).2 with
  | Ok (first :: rest) =>
      let k := Z.of_nat (length (first :: rest)) in
      let c := Z.of_nat (length first) in
      ((k - 1) * c < num_shapes ≤ k * c)%Z
  | _ => True
  end.
Proof.
  destruct (pack_shapes _ _ _ _ _ _ _ _) as [h' [sheets|?|]] eqn:Hrun;
    cbn [snd]; [|exact I..].
  destruct sheets as [|first rest]; [exact I|].
  destruct (pack_shapes_repeat _ _ _ _ _ _ _ _ _ _ _ Hrun) as [Hpre Hfull].
  apply pack_shapes_ok in Hrun
    as (_ & _ & _ & _ & _ & _ & _ & _ & _ & _ & _ & _ & Hne & Hcount & _).
  assert (Forall (λ s : list (PlacedShape F),
                    (1 ≤ length s ≤ length first)%nat) (first :: rest)) as Hall.
  { pose proof Hne as Hne'. apply Forall_cons_1 in Hne' as [Hf Hr].
    constructor.
    - destruct first; [congruence | cbn [length]; lia].
    - rewrite Forall_forall in Hpre, Hr. apply Forall_forall. intros s Hs.
      specialize (Hpre s Hs). specialize (Hr s Hs).
      apply prefix_length in Hpre. rewrite !length_map in Hpre.
      destruct s; [congruence | cbn [length] in *; lia]. }
  assert (Forall (λ s : list (PlacedShape F), length s = length first)
            (removelast (first :: rest))) as Hfull'.
  { eapply Forall_impl; [exact Hfull|]. intros s Hs. cbn beta in Hs.
    apply (f_equal length) in Hs. rewrite !length_map in Hs. exact Hs. }
  pose proof (full_sheets_count (first :: rest) (length first)
                ltac:(discriminate) Hfull' Hall) as Hk.
  cbn zeta. nia.
Qed.

End RepeatClaim.

(** ** The order of the shapes on a sheet *)

Section Order.
Context {F : Type} `{NumF : Num F}.
Local Open Scope num_scope.

Variables (shape_type : string) (g : grid F) (params : loc) (num_shapes : Z).
Variables (sheet_w sheet_h : F).
Variables (d : gmap string F) (l w : F).
Hypothesis Hres : resolved g d l w.

(** The shape of the grid at a row and a column, without its
    dictionary. *)
Definition cell (rc : Z * Z) : string * F * F :=
  (shape_type, x_at g l (row_x_offset g rc.1) rc.2, y_at g w rc.1).

(** Row by row, and by increasing column in a row. *)
Definition row_major (a b : Z * Z) : Prop :=
  (a.1 < b.1)%Z ∨ (a.1 = b.1 ∧ a.2 < b.2)%Z.

Definition increasing (idx : list (Z * Z)) : Prop :=
  ∀ i j a b, (i < j)%nat → idx !! i = Some a → idx !! j = Some b →
    row_major a b.

Lemma increasing_nil : increasing [].
Proof. intros i j a b _ Hi. rewrite lookup_nil in Hi. discriminate. Qed.

Lemma increasing_app idx1 idx2 :
  increasing idx1 → increasing idx2 →
  (∀ a b, a ∈ idx1 → b ∈ idx2 → row_major a b) →
  increasing (idx1 ++ idx2).
Proof.
  intros H1 H2 H12 i j a b Hij Hi Hj.
  apply lookup_app_Some in Hi as [Hi | [Hge Hi]];
    apply lookup_app_Some in Hj as [Hj | [Hge' Hj]].
  - eapply H1; eassumption.
  - apply H12; eapply list_elem_of_lookup_2; eassumption.
  - apply lookup_lt_Some in Hj. lia.
  - eapply (H2 (i - length idx1)%nat (j - length idx1)%nat);
      [lia | eassumption..].
Qed.

(** The columns a run of the column loop fills are consecutive. *)
Lemma col_loop_cells fuel x_offset y : ∀ col st (h h' : heap F) st',
  h !! params = Some d →
  col_loop fuel shape_type g params num_shapes sheet_w x_offset y col st h
    = (h', Ok st') →
  ∃ new k,
    (0 ≤ k)%Z ∧
    sheet_positions st' = sheet_positions st ++ new ∧
    map strip new
      = map (λ c, (shape_type, x_at g l x_offset c, y)) (seqZ col k).
Proof.
  induction fuel as [|fuel IH]; intros col st h h' st' Hd Hrun; [discriminate|].
  rewrite (col_loop_step _ _ _ _ _ _ _ _ Hres) in Hrun by exact Hd.
  destruct (gt _ _).
  { injection Hrun as <- <-. exists [], 0%Z.
    split; [lia|]. split; [by rewrite app_nil_r | reflexivity]. }
  destruct (placed st <? num_shapes)%Z.
  2:{ injection Hrun as <- <-. exists [], 0%Z.
      split; [lia|]. split; [by rewrite app_nil_r | reflexivity]. }
  apply IH in Hrun as (new & k & Hk & Hnew & Hcells);
    [| apply lookup_app_l_Some, Hd].
  cbn [sheet_positions] in Hnew.
  eexists (_ :: new), (k + 1)%Z.
  split; [lia|]. split; [rewrite Hnew, <- app_assoc; reflexivity|].
  rewrite seqZ_cons by lia.
  replace (Z.succ col) with (col + 1)%Z by lia.
  replace (Z.pred (k + 1)) with k by lia.
  cbn [map]. rewrite Hcells. reflexivity.
Qed.

(** The shapes a run of the row loop adds are cells of the grid, in
    row-major order. *)
Lemma row_loop_cells fuel fuel0 : ∀ row st (h h' : heap F) st',
  h !! params = Some d →
  row_loop fuel fuel0 shape_type g params num_shapes sheet_w sheet_h row st h
    = (h', Ok st') →
  ∃ new idx,
    sheet_positions st' = sheet_positions st ++ new ∧
    map strip new = map cell idx ∧
    increasing idx ∧
    Forall (λ rc, (row ≤ rc.1)%Z ∧ (0 ≤ rc.2)%Z) idx.
Proof.
  induction fuel as [|fuel IH]; intros row st h h' st' Hd Hrun; [discriminate|].
  rewrite (row_loop_step _ _ _ _ _ _ _ _ _ Hres) in Hrun by exact Hd.
  destruct (gt _ _).
  { injection Hrun as <- <-. exists [], [].
    split; [by rewrite app_nil_r|]. split; [reflexivity|].
    split; [apply increasing_nil | constructor]. }
  destruct (col_loop _ _ _ _ _ _ _ _ _ _ _) as [h1 [st1|?|]] eqn:Hcol;
    try discriminate.
  pose proof Hcol as Hcol'.
  apply col_loop_cells in Hcol' as (new1 & k & Hk & Hnew1 & Hcells1);
    [|exact Hd].
  apply (col_loop_ok _ _ _ _ _ _ _ _ Hres) in Hcol as (? & _ & _ & _ & Hadd);
    [|exact Hd].
  pose proof (added_lookup _ _ _ _ _ _ Hadd Hd) as Hd1.
  set (idx1 := map (λ c, (row, c)) (seqZ 0 k)).
  assert (map strip new1 = map cell idx1) as Hcells1'.
  { rewrite Hcells1. unfold idx1. rewrite map_map. reflexivity. }
  assert (increasing idx1) as Hinc1.
  { intros i j a b Hij Hi Hj. unfold idx1 in Hi, Hj.
    change (map ?f ?l) with (f <$> l) in Hi, Hj.
    rewrite list_lookup_fmap in Hi, Hj.
    destruct (seqZ 0 k !! i) as [ci|] eqn:Hci; [|discriminate].
    destruct (seqZ 0 k !! j) as [cj|] eqn:Hcj; [|discriminate].
    injection Hi as <-. injection Hj as <-.
    apply lookup_seqZ in Hci as [-> _]. apply lookup_seqZ in Hcj as [-> _].
    right. cbn. lia. }
  assert (Forall (λ rc : Z * Z, (rc.1 = row)%Z ∧ (0 ≤ rc.2)%Z) idx1) as Hall1.
  { unfold idx1. apply Forall_forall. intros rc Hrc.
    change (map ?f ?l) with (f <$> l) in Hrc.
    apply list_elem_of_fmap in Hrc as (c & -> & Hc).
    apply elem_of_seqZ in Hc. cbn. lia. }
  destruct (placed st1 >=? num_shapes)%Z.
  { injection Hrun as <- <-. exists new1, idx1.
    split; [exact Hnew1|]. split; [exact Hcells1'|]. split; [exact Hinc1|].
    eapply Forall_impl; [exact Hall1|]. intros rc [-> ?]. split; [lia | done]. }
  apply IH in Hrun as (new2 & idx2 & Hnew2 & Hcells2 & Hinc2 & Hall2);
    [|exact Hd1].
  exists (new1 ++ new2), (idx1 ++ idx2).
  split; [rewrite Hnew2, Hnew1, app_assoc; reflexivity|].
  split; [rewrite !map_app, Hcells1', Hcells2; reflexivity|].
  split.
  - apply increasing_app; [exact Hinc1 | exact Hinc2 |].
    intros a b Ha Hb.
    rewrite Forall_forall in Hall1, Hall2.
    destruct (Hall1 a Ha) as [Ha1 _]. destruct (Hall2 b Hb) as [Hb1 _].
    left. lia.
  - apply Forall_app. split.
    + eapply Forall_impl; [exact Hall1|]. intros rc [-> ?]. split; [lia | done].
    + eapply Forall_impl; [exact Hall2|]. intros rc [? ?]. split; [lia | done].
Qed.

End Order.

Section Cells.
Context {F : Type} `{NumF : Num F}.
Local Open Scope num_scope.

(** The cells of the shapes of a sheet, by position in the list. *)
Lemma sheet_cells shape_type (g : grid F) params num_shapes sheet_w sheet_h
    d l w fuel0 sheet :
  resolved g d l w →
  sheet_of_row_loop shape_type g params num_shapes sheet_w sheet_h d fuel0 sheet →
  ∃ idx,
    increasing idx ∧
    Forall (λ rc : Z * Z, (0 ≤ rc.1)%Z ∧ (0 ≤ rc.2)%Z) idx ∧
    ∀ i p, sheet !! i = Some p →
      ∃ rc, idx !! i = Some rc ∧ strip p = cell shape_type g l w rc.
Proof.
  intros Hres (placed0 & ha & hb & st' & Hda & Hrow & -> & _).
  apply (row_loop_cells _ _ _ _ _ _ _ _ _ Hres) in Hrow
    as (new & idx & Hnew & Hcells & Hinc & Hall); [|exact Hda].
  cbn [sheet_positions app] in Hnew. subst new.
  exists idx. split; [exact Hinc|]. split; [exact Hall|].
  intros i p Hi.
  assert (map strip (sheet_positions st') !! i = Some (strip p)) as Hs.
  { change (map ?f ?l) with (f <$> l). rewrite list_lookup_fmap, Hi.
    reflexivity. }
  rewrite Hcells in Hs. change (map ?f ?l) with (f <$> l) in Hs.
  rewrite list_lookup_fmap in Hs.
  destruct (idx !! i) as [rc|]; [|discriminate].
  exists rc. split; [reflexivity|].
  change (Some (cell shape_type g l w rc) = Some (strip p)) in Hs.
  congruence.
Qed.

(** Two shapes of a returned sheet sit in two cells of the grid, the
    later shape in the later cell. *)
Lemma placed_cells fuel shape_type params num_shapes
    (sheet_w sheet_h clearance : F) (h h1 h' : heap F) p' g d l w sheets :
  grid_increments shape_type params sheet_w sheet_h clearance h
    = (h1, Ok (p', g)) →
  h1 !! p' = Some d → grid_agrees shape_type g d l w →
  pack_shapes fuel shape_type params num_shapes sheet_w sheet_h clearance h
    = (h', Ok sheets) →
  ∀ sheet i j p q,
    sheet ∈ sheets → (i < j)%nat →
    sheet !! i = Some p → sheet !! j = Some q →
    ∃ a b, row_major a b ∧
      strip p = cell shape_type g l w a ∧ strip q = cell shape_type g l w b.
Proof.
  intros Hg Hd Hag Hrun sheet i j p q Hsheet Hij Hi Hj.
  pose proof (grid_agrees_resolved _ _ _ _ _ Hag) as Hres.
  unfold pack_shapes in Hrun. rewrite (bind_run _ _ _ _ _ Hg) in Hrun.
  cbn [fst snd] in Hrun.
  destruct (sheet_loop_sheets _ _ _ _ _ _ _ _ _ Hres _ _ _ _ _ _ _ Hd Hrun)
    as (news & Hs & Hall).
  cbn [app] in Hs. subst news. rewrite Forall_forall in Hall.
  destruct (sheet_cells _ _ _ _ _ _ _ _ _ _ _ Hres (Hall sheet Hsheet))
    as (idx & Hinc & _ & Hcell).
  destruct (Hcell i p Hi) as (a & Ha & Hpa).
  destruct (Hcell j q Hj) as (b & Hb & Hqb).
  exists a, b. split; [eapply Hinc; eassumption | split; assumption].
Qed.

End Cells.

Section Apart.
Local Open Scope R_scope.

Lemma IZR_ge_1 z : (1 ≤ z)%Z → 1 <= IZR z.
Proof. intros Hz. apply IZR_le in Hz. exact Hz. Qed.

(** Of two cells of the grid, the later one is in the same row, a
    pitch or more to the right, or a row or more higher. *)
Lemma cells_apart shape_type (g : grid R) l w a b (p q : PlacedShape R) :
  grid_positive g l w → row_major a b →
  strip p = cell shape_type g l w a → strip q = cell shape_type g l w b →
  (ps_y q = ps_y p ∧ grid_dx g <= ps_x q - ps_x p) ∨
  grid_dy g <= ps_y q - ps_y p.
Proof.
  intros (Hdx & Hdy & _) Hab Hpa Hqb.
  unfold strip, cell in Hpa, Hqb.
  injection Hpa as _ Hpx Hpy. injection Hqb as _ Hqx Hqy.
  rewrite Hpx, Hpy, Hqx, Hqy.
  destruct Hab as [Hlt | [Heq Hlt]].
  - right. unfold y_at. cbn [add mul of_int R_Num].
    assert (1 <= IZR (b.1 - a.1)) as H1 by (apply IZR_ge_1; lia).
    rewrite minus_IZR in H1. nra.
  - left. rewrite Heq. split; [reflexivity|].
    unfold x_at. cbn [add mul of_int R_Num].
    assert (1 <= IZR (b.2 - a.2)) as H1 by (apply IZR_ge_1; lia).
    rewrite minus_IZR in H1. nra.
Qed.


Lemma consecutive_parity z :
  ((z mod 2 =? 0) = negb ((z + 1) mod 2 =? 0))%Z.
Proof.
  pose proof (Z.div_mod z 2 ltac:(lia)).
  pose proof (Z.div_mod (z + 1) 2 ltac:(lia)).
  pose proof (Z.mod_pos_bound z 2 ltac:(lia)).
  pose proof (Z.mod_pos_bound (z + 1) 2 ltac:(lia)).
  destruct (Z.eqb_spec (z mod 2) 0), (Z.eqb_spec ((z + 1) mod 2) 0);
    cbn [negb]; try reflexivity; lia.
Qed.


(** The width and the height of a shape, from its kind and the
    parameters stored in it: the sides of a square and of a rectangle,
    the side and the height of a triangle, the diameter and the radius
    of a semicircle, the diameter of a circle. *)
Definition extent (shape_type : string) (d : gmap string R) : option (R * R) :=
  if String.eqb shape_type "circle" then
    (λ r, (2 * r, 2 * r)) <$> d !! "r"
  else if String.eqb shape_type "square" then
    (λ L, (L, L)) <$> d !! "L"
  else if String.eqb shape_type "rectangle" then
    match d !! "l", d !! "w" with
    | Some l, Some w => Some (l, w)
    | _, _ => None
    end
  else if String.eqb shape_type "triangle" then
    (λ a, (a, a * sqrt 3 / 2)) <$> d !! "a"
  else if String.eqb shape_type "semi-circle" then
    (λ r, (2 * r, r)) <$> d !! "r"
  else None.

(** The increments of every kind but the circle, when [params] is not
    rebound: the extent of the shape plus the clearance. *)
Lemma grid_increments_extent shape_type params sheet_w sheet_h clearance
    (h h1 : heap R) d g :
  h !! params = Some d → shape_type ≠ "circle" →
  grid_increments shape_type params sheet_w sheet_h clearance h
    = (h1, Ok (params, g)) →
  ∃ width height,
    extent shape_type d = Some (width, height) ∧
    grid_dx g = width + clearance ∧ grid_dy g = height + clearance.
Proof.
  intros Hd Hkind Hrun.
  destruct (grid_increments_ok _ _ _ _ _ _ _ _ _ Hrun)
    as (d0 & d' & l & w & Hd0 & _ & Hag & _).
  rewrite Hd in Hd0. injection Hd0 as <-.
  unfold grid_increments in Hrun. unfold extent.
  destruct g; cbn in Hag; destruct_and!; subst shape_type;
    try congruence; cbn [String.eqb Ascii.eqb Bool.eqb] in *.
  - apply bind_Ok_inv in Hrun as (h2 & L' & HL & Hrun).
    apply getitem_Ok_inv in HL as (-> & d2 & Hd2 & HL).
    rewrite Hd in Hd2. injection Hd2 as <-.
    injection Hrun as _ <- <- <-. rewrite HL. cbn. eauto.
  - apply (grid_increments_rectangle params sheet_w sheet_h clearance h h1
             params (Rectangle dx dy)) in Hrun
      as (d2 & l' & w' & r1 & c1 & r2 & c2 & Hd2 & Hl & Hw & _ & _
          & _ & _ & _ & _ & Hcase).
    rewrite Hd in Hd2. injection Hd2 as <-.
    destruct (r1 * c1 >=? r2 * c2)%Z.
    + destruct Hcase as (_ & _ & [= -> ->]). rewrite Hl, Hw. cbn. eauto.
    + destruct Hcase as (_ & Hp & _). apply lookup_lt_Some in Hd. lia.
  - apply bind_Ok_inv in Hrun as (h2 & a' & Ha & Hrun).
    apply getitem_Ok_inv in Ha as (-> & d2 & Hd2 & Ha).
    rewrite Hd in Hd2. injection Hd2 as <-.
    injection Hrun as _ <- <- <-. rewrite Ha. cbn. eauto.
  - apply bind_Ok_inv in Hrun as (h2 & r' & Hr & Hrun).
    apply getitem_Ok_inv in Hr as (-> & d2 & Hd2 & Hr).
    rewrite Hd in Hd2. injection Hd2 as <-.
    injection Hrun as _ <- <- <-. rewrite Hr. cbn. eauto.
Qed.


End Apart.

(** ** A sheet that is not the last is full *)

Section Full.
Local Open Scope R_scope.

Variables (shape_type : string) (g : grid R) (params : loc) (num_shapes : Z).
Variables (sheet_w sheet_h : R).
Variables (d : gmap string R) (l w : R).
Hypothesis Hres : resolved g d l w.
Hypothesis Hgp : grid_positive g l w.

Lemma x_at_mono x_offset c c' :
  (c ≤ c')%Z → x_at g l x_offset c <= x_at g l x_offset c'.
Proof.
  intros Hc. destruct Hgp as (Hdx & _). unfold x_at.
  cbn [add mul of_int R_Num]. apply IZR_le in Hc. nra.
Qed.

Lemma y_at_mono r r' : (r ≤ r')%Z → y_at g w r <= y_at g w r'.
Proof.
  intros Hr. destruct Hgp as (_ & Hdy & _). unfold y_at.
  cbn [add mul of_int R_Num]. apply IZR_le in Hr. nra.
Qed.

(** A run of the column loop that leaves shapes to place has filled
    every column that passes the check. *)
Lemma col_loop_full fuel x_offset y : ∀ col st (h h' : heap R) st',
  h !! params = Some d →
  col_loop fuel shape_type g params num_shapes sheet_w x_offset y col st h
    = (h', Ok st') →
  (placed st' < num_shapes)%Z →
  ∃ new,
    sheet_positions st' = sheet_positions st ++ new ∧
    ∀ c, (col ≤ c)%Z →
      gt (x_at g l x_offset c) (sheet_w - half_extent_x g l) = false →
      (shape_type, x_at g l x_offset c, y) ∈ map strip new.
Proof.
  induction fuel as [|fuel IH]; intros col st h h' st' Hd Hrun Hleft;
    [discriminate|].
  rewrite (col_loop_step _ _ _ _ _ _ _ _ Hres) in Hrun by exact Hd.
  destruct (gt _ _) eqn:Hgt.
  { injection Hrun as <- <-. exists []. split; [by rewrite app_nil_r|].
    intros c Hc Hfit. exfalso.
    apply gt_true in Hgt. apply gt_false in Hfit.
    pose proof (x_at_mono x_offset col c Hc). cbn [sub R_Num] in *. lra. }
  destruct (placed st <? num_shapes)%Z eqn:Hlt.
  2:{ injection Hrun as <- <-. apply Z.ltb_ge in Hlt. lia. }
  apply IH in Hrun as (new & Hnew & Hfull);
    [| apply lookup_app_l_Some, Hd | exact Hleft].
  cbn [sheet_positions] in Hnew.
  eexists (_ :: new). split; [rewrite Hnew, <- app_assoc; reflexivity|].
  intros c Hc Hfit. cbn [map].
  destruct (Z.eq_dec c col) as [->|Hne].
  - apply list_elem_of_here.
  - apply list_elem_of_further. apply Hfull; [lia | exact Hfit].
Qed.

(** A run of the row loop that leaves shapes to place has filled every
    position that passes both checks. *)
Lemma row_loop_full fuel fuel0 : ∀ row st (h h' : heap R) st',
  h !! params = Some d →
  row_loop fuel fuel0 shape_type g params num_shapes sheet_w sheet_h row st h
    = (h', Ok st') →
  (placed st' < num_shapes)%Z →
  ∃ new,
    sheet_positions st' = sheet_positions st ++ new ∧
    ∀ r c, (row ≤ r)%Z → (0 ≤ c)%Z →
      row_fits g w sheet_h r = true → col_fits g l sheet_w r c = true →
      cell shape_type g l w (r, c) ∈ map strip new.
Proof.
  induction fuel as [|fuel IH]; intros row st h h' st' Hd Hrun Hleft;
    [discriminate|].
  rewrite (row_loop_step _ _ _ _ _ _ _ _ _ Hres) in Hrun by exact Hd.
  destruct (gt _ _) eqn:Hgt.
  { injection Hrun as <- <-. exists []. split; [by rewrite app_nil_r|].
    intros r c Hr _ Hfit _. exfalso.
    unfold row_fits in Hfit. apply negb_true_iff in Hfit.
    apply gt_true in Hgt. apply gt_false in Hfit.
    pose proof (y_at_mono row r Hr). cbn [sub R_Num] in *. lra. }
  destruct (col_loop _ _ _ _ _ _ _ _ _ _ _) as [h1 [st1|?|]] eqn:Hcol;
    try discriminate.
  pose proof Hcol as Hcol'.
  apply (col_loop_ok _ _ _ _ _ _ _ _ Hres) in Hcol' as (? & _ & _ & _ & Hadd);
    [|exact Hd].
  pose proof (added_lookup _ _ _ _ _ _ Hadd Hd) as Hd1.
  destruct (placed st1 >=? num_shapes)%Z eqn:Hge.
  { injection Hrun as <- <-. apply Z.geb_le in Hge. lia. }
  rewrite Z.geb_leb in Hge. apply Z.leb_gt in Hge.
  apply col_loop_full in Hcol as (new1 & Hnew1 & Hfull1); [| exact Hd | exact Hge].
  apply IH in Hrun as (new2 & Hnew2 & Hfull2); [| exact Hd1 | exact Hleft].
  exists (new1 ++ new2).
  split; [rewrite Hnew2, Hnew1, app_assoc; reflexivity|].
  intros r c Hr Hc Hrf Hcf. rewrite map_app. apply elem_of_app.
  destruct (Z.eq_dec r row) as [->|Hne].
  - left. unfold cell. cbn [fst snd]. apply Hfull1; [lia|].
    unfold col_fits in Hcf. apply negb_true_iff in Hcf. exact Hcf.
  - right. apply Hfull2; [lia | assumption..].
Qed.

Definition full (sheet : list (PlacedShape R)) : Prop :=
  ∀ r c, (0 ≤ r)%Z → (0 ≤ c)%Z →
    row_fits g w sheet_h r = true → col_fits g l sheet_w r c = true →
    cell shape_type g l w (r, c) ∈ map strip sheet.

Lemma sheet_loop_full fuel fuel0 : ∀ placed0 sheets (h h' : heap R) sheets',
  h !! params = Some d →
  sheet_loop fuel fuel0 shape_type g params num_shapes sheet_w sheet_h
    placed0 sheets h = (h', Ok sheets') →
  ∃ news, sheets' = sheets ++ news ∧ Forall full (removelast news).
Proof.
  induction fuel as [|fuel IH]; intros placed0 sheets h h' sheets' Hd Hrun.
  - cbn [sheet_loop] in Hrun.
    destruct (placed0 <? num_shapes)%Z; [discriminate|].
    injection Hrun as <- <-. exists [].
    split; [by rewrite app_nil_r | constructor].
  - rewrite sheet_loop_step in Hrun.
    destruct (placed0 <? num_shapes)%Z.
    2:{ injection Hrun as <- <-. exists [].
        split; [by rewrite app_nil_r | constructor]. }
    destruct (row_loop _ _ _ _ _ _ _ _ _ _ _) as [h1 [st|?|]] eqn:Hrow;
      try discriminate.
    pose proof Hrow as Hrow'.
    apply (row_loop_ok _ _ _ _ _ _ _ _ _ Hres) in Hrow'
      as (? & _ & _ & _ & Hadd); [| exact Hd | lia].
    pose proof (added_lookup _ _ _ _ _ _ Hadd Hd) as Hd1.
    destruct (sheet_positions st) as [|ps rest] eqn:Hsp; [discriminate|].
    destruct (placed st >=? num_shapes)%Z eqn:Hge.
    + injection Hrun as <- <-. exists [ps :: rest].
      split; [reflexivity | constructor].
    + rewrite Z.geb_leb in Hge. apply Z.leb_gt in Hge.
      apply row_loop_full in Hrow as (new & Hnew & Hfull);
        [| exact Hd | exact Hge].
      cbn [sheet_positions app] in Hnew. rewrite Hsp in Hnew. subst new.
      apply IH in Hrun as (news & -> & Hall); [|exact Hd1].
      exists ((ps :: rest) :: news).
      split; [rewrite <- app_assoc; reflexivity|].
      destruct news as [|s news]; [constructor|].
      change (removelast ((ps :: rest) :: s :: news))
        with ((ps :: rest) :: removelast (s :: news)).
      constructor; [|exact Hall].
      intros r c Hr Hc Hrf Hcf. apply Hfull; assumption.
Qed.

End Full.

Section FullClaim.
Local Open Scope R_scope.


End FullClaim.

(** ** The main script and [visualize_sheets] *)

(** Besides the exceptions of [pack_shapes], the script can fail on
    [sheets[0]]. *)
Inductive script_exn : Type :=
| Raised (e : exn)
| IndexError.

(** How the "Calculate Packing" handler ends: with something to show, or
    in its [except Exception] clause, which shows the error. *)
Inductive script_outcome (A : Type) : Type :=
| Shown (a : A)
| Caught (e : script_exn)
| Unfinished.
Arguments Shown {A} a.
Arguments Caught {A} e.
Arguments Unfinished {A}.

Section Script.
Context {F : Type} `{NumF : Num F}.
Local Open Scope num_scope.

(** A decimal literal [num/den] of the source ([0.1], [0.25], [-0.2],
    [0.5]): the quotient, correctly rounded on floats. *)
Definition lit (num den : Z) : F := #num / #den.

(** The artists [visualize_sheets] adds to the axes.  A rectangle is given
    by its lower left corner, a wedge by its centre, radius and angles
    in degrees; [facecolor = None] is [fill=False].  Every shape is
    drawn with [edgecolor='black', alpha=0.8]. *)
Inductive patch : Type :=
| CirclePatch (x y r : F) (facecolor : string)
| RectanglePatch (x y width height : F) (facecolor : option string)
| PolygonPatch (pts : list (F * F)) (facecolor : string)
| WedgePatch (x y r : F) (theta1 theta2 : Z) (facecolor : string).

(** The texts, with the values their f-strings format. *)
Inductive label : Type :=
| PackedLabel (x y : F) (shape_count : nat) (shape_type : string)
| UnusedLabel (x y : F) (unused_area unused_percentage : F)
| ClearanceLabel (x y : F) (clearance_mm : F).

Record figure : Type := {
  patches : list patch;
  texts : list label;
  xlim : F * F;
  ylim : F * F
}.

(** [color_map.get(t, 'gray')]. *)
Definition color_map (t : string) : string :=
  if String.eqb t "circle" then "skyblue"
  else if String.eqb t "square" then "lightgreen"
  else if String.eqb t "rectangle" then "lightcoral"
  else if String.eqb t "triangle" then "plum"
  else if String.eqb t "semi-circle" then "gold"
  else "gray".

(** The body of [for shape in sheet]: the patches it adds.  A shape of
    an unknown kind is skipped. *)
Definition draw_shape (shape : PlacedShape F) : M F (list patch) :=
  let t := ps_type shape in
  let p := ps_params shape in
  let x := ps_x shape in
  let y := ps_y shape in
  let color := color_map t in
  if String.eqb t "circle" then
    r ← getitem p "r";
    mret [CirclePatch x y r color]
  else if String.eqb t "square" then
    L ← getitem p "L";
    mret [RectanglePatch (x - L / #2) (y - L / #2) L L (Some color)]
  else if String.eqb t "rectangle" then
    l ← getitem p "l";
    w ← getitem p "w";
    mret [RectanglePatch (x - l / #2) (y - w / #2) l w (Some color)]
  else if String.eqb t "triangle" then
    a ← getitem p "a";
    let h := a * math_sqrt #3 / #2 in
    let pts := [ (x, y + #2 * h / #3);
                 (x - a / #2, y - h / #3);
                 (x + a / #2, y - h / #3) ] in
    mret [PolygonPatch pts color]
  else if String.eqb t "semi-circle" then
    r ← getitem p "r";
    mret [WedgePatch x y r 0 180 color]
  else mret [].

Fixpoint draw_shapes (sheet : list (PlacedShape F)) : M F (list patch) :=
  match sheet with
  | [] => mret []
  | shape :: rest =>
      ps ← draw_shape shape;
      qs ← draw_shapes rest;
      mret (ps ++ qs)
  end.

(** "Sheet information": the texts above and below the sheet. *)
Definition sheet_information (sheet : list (PlacedShape F))
    (sheet_w sheet_h clearance_mm unused_area unused_percentage : F)
    : list label :=
  match sheet with
  | [] => []
  | first :: _ =>
      [PackedLabel (sheet_w / #2) (sheet_h + lit 1 10) (length sheet)
         (ps_type first)]
      ++ (if gt unused_area #0
          then [UnusedLabel (sheet_w / #2) (sheet_h + lit 1 4)
                  unused_area unused_percentage]
          else [])
      ++ (if gt clearance_mm #0
          then [ClearanceLabel (sheet_w / #2) (lit (-2) 10) clearance_mm]
          else [])
  end.

(** [visualize_sheets]: only [sheets[0]] is drawn.  (The aspect, the
    grid lines, the axis labels and the title are constants.) *)
Definition visualize_sheets (sheets : list (list (PlacedShape F)))
    (sheet_w sheet_h clearance_m clearance_mm unused_area unused_percentage : F)
    (h : heap F) : heap F * script_outcome figure :=
  match sheets with
  | [] => (h, Caught IndexError)
  | sheet :: _ =>
      let border := RectanglePatch #0 #0 sheet_w sheet_h None in
      let info := sheet_information sheet sheet_w sheet_h clearance_mm
                    unused_area unused_percentage in
      match draw_shapes sheet h with
      | (h', Ok ps) =>
          (h', Shown {| patches := border :: ps;
                        texts := info;
                        xlim := (lit (-1) 2, sheet_w + lit 1 2);
                        ylim := (lit (-1) 2, sheet_h + lit 1 2) |})
      | (h', Raise e) => (h', Caught (Raised e))
      | (h', OutOfFuel) => (h', Unfinished)
      end
  end.

(** What the handler computes before it displays anything. *)
Record results : Type := {
  count_on_sheet : Z;
  theoretical_maximum : Z;
  total_sheets : nat;
  total_shapes : Z;
  efficiency : F;
  unused_area : F;
  unused_percentage : F;
  packed : list (list (PlacedShape F))
}.

(** [sum(len(sheet) for sheet in sheets)]. *)
Definition sum_len (sheets : list (list (PlacedShape F))) : Z :=
  foldr (λ sheet acc, (Z.of_nat (length sheet) + acc)%Z) 0%Z sheets.

(** The [try] block of the handler up to the display: [clearance] is in
    millimetres, the request made to [pack_shapes] is the area bound.
    ([count_on_sheet / area_bound] divides two [int]s: the quotient of
    their conversions, which is Python's result below 2^53.) *)
Definition calculate (fuel : nat) (shape_type : string) (shape_params : loc)
    (sheet_w sheet_h clearance : F) (h : heap F)
    : heap F * script_outcome results :=
  let clearance_m := clearance / #1000 in
  match area_bound shape_type shape_params sheet_w sheet_h h with
  | (h1, Ok bound) =>
      match pack_shapes fuel shape_type shape_params bound
              sheet_w sheet_h clearance_m h1 with
      | (h2, Ok sheets) =>
          match sheets with
          | [] => (h2, Caught IndexError)
          | first :: _ =>
              let count := Z.of_nat (length first) in
              if (bound =? 0)%Z then (h2, Caught (Raised ZeroDivisionError))
              else
                let eff := #count / #bound * #100 in
                match calculate_unused_area shape_type shape_params
                        sheet_w sheet_h count h2 with
                | (h3, Ok unused) =>
                    if is_zero (sheet_w * sheet_h)
                    then (h3, Caught (Raised ZeroDivisionError))
                    else
                      (h3, Shown {| count_on_sheet := count;
                                    theoretical_maximum := bound;
                                    total_sheets := length sheets;
                                    total_shapes := sum_len sheets;
                                    efficiency := eff;
                                    unused_area := unused;
                                    unused_percentage :=
                                      unused / (sheet_w * sheet_h) * #100;
                                    packed := sheets |})
                | (h3, Raise e) => (h3, Caught (Raised e))
                | (h3, OutOfFuel) => (h3, Unfinished)
                end
          end
      | (h2, Raise e) => (h2, Caught (Raised e))
      | (h2, OutOfFuel) => (h2, Unfinished)
      end
  | (h1, Raise e) => (h1, Caught (Raised e))
  | (h1, OutOfFuel) => (h1, Unfinished)
  end.

(** The handler with its visualization column: the figure
    [visualize_sheets] returns for the sheets, the two clearances and
    the unused area just computed. *)
Definition calculate_and_draw (fuel : nat) (shape_type : string)
    (shape_params : loc) (sheet_w sheet_h clearance : F) (h : heap F)
    : heap F * script_outcome (results * figure) :=
  match calculate fuel shape_type shape_params sheet_w sheet_h clearance h with
  | (h1, Shown r) =>
      match visualize_sheets (packed r) sheet_w sheet_h
              (clearance / #1000) clearance
              (unused_area r) (unused_percentage r) h1 with
      | (h2, Shown fig) => (h2, Shown (r, fig))
      | (h2, Caught e) => (h2, Caught e)
      | (h2, Unfinished) => (h2, Unfinished)
      end
  | (h1, Caught e) => (h1, Caught e)
  | (h1, Unfinished) => (h1, Unfinished)
  end.

End Script.

(** *** Drawing what [pack_shapes] returned *)

Section Drawing.
Context {F : Type} `{NumF : Num F}.
Local Open Scope num_scope.

(** [calculate_shape_area] only reads the items of [params]. *)
Lemma calculate_shape_area_reads shape_type params (h h2 : heap F) d :
  h !! params = Some d → h2 !! params = Some d →
  (calculate_shape_area shape_type params h).1 = h ∧
  (calculate_shape_area shape_type params h2).2
    = (calculate_shape_area shape_type params h).2.
Proof.
  intros Hd Hd2. unfold calculate_shape_area.
  repeat match goal with
    | |- context [String.eqb shape_type ?s] => destruct (String.eqb shape_type s)
    end; try (split; reflexivity);
    repeat (rewrite (getitem_bind params _ _ h d Hd),
              (getitem_bind params _ _ h2 d Hd2);
            match goal with |- context [d !! ?k] => destruct (d !! k) end;
            try (split; reflexivity)).
Qed.

Lemma sum_len_concat (sheets : list (list (PlacedShape F))) :
  sum_len sheets = Z.of_nat (length (concat sheets)).
Proof.
  induction sheets as [|sheet sheets IH]; [reflexivity|].
  cbn [sum_len foldr concat]. fold (sum_len sheets).
  rewrite IH, length_app. lia.
Qed.

(** The patch of a shape of the grid [g] centred at [(x, y)]. *)
Definition shape_patch (g : grid F) (l w x y : F) : patch :=
  match g with
  | Circle r _ _ => CirclePatch x y r "skyblue"
  | Square L _ _ =>
      RectanglePatch (x - L / #2) (y - L / #2) L L (Some "lightgreen")
  | Rectangle _ _ =>
      RectanglePatch (x - l / #2) (y - w / #2) l w (Some "lightcoral")
  | Triangle a _ _ =>
      let h := a * math_sqrt #3 / #2 in
      PolygonPatch [ (x, y + #2 * h / #3);
                     (x - a / #2, y - h / #3);
                     (x + a / #2, y - h / #3) ] "plum"
  | SemiCircle r _ _ => WedgePatch x y r 0 180 "gold"
  end.

Lemma draw_shape_run shape_type (g : grid F) d l w ps (h : heap F) :
  grid_agrees shape_type g d l w →
  ps_type ps = shape_type → h !! ps_params ps = Some d →
  draw_shape ps h = (h, Ok [shape_patch g l w (ps_x ps) (ps_y ps)]).
Proof.
  intros Hag Ht Hd. unfold draw_shape. rewrite Ht.
  destruct g; cbn in Hag; destruct_and!; subst shape_type;
    cbn [String.eqb Ascii.eqb Bool.eqb];
    repeat match goal with
      | H : d !! ?k = Some ?v |- context [getitem (ps_params ps) ?k] =>
          rewrite (bind_run _ _ _ _ _ (getitem_run (ps_params ps) d h k v Hd H))
      end; reflexivity.
Qed.

Lemma draw_shapes_run shape_type (g : grid F) d l w (h : heap F) sheet :
  grid_agrees shape_type g d l w →
  Forall (λ ps, ps_type ps = shape_type ∧ h !! ps_params ps = Some d) sheet →
  draw_shapes sheet h
    = (h, Ok (map (λ ps, shape_patch g l w (ps_x ps) (ps_y ps)) sheet)).
Proof.
  intros Hag. induction 1 as [|ps sheet [Ht Hd] _ IH]; [reflexivity|].
  cbn [draw_shapes map].
  rewrite (bind_run _ _ _ _ _ (draw_shape_run _ _ _ _ _ _ _ Hag Ht Hd)).
  rewrite (bind_run _ _ _ _ _ IH). reflexivity.
Qed.

(** The shapes of a returned result carry the kind asked for, and their
    dictionaries hold what the kind reads. *)
Lemma pack_shapes_drawable fuel shape_type params num_shapes
    (sheet_w sheet_h clearance : F) (h h' : heap F) sheets :
  pack_shapes fuel shape_type params num_shapes sheet_w sheet_h clearance h
    = (h', Ok sheets) →
  ∃ h1 p' g d l w,
    grid_increments shape_type params sheet_w sheet_h clearance h
      = (h1, Ok (p', g)) ∧
    h1 !! p' = Some d ∧
    grid_agrees shape_type g d l w ∧
    Forall (λ sheet, sheet ≠ []) sheets ∧
    ∀ sheet, sheet ∈ sheets →
      Forall (λ ps, (ps_type ps = shape_type ∧ h' !! ps_params ps = Some d) ∧
                    on_grid shape_type g sheet_w sheet_h l w 0 ps) sheet.
Proof.
  intros Hrun.
  apply pack_shapes_ok in Hrun
    as (h1 & p' & g & d0 & d & l & w & Hg & _ & Hd1 & Hag & _ & Hne & _ & Hadd).
  exists h1, p', g, d, l, w. split; [exact Hg|]. split; [exact Hd1|].
  split; [exact Hag|]. split; [exact Hne|].
  intros sheet Hsheet. apply Forall_forall. intros ps Hps.
  assert (ps ∈ concat sheets) as Hin by (eapply elem_of_concat; eassumption).
  destruct (added_params _ _ _ _ _ _ Hadd Hin) as (Hd & _ & Hon).
  split; [split; [apply Hon | exact Hd] | exact Hon].
Qed.

(** X6.  [visualize_sheets] on what [pack_shapes] returned, on the heap
    it left: with no sheet (a request of 0) it fails on [sheets[0]];
    otherwise it never fails on a missing parameter and returns a
    figure with the border of the sheet followed by exactly one patch
    per shape of the first sheet -- the other sheets are not drawn --
    and its first text gives the count of the first sheet and the kind.
    The heap is unchanged. *)
Theorem visualize_draws_first_sheet fuel shape_type params num_shapes
    (sheet_w sheet_h clearance clearance_mm unused unused_pct : F) (h : heap F) :
  let r := pack_shapes fuel shape_type params num_shapes
             sheet_w sheet_h clearance h in
  match r.2 with
  | Ok [] =>
      visualize_sheets [] sheet_w sheet_h clearance clearance_mm
        unused unused_pct r.1 = (r.1, Caught IndexError)
  | Ok (first :: rest) =>
      ∃ fig shapes,
        visualize_sheets (first :: rest) sheet_w sheet_h clearance clearance_mm
          unused unused_pct r.1 = (r.1, Shown fig) ∧
        patches fig = RectanglePatch #0 #0 sheet_w sheet_h None :: shapes ∧
        length shapes = length first ∧
        head (texts fig)
          = Some (PackedLabel (sheet_w / #2) (sheet_h + lit 1 10)
                    (length first) shape_type)
  | _ => True
  end.
Proof.
  intros r. subst r.
  destruct (pack_shapes _ _ _ _ _ _ _ _) as [h' [sheets|?|]] eqn:Hrun;
    cbn [fst snd]; [|exact I..].
  destruct sheets as [|first rest]; [reflexivity|].
  apply pack_shapes_drawable in Hrun
    as (h1 & p' & g & d & l & w & _ & _ & Hag & Hne & Hall).
  specialize (Hall first ltac:(apply list_elem_of_here)).
  apply Forall_cons_1 in Hne as [Hne _].
  unfold visualize_sheets.
  rewrite (draw_shapes_run shape_type g d l w h' first Hag)
    by (eapply Forall_impl; [exact Hall | intros ? [? _]; assumption]).
  eexists _, _. split; [reflexivity|]. cbn [patches texts].
  split; [reflexivity|]. split; [apply length_map|].
  destruct first as [|ps first]; [congruence|].
  apply Forall_cons_1 in Hall as [[[Ht _] _] _].
  cbn [sheet_information app head]. rewrite Ht. reflexivity.
Qed.

(** A computation that leaves the heap as it found it. *)
Definition reads_only {A} (m : M F A) : Prop := ∀ h, (m h).1 = h.

Lemma reads_only_ret {A} (a : A) : reads_only (mret a : M F A).
Proof. intros h. reflexivity. Qed.

Lemma reads_only_raise {A} e : reads_only (raise e : M F A).
Proof. intros h. reflexivity. Qed.

Lemma reads_only_getitem p key : reads_only (getitem p key).
Proof. intros h. unfold getitem. repeat case_match; reflexivity. Qed.

Lemma reads_only_bind {A B} (m : M F A) (k : A → M F B) :
  reads_only m → (∀ a, reads_only (k a)) → reads_only (m ≫= k).
Proof.
  intros Hm Hk h. rewrite bind_unfold. specialize (Hm h).
  destruct (m h) as [h1 [a|e|]]; cbn [fst] in *; subst; [apply Hk | done..].
Qed.

Lemma calculate_unused_area_heap shape_type params sheet_w sheet_h count
    (h : heap F) :
  (calculate_unused_area shape_type params sheet_w sheet_h count h).1 = h.
Proof.
  apply reads_only_bind; [|intros; apply reads_only_ret].
  unfold calculate_shape_area.
  repeat match goal with
    | |- context [String.eqb shape_type ?s] => destruct (String.eqb shape_type s)
    end;
    repeat first [ apply reads_only_bind; [apply reads_only_getitem | intros]
                 | apply reads_only_ret | apply reads_only_raise ].
Qed.

(** X12.  Whenever the handler has results to show, its visualization
    step succeeds as well: on the sheets just packed [visualize_sheets]
    returns a figure, with one patch per shape counted in "Shapes per
    Sheet" after the border and with that count and the selected kind in
    its first text; the heap is the one the results were computed on. *)
Theorem handler_draws_results fuel shape_type params
    (sheet_w sheet_h clearance : F) (h : heap F) :
  let out := calculate fuel shape_type params sheet_w sheet_h clearance h in
  match out.2 with
  | Shown r =>
      ∃ fig shapes,
        calculate_and_draw fuel shape_type params sheet_w sheet_h clearance h
          = (out.1, Shown (r, fig)) ∧
        patches fig = RectanglePatch #0 #0 sheet_w sheet_h None :: shapes ∧
        Z.of_nat (length shapes) = count_on_sheet r ∧
        head (texts fig)
          = Some (PackedLabel (sheet_w / #2) (sheet_h + lit 1 10)
                    (Z.to_nat (count_on_sheet r)) shape_type)
  | _ => True
  end.
Proof.
  intros out. subst out. unfold calculate_and_draw.
  destruct (calculate _ _ _ _ _ _ _) as [h' [r|?|]] eqn:Hcalc;
    cbn [fst snd]; [|exact I..].
  unfold calculate in Hcalc.
  destruct (area_bound _ _ _ _ _) as [h1 [bound|?|]]; try discriminate.
  destruct (pack_shapes _ _ _ _ _ _ _ _) as [h2 [sheets|?|]] eqn:Hpack;
    try discriminate.
  destruct sheets as [|first rest]; [discriminate|].
  destruct (bound =? 0)%Z; [discriminate|].
  pose proof (calculate_unused_area_heap shape_type params sheet_w sheet_h
                (Z.of_nat (length first)) h2) as Hheap.
  destruct (calculate_unused_area _ _ _ _ _ _) as [h3 [unused|?|]];
    try discriminate.
  cbn [fst] in Hheap. subst h3.
  destruct (is_zero _); [discriminate|].
  injection Hcalc as <- <-. cbn [packed count_on_sheet unused_area
                                   unused_percentage].
  apply pack_shapes_drawable in Hpack
    as (? & ? & g & d & l & w & _ & _ & Hag & Hne & Hall).
  specialize (Hall first ltac:(apply list_elem_of_here)).
  apply Forall_cons_1 in Hne as [Hne _].
  unfold visualize_sheets.
  rewrite (draw_shapes_run shape_type g d l w h2 first Hag)
    by (eapply Forall_impl; [exact Hall | intros ? [? _]; assumption]).
  eexists _, _. split; [reflexivity|]. cbn [patches texts].
  split; [reflexivity|]. split; [rewrite length_map; reflexivity|].
  destruct first as [|ps first]; [congruence|].
  apply Forall_cons_1 in Hall as [[[Ht _] _] _].
  cbn [sheet_information app head]. rewrite Ht, Nat2Z.id. reflexivity.
Qed.

End Drawing.

Arguments patch F : clear implicits.
Arguments label F : clear implicits.
Arguments figure F : clear implicits.
Arguments results F : clear implicits.

(** ** The areas and the main script in exact arithmetic *)

Section RealScript.
Local Open Scope R_scope.

Lemma shape_area_positive shape_type params (h : heap R) d :
  h !! params = Some d → positive_params shape_type d →
  ∃ A, calculate_shape_area shape_type params h = (h, Ok A) ∧ 0 < A.
Proof.
  intros Hd (keys & Hkeys & Hpos).
  unfold required_keys in Hkeys. unfold calculate_shape_area.
  pose proof sqrt3_pos as Hs. pose proof PI_RGT_0 as Hpi.
  destruct (String.eqb shape_type "circle").
  { injection Hkeys as <-.
    destruct (Hpos "r") as (r & Hr & Hr0); [set_solver|].
    rewrite (bind_run _ _ _ _ _ (getitem_run params d h "r" r Hd Hr)).
    eexists. split; [reflexivity|]. cbn [mul math_pi R_Num].
    apply Rmult_lt_0_compat; [apply Rmult_lt_0_compat|]; assumption. }
  destruct (String.eqb shape_type "square").
  { injection Hkeys as <-.
    destruct (Hpos "L") as (L & HL & HL0); [set_solver|].
    rewrite (bind_run _ _ _ _ _ (getitem_run params d h "L" L Hd HL)).
    eexists. split; [reflexivity|]. cbn [mul R_Num].
    apply Rmult_lt_0_compat; assumption. }
  destruct (String.eqb shape_type "rectangle").
  { injection Hkeys as <-.
    destruct (Hpos "l") as (l & Hl & Hl0); [set_solver|].
    destruct (Hpos "w") as (w & Hw & Hw0); [set_solver|].
    rewrite (bind_run _ _ _ _ _ (getitem_run params d h "l" l Hd Hl)).
    rewrite (bind_run _ _ _ _ _ (getitem_run params d h "w" w Hd Hw)).
    eexists. split; [reflexivity|]. cbn [mul R_Num].
    apply Rmult_lt_0_compat; assumption. }
  destruct (String.eqb shape_type "triangle").
  { injection Hkeys as <-.
    destruct (Hpos "a") as (a & Ha & Ha0); [set_solver|].
    rewrite (bind_run _ _ _ _ _ (getitem_run params d h "a" a Hd Ha)).
    eexists. split; [reflexivity|]. cbn [mul div of_int math_sqrt R_Num].
    assert (0 < a * sqrt 3) by (apply Rmult_lt_0_compat; assumption).
    assert (0 < a * (a * sqrt 3 / 2)) by (apply Rmult_lt_0_compat; lra).
    lra. }
  destruct (String.eqb shape_type "semi-circle"); [|discriminate].
  injection Hkeys as <-.
  destruct (Hpos "r") as (r & Hr & Hr0); [set_solver|].
  rewrite (bind_run _ _ _ _ _ (getitem_run params d h "r" r Hd Hr)).
  eexists. split; [reflexivity|]. cbn [mul div of_int math_pi R_Num].
  assert (0 < PI * r * r)
    by (apply Rmult_lt_0_compat; [apply Rmult_lt_0_compat|]; assumption).
  lra.
Qed.

(** The area bound is the floor of the quotient of the two areas. *)
Lemma area_bound_run shape_type params sheet_w sheet_h (h : heap R) A :
  calculate_shape_area shape_type params h = (h, Ok A) → 0 < A →
  ∃ bound,
    area_bound shape_type params sheet_w sheet_h h = (h, Ok bound) ∧
    IZR bound * A <= sheet_w * sheet_h < (IZR bound + 1) * A.
Proof.
  intros Harea HA. exists (Int_part (sheet_w * sheet_h / A)). split.
  - unfold area_bound. rewrite (bind_run _ _ _ _ _ Harea).
    rewrite is_zero_false by lra. unfold int.
    cbn [to_int floordiv mul R_Num]. rewrite R_to_int_IZR. reflexivity.
  - destruct (base_Int_part (sheet_w * sheet_h / A)) as [Hlo Hhi].
    assert (sheet_w * sheet_h = sheet_w * sheet_h / A * A) as Heq
      by (field; lra).
    set (q := sheet_w * sheet_h / A) in *. rewrite Heq. split.
    + apply Rmult_le_compat_r; lra.
    + apply Rmult_lt_compat_r; lra.
Qed.



Lemma calculate_unused_area_run shape_type params sheet_w sheet_h count
    (h h2 : heap R) d A :
  h !! params = Some d → h2 !! params = Some d →
  calculate_shape_area shape_type params h = (h, Ok A) →
  calculate_unused_area shape_type params sheet_w sheet_h count h2
    = (h2, Ok (sheet_w * sheet_h - A * IZR count)).
Proof.
  intros Hd Hd2 Harea.
  destruct (calculate_shape_area_reads shape_type params h h2 d Hd Hd2)
    as [_ Hsame].
  destruct (calculate_shape_area_reads shape_type params h2 h2 d Hd2 Hd2)
    as [Hheap _].
  rewrite Harea in Hsame. cbn [snd] in Hsame.
  unfold calculate_unused_area.
  rewrite (bind_run _ _ _ _ _
             (run_eq _ _ Hsame : _ = (_, Ok A))), Hheap.
  reflexivity.
Qed.



(** A patch lies on the sheet: the disc of a circle, the rectangle, the
    vertices of a polygon, the upper half disc of a wedge from 0 to 180
    degrees. *)
Definition patch_within (sheet_w sheet_h : R) (p : patch R) : Prop :=
  match p with
  | CirclePatch x y r _ =>
      0 <= x - r ∧ x + r <= sheet_w ∧ 0 <= y - r ∧ y + r <= sheet_h
  | RectanglePatch x y width height _ =>
      0 <= x ∧ x + width <= sheet_w ∧ 0 <= y ∧ y + height <= sheet_h
  | PolygonPatch pts _ =>
      Forall (λ pt, 0 <= pt.1 <= sheet_w ∧ 0 <= pt.2 <= sheet_h) pts
  | WedgePatch x y r theta1 theta2 _ =>
      theta1 = 0%Z ∧ theta2 = 180%Z ∧
      0 <= x - r ∧ x + r <= sheet_w ∧ 0 <= y ∧ y + r <= sheet_h
  end.

Lemma shape_patch_within shape_type (g : grid R) sheet_w sheet_h l w ps :
  grid_positive g l w → on_grid shape_type g sheet_w sheet_h l w 0 ps →
  patch_within sheet_w sheet_h (shape_patch g l w (ps_x ps) (ps_y ps)).
Proof.
  intros Hgp Hon.
  destruct (on_grid_bounds _ _ _ _ _ _ _ Hgp Hon) as [Hx Hy].
  destruct Hgp as (_ & _ & Hex & Hoff & Htr).
  destruct g;
    cbn [shape_patch patch_within half_extent_x first_row_offset
           trailing_extent add sub mul div of_int math_sqrt R_Num] in *.
  - lra.
  - lra.
  - lra.
  - do 3 (constructor; [cbn [fst snd]; lra|]). constructor.
  - repeat split; lra.
Qed.


End RealScript.

(** ** Runs for the statements beyond the claims *)

Section MoreFloatRuns.
Local Open Scope float_scope.

(** X1 on a hexagon, with no fuel and an empty dictionary. *)
Lemma unknown_kind_raises_witness :
  pack_shapes 0 "hexagon" 0%nat 5 1.0 1.0 0.0 (heap_of (∅ : gmap string float))
    = (heap_of ∅, Raise ValueError).
Proof.
  apply (unknown_kind_raises 0 "hexagon" 0%nat 5 1.0 1.0 0.0 (heap_of ∅)).
  unfold unknown_kind. repeat split; discriminate.
Defined.

(** X2 on a hexagon. *)
Lemma area_unknown_kind_raises_witness :
  let h : heap float := heap_of {[ "r" := 1 ]} in
  calculate_shape_area "hexagon" 0%nat h = (h, Raise ValueError) ∧
  calculate_unused_area "hexagon" 0%nat 1.0 1.0 3 h = (h, Raise ValueError) ∧
  area_bound "hexagon" 0%nat 1.0 1.0 h = (h, Raise ValueError).
Proof.
  intros h.
  apply (area_unknown_kind_raises "hexagon" 0%nat 1.0 1.0 3 h).
  unfold unknown_kind. repeat split; discriminate.
Defined.

(** X3 on a rectangle whose dictionary holds [l] only. *)
Lemma area_missing_param_raises_witness :
  let d : gmap string float := {[ "l" := 2 ]} in
  ∃ key, key ∈ ["l"; "w"] ∧ d !! key = None ∧
    calculate_shape_area "rectangle" 0%nat (heap_of d)
      = (heap_of d, Raise (KeyError key)) ∧
    calculate_unused_area "rectangle" 0%nat 1.0 1.0 3 (heap_of d)
      = (heap_of d, Raise (KeyError key)).
Proof.
  intros d.
  apply (area_missing_param_raises "rectangle" 0%nat 1.0 1.0 3 (heap_of d) d
           ["l"; "w"]).
  - reflexivity.
  - reflexivity.
  - exists "w". split; [set_solver | vm_compute; reflexivity].
Defined.

(** X4 on a rectangle of width 0 with no clearance. *)
Lemma rectangle_zero_pitch_raises_witness :
  let d : gmap string float := {[ "l" := 1; "w" := 0 ]} in
  pack_shapes 5 "rectangle" 0%nat 3 10 10 0 (heap_of d)
    = (heap_of d, Raise ZeroDivisionError).
Proof.
  intros d.
  apply (rectangle_zero_pitch_raises 5 0%nat 3 10 10 0 (heap_of d) d 1 0).
  - reflexivity.
  - vm_compute. reflexivity.
  - vm_compute. reflexivity.
  - left. vm_compute. reflexivity.
Defined.

End MoreFloatRuns.

Section MoreRealRuns.
Local Open Scope R_scope.

(** The handler on the unit square: one shape on one sheet. *)
Lemma unit_square_calculate :
  ∃ h' r, calculate 2 "square" 0%nat 1 1 0 (heap_of unit_square) = (h', Shown r).
Proof.
  assert (heap_of unit_square !! 0%nat = Some unit_square) as Hd by reflexivity.
  destruct (shape_area_positive "square" 0%nat (heap_of unit_square) unit_square
              Hd unit_square_positive) as (A & Harea & HA).
  assert (A = 1) as ->.
  { unfold calculate_shape_area in Harea.
    cbn [String.eqb Ascii.eqb Bool.eqb] in Harea.
    rewrite (bind_run _ _ _ _ _
               (getitem_run 0%nat unit_square (heap_of unit_square) "L" 1
                  Hd (lookup_singleton_eq _ _))) in Harea.
    injection Harea as <-. cbn. lra. }
  destruct (area_bound_run "square" 0%nat 1 1 _ _ Harea HA)
    as (bound & Hbound & Hlo & Hhi).
  assert (bound = 1%Z) as ->.
  { assert (IZR 0 < IZR bound) as H0 by lra. apply lt_IZR in H0.
    assert (IZR bound < IZR 2) as H2 by lra. apply lt_IZR in H2. lia. }
  destruct unit_square_run as (h' & ps & Hrun).
  unfold calculate. rewrite Hbound.
  replace (0 / #1000)%num with 0 by (cbn; lra).
  rewrite Hrun. cbn [Z.eqb length Z.of_nat].
  assert (h' !! 0%nat = Some unit_square) as Hd2.
  { eapply prefix_lookup_Some; [exact Hd|].
    pose proof (extends_pack_shapes 2 "square" 0%nat 1 1 1 0
                  (heap_of unit_square)) as Hext.
    rewrite Hrun in Hext. exact Hext. }
  rewrite (calculate_unused_area_run _ _ _ _ _ _ h' _ 1 Hd Hd2 Harea).
  rewrite is_zero_false by (cbn; lra).
  eauto.
Qed.







(** Two circles of radius 1 side by side on a sheet of 4 by 2. *)
Definition unit_circle : gmap string R := {[ "r" := 1 ]}.

Lemma unit_circle_positive : positive_params "circle" unit_circle.
Proof.
  exists ["r"]. split; [reflexivity|]. intros key Hkey.
  apply list_elem_of_singleton in Hkey as ->.
  exists 1. split; [apply lookup_singleton_eq | lra].
Qed.

Lemma circle_pair_run :
  ∃ h' p q,
    pack_shapes 3 "circle" 0%nat 2 4 2 0 (heap_of unit_circle)
      = (h', Ok [[p; q]]).
Proof.
  assert (heap_of unit_circle !! 0%nat = Some unit_circle) as Hd by reflexivity.
  unfold pack_shapes, grid_increments. cbn [String.eqb Ascii.eqb Bool.eqb].
  rewrite bind_unfold.
  rewrite (bind_run _ _ _ _ _
             (getitem_run 0%nat unit_circle (heap_of unit_circle) "r" 1
                Hd (lookup_singleton_eq _ _))).
  cbn [fst snd ret].
  set (g := Circle 1 _ _).
  assert (resolved g unit_circle 1 1) as Hres by exact I.
  rewrite sheet_loop_step. cbn [Z.ltb Z.compare].
  rewrite (row_loop_step _ _ _ _ _ _ _ _ _ Hres) by exact Hd.
  rewrite (proj2 (gt_false _ _))
    by (unfold y_at, g; cbn [first_row_offset trailing_extent grid_dy add mul
                              sub div of_int R_Num]; lra).
  rewrite row_x_offset_first.
  rewrite (col_loop_step _ _ _ _ _ _ _ _ Hres) by exact Hd.
  rewrite (proj2 (gt_false _ _))
    by (unfold x_at, g; cbn [half_extent_x grid_dx add mul sub
                              div of_int R_Num]; lra).
  cbn [placed Z.ltb Z.compare].
  rewrite (col_loop_step _ _ _ _ _ _ _ _ Hres) by reflexivity.
  rewrite (proj2 (gt_false _ _))
    by (unfold x_at, g; cbn [half_extent_x grid_dx add mul sub
                              div of_int R_Num];
        rewrite ?plus_IZR; lra).
  cbn [placed Z.add Pos.add Z.ltb Z.compare Pos.compare Pos.compare_cont].
  rewrite (col_loop_step _ _ _ _ _ _ _ _ Hres) by reflexivity.
  rewrite (proj2 (gt_true _ _))
    by (unfold x_at, g; cbn [half_extent_x grid_dx add mul sub
                              div of_int R_Num];
        rewrite ?plus_IZR; lra).
  cbn. eauto.
Qed.



End MoreRealRuns.

Section FullRuns.
Local Open Scope R_scope.

(** Two unit squares on unit sheets: one sheet each. *)
Lemma unit_square_two_sheets :
  ∃ h' p q,
    pack_shapes 3 "square" 0%nat 2 1 1 0 (heap_of unit_square)
      = (h', Ok [[p]; [q]]).
Proof.
  unfold pack_shapes. rewrite (bind_run _ _ _ _ _ unit_square_grid).
  cbn [fst snd].
  set (g := Square 1 (1 + 0)%num (1 + 0)%num).
  assert (resolved g unit_square 1 1) as Hres by exact I.
  assert (∀ fuel st (h : heap R),
            h !! 0%nat = Some unit_square → (placed st < 2)%Z →
            ∃ ps,
              row_loop (S (S fuel)) 3 "square" g 0%nat 2 1 1 0 st h
                = (h ++ [unit_square],
                   Ok {| placed := placed st + 1;
                         sheet_positions := sheet_positions st ++ [ps] |}))
    as Hsheet.
  { intros fuel st h Hd Hlt.
    rewrite (row_loop_step _ _ _ _ _ _ _ _ _ Hres) by exact Hd.
    rewrite (proj2 (gt_false _ _))
      by (unfold y_at, g; cbn [first_row_offset trailing_extent grid_dy add mul
                                sub div of_int R_Num]; lra).
    rewrite row_x_offset_first.
    rewrite (col_loop_step _ _ _ _ _ _ _ _ Hres) by exact Hd.
    rewrite (proj2 (gt_false _ _))
      by (unfold x_at, g; cbn [half_extent_x grid_dx add mul sub div of_int
                                R_Num]; lra).
    apply Z.ltb_lt in Hlt. rewrite Hlt.
    rewrite (col_loop_step _ _ _ _ _ _ _ _ Hres)
      by (apply lookup_app_l_Some, Hd).
    rewrite (proj2 (gt_true _ _))
      by (unfold x_at, g; cbn [half_extent_x grid_dx add mul sub div of_int
                                R_Num]; rewrite ?plus_IZR; lra).
    cbn [placed sheet_positions].
    destruct (placed st + 1 >=? 2)%Z; [eauto|].
    rewrite (row_loop_step _ _ _ _ _ _ _ _ _ Hres)
      by (apply lookup_app_l_Some, Hd).
    rewrite (proj2 (gt_true _ _))
      by (unfold y_at, g; cbn [first_row_offset trailing_extent grid_dy add mul
                                sub div of_int R_Num]; rewrite ?plus_IZR; lra).
    eauto. }
  rewrite sheet_loop_step. cbn [Z.ltb Z.compare].
  destruct (Hsheet 1%nat {| placed := 0; sheet_positions := [] |}
              (heap_of unit_square) eq_refl ltac:(cbn; lia)) as (p & ->).
  cbn [placed sheet_positions app Z.add Z.geb Z.compare Pos.compare
         Pos.compare_cont].
  rewrite sheet_loop_step. change (0 + 1)%Z with 1%Z.
  cbn [Z.geb Z.ltb Z.compare Pos.compare Pos.compare_cont].
  destruct (Hsheet 1%nat {| placed := 1; sheet_positions := [] |}
              (heap_of unit_square ++ [unit_square]) eq_refl ltac:(cbn; lia))
    as (q & ->).
  cbn. eauto.
Qed.


End FullRuns.

Section ClearanceRuns.
Local Open Scope R_scope.

Lemma unit_square_wide_grid :
  grid_increments "square" 0%nat 2 1 0 (heap_of unit_square)
    = (heap_of unit_square, Ok (0%nat, Square 1 (1 + 0)%num (1 + 0)%num)).
Proof.
  unfold grid_increments. cbn [String.eqb Ascii.eqb Bool.eqb].
  rewrite (bind_run _ _ _ _ _
             (getitem_run 0%nat unit_square (heap_of unit_square) "L" 1
                eq_refl (lookup_singleton_eq _ _))).
  reflexivity.
Qed.

(** Two unit squares side by side on a sheet of 2 by 1. *)
Lemma unit_square_pair_run :
  ∃ h' p q,
    pack_shapes 3 "square" 0%nat 2 2 1 0 (heap_of unit_square)
      = (h', Ok [[p; q]]).
Proof.
  assert (heap_of unit_square !! 0%nat = Some unit_square) as Hd by reflexivity.
  unfold pack_shapes. rewrite (bind_run _ _ _ _ _ unit_square_wide_grid).
  cbn [fst snd].
  set (g := Square 1 (1 + 0)%num (1 + 0)%num).
  assert (resolved g unit_square 1 1) as Hres by exact I.
  rewrite sheet_loop_step. cbn [Z.ltb Z.compare].
  rewrite (row_loop_step _ _ _ _ _ _ _ _ _ Hres) by exact Hd.
  rewrite (proj2 (gt_false _ _))
    by (unfold y_at, g; cbn [first_row_offset trailing_extent grid_dy add mul
                              sub div of_int R_Num]; lra).
  rewrite row_x_offset_first.
  rewrite (col_loop_step _ _ _ _ _ _ _ _ Hres) by exact Hd.
  rewrite (proj2 (gt_false _ _))
    by (unfold x_at, g; cbn [half_extent_x grid_dx add mul sub div of_int
                              R_Num]; lra).
  cbn [placed Z.ltb Z.compare].
  rewrite (col_loop_step _ _ _ _ _ _ _ _ Hres) by reflexivity.
  rewrite (proj2 (gt_false _ _))
    by (unfold x_at, g; cbn [half_extent_x grid_dx add mul sub div of_int
                              R_Num]; rewrite ?plus_IZR; lra).
  cbn [placed Z.add Pos.add Z.ltb Z.compare Pos.compare Pos.compare_cont].
  rewrite (col_loop_step _ _ _ _ _ _ _ _ Hres) by reflexivity.
  rewrite (proj2 (gt_true _ _))
    by (unfold x_at, g; cbn [half_extent_x grid_dx add mul sub div of_int
                              R_Num]; rewrite ?plus_IZR; lra).
  cbn. eauto.
Qed.


End ClearanceRuns.
